(** * bird: the resilient GraphQL request / pagination engine

    A shallow embedding of the core of the client: the cursor paginator
    ([paginateCursor]) and the pagination of the list timeline, the base
    class with its constructor and its query-ID resolution, the engagement,
    posting, media and user-lookup mixins with their retry and fallback
    paths, and the rendering of article text; followed by the properties the
    specification states about them.

    Asynchronous methods are functions from the state of the world to a
    completion (a value or a thrown error) and the state after. The network,
    the clock and the modules outside the embedded files are parameters
    ([Client.Env]). *)

From Stdlib Require Import ZArith Lia.
From stdpp Require Import gmap strings list pretty.

Local Open Scope Z_scope.

(** ** JavaScript truthiness of optional strings

    [!s] for [s : string | undefined]: both [undefined] and the empty string
    are falsy. *)
Definition truthy (s : option string) : bool :=
  match s with
  | None => false
  | Some s => negb (String.eqb s "")
  end.

(** ** Completions

    The outcome of evaluating JavaScript code that may throw: a normal
    completion with a value, or an abrupt one carrying the thrown error,
    represented by the text [error instanceof Error ? error.message :
    String(error)] gives for it. *)
Inductive Completion (A : Type) : Type :=
  | Normal (a : A)
  | Abrupt (error : string).
Arguments Normal {A} a.
Arguments Abrupt {A} error.

Definition isNormal {A} (c : Completion A) : bool :=
  match c with Normal _ => true | Abrupt _ => false end.

(** * The cursor paginator *)
Module Paginator.

(** [CursorPage<T>]: one fetched page. *)
Inductive CursorPage (T : Type) : Type :=
  | PageOk (items : list T) (cursor : option string)
  | PageErr (error : string).
Arguments PageOk {T} items cursor.
Arguments PageErr {T} error.

(** [CursorPaginationResult<T>]. The failure shape carries optional partial
    items and an optional cursor. *)
Inductive CursorPaginationResult (T : Type) : Type :=
  | ResOk (items : list T) (nextCursor : option string)
  | ResErr (error : string) (items : option (list T)) (nextCursor : option string).
Arguments ResOk {T} items nextCursor.
Arguments ResErr {T} error items nextCursor.

Definition success {T} (r : CursorPaginationResult T) : bool :=
  match r with ResOk _ _ => true | ResErr _ _ _ => false end.

Definition resultItems {T} (r : CursorPaginationResult T) : option (list T) :=
  match r with ResOk l _ => Some l | ResErr _ l _ => l end.

Definition nextCursor {T} (r : CursorPaginationResult T) : option string :=
  match r with ResOk _ c => c | ResErr _ _ c => c end.

Section Paginate.
(** [T] is the item type, [W] the state of the world the two closures
    [sleep] and [fetchPage] act on. *)
Context {T W : Type}.

(** The [opts] argument of [paginateCursor]. *)
Record Opts := {
  cursor : option string;
  maxPages : option Z;
  pageDelayMs : option Z;
  sleep : Z → W → W;
  getKey : T → string;
  fetchPage : option string → W → Completion (CursorPage T) * W;
}.

(** The local variables of [paginateCursor]. *)
Record PaginationState := {
  seen : gset string;
  items : list T;
  cur : option string;
  pagesFetched : Z;
}.

Definition initial (opts : Opts) : PaginationState :=
  {| seen := ∅; items := []; cur := cursor opts; pagesFetched := 0 |}.

(** The [for (const item of page.items)] loop: an item is pushed unless its
    key has been seen. *)
Definition addItem (opts : Opts) (acc : gset string * list T) (item : T)
    : gset string * list T :=
  let key := getKey opts item in
  if decide (key ∈ acc.1) then acc
  else ({[key]} ∪ acc.1, acc.2 ++ [item]).

Definition addItems (opts : Opts) (acc : gset string * list T) (page : list T)
    : gset string * list T :=
  foldl (addItem opts) acc page.

(** The courtesy delay at the head of the loop body:
    [if (pagesFetched > 0 && pageDelayMs > 0) await opts.sleep(pageDelayMs)],
    with [pageDelayMs] defaulting to 1000. *)
Definition pause (opts : Opts) (st : PaginationState) (w : W) : W :=
  let delay := default 1000 (pageDelayMs opts) in
  if (0 <? pagesFetched st) && (0 <? delay) then sleep opts delay w else w.

(** One turn of the [while (true)] loop: [Normal (inl r)] is [return r],
    [Normal (inr st)] goes round again, [Abrupt e] is a rejection of the
    awaited [fetchPage] promise, which nothing in the loop catches. *)
Definition iteration (opts : Opts) (st : PaginationState) (w : W)
    : Completion (CursorPaginationResult T + PaginationState) * W :=
  let w := pause opts st w in
  let '(fetched, w) := fetchPage opts (cur st) w in
  match fetched with
  | Abrupt e => (Abrupt e, w)
  | Normal (PageErr error) =>
      if (0 <? Z.of_nat (length (items st)))
      then (Normal (inl (ResErr error (Some (items st)) (cur st))), w)
      else (Normal (inl (ResErr error None None)), w)
  | Normal (PageOk pitems pageCursor) =>
      let count := pagesFetched st + 1 in
      let '(seen', items') := addItems opts (seen st, items st) pitems in
      if negb (truthy pageCursor) || bool_decide (pageCursor = cur st)
      then (Normal (inl (ResOk items' None)), w)
      else
        let continue :=
          {| seen := seen'; items := items';
             cur := pageCursor; pagesFetched := count |} in
        match maxPages opts with
        | Some limit =>
            if limit <=? count
            then (Normal (inl (ResOk items' pageCursor)), w)
            else (Normal (inr continue), w)
        | None => (Normal (inr continue), w)
        end
  end.

(** The loop itself; [fuel] bounds the number of turns, [None] means the
    bound was hit before the loop returned. *)
Fixpoint paginateLoop (fuel : nat) (opts : Opts) (st : PaginationState) (w : W)
    : option (Completion (CursorPaginationResult T) * W) :=
  match fuel with
  | O => None
  | S fuel =>
      match iteration opts st w with
      | (Abrupt e, w) => Some (Abrupt e, w)
      | (Normal (inl r), w) => Some (Normal r, w)
      | (Normal (inr st), w) => paginateLoop fuel opts st w
      end
  end.

Definition paginateCursor (fuel : nat) (opts : Opts) (w : W)
    : option (Completion (CursorPaginationResult T) * W) :=
  paginateLoop fuel opts (initial opts) w.

(** The loop states a call started in world [w0] passes through: the
    initial one, and whatever a turn that goes round again leads to. *)
Inductive reaches (opts : Opts) (w0 : W) : PaginationState → W → Prop :=
  | reaches_initial : reaches opts w0 (initial opts) w0
  | reaches_turn st w st' w' :
      reaches opts w0 st w →
      iteration opts st w = (Normal (inr st'), w') →
      reaches opts w0 st' w'.

End Paginate.
Arguments Opts : clear implicits.
Arguments PaginationState : clear implicits.

(** *** Observing the fetches

    What a spy on [fetchPage] records: each call's cursor argument and what
    the call produced, in call order. [recording opts] is [opts] with such a
    spy around [fetchPage]; the record is kept next to the world. *)
Definition Call (T : Type) : Type := option string * Completion (CursorPage T).

Definition recording {T W} (opts : Opts T W) : Opts T (W * list (Call T)) :=
  {| cursor := cursor opts;
     maxPages := maxPages opts;
     pageDelayMs := pageDelayMs opts;
     sleep := λ ms w, (sleep opts ms w.1, w.2);
     getKey := getKey opts;
     fetchPage := λ c w,
       let '(p, w') := fetchPage opts c w.1 in (p, (w', w.2 ++ [(c, p)])) |}.

(** The items of the pages a record holds, in the order they came. *)
Definition callItems {T} (c : Call T) : list T :=
  match c.2 with
  | Normal (PageOk items _) => items
  | _ => []
  end.

Definition itemsOf {T} (calls : list (Call T)) : list T :=
  calls ≫= callItems.

(** First-encounter order: an element of [l] is kept exactly when no earlier
    element of [l] has its key; kept elements stay in the order of [l]. *)
Definition firstEncounters {T} (key : T → string) (l : list T) : list T :=
  mjoin (imap (λ i x,
    if bool_decide (key x ∈ key <$> take i l) then [] else [x]) l).

(** A call that produced a page. *)
Definition gavePage {T} (c : Call T) : Prop :=
  ∃ items cursor, c.2 = Normal (PageOk items cursor).

(** The loop state [st] is the one the recorded calls account for: every
    call so far gave a page, and the accumulator, the seen-key set and the
    page counter are what these pages make them. *)
Definition tracks {T W} (opts : Opts T W) (st : PaginationState T)
    (calls : list (Call T)) : Prop :=
  Forall gavePage calls
  ∧ items st = firstEncounters (getKey opts) (itemsOf calls)
  ∧ (∀ k, k ∈ seen st ↔ k ∈ getKey opts <$> itemsOf calls)
  ∧ pagesFetched st = Z.of_nat (length calls).

(** What the record of a finished call says the result must be. The last
    call decides: a rejection is passed on; a failed page gives the failure
    shape, with the partial items and the cursor used when there are items;
    a page without a cursor, or with the cursor it was fetched by, ends the
    pagination; any other last page means the page limit was reached, and
    its cursor is handed back. *)
Definition verdict {T W} (opts : Opts T W) (calls : list (Call T))
    (c : Completion (CursorPaginationResult T)) : Prop :=
  ∃ before used p,
    calls = before ++ [(used, p)] ∧ Forall gavePage before ∧
    let acc := firstEncounters (getKey opts) (itemsOf calls) in
    match p with
    | Abrupt e => c = Abrupt e
    | Normal (PageErr e) =>
        c = Normal (match acc with
                    | [] => ResErr e None None
                    | _ => ResErr e (Some acc) used
                    end)
    | Normal (PageOk _ pc) =>
        if negb (truthy pc) || bool_decide (pc = used)
        then c = Normal (ResOk acc None)
        else c = Normal (ResOk acc pc)
             ∧ ∃ limit, maxPages opts = Some limit
                        ∧ limit ≤ Z.of_nat (length calls)
    end.

(** The delay before every fetch but the first. *)
Definition courtesyDelay {T W} (opts : Opts T W) (w : W) : W :=
  let delay := default 1000 (pageDelayMs opts) in
  if 0 <? delay then sleep opts delay w else w.

(** A [fetchPage] that replays a fixed list of pages, one per call, and fails
    when the list is exhausted; its world is the number of calls so far. *)
Definition scripted {T} (pages : list (CursorPage T))
    : option string → nat → Completion (CursorPage T) * nat :=
  λ _ n, (match pages !! n with
          | Some p => Normal p
          | None => Abrupt "no more pages"
          end, S n).

Definition scriptedOpts {T} (key : T → string) (start : option string)
    (limit : option Z) (pages : list (CursorPage T)) : Opts T nat :=
  {| cursor := start; maxPages := limit; pageDelayMs := None;
     sleep := λ _ n, n; getKey := key; fetchPage := scripted pages |}.

(** *** Observing the schedule

    What a spy on both closures records, in one list and in call order: a
    call of [sleep] with its milliseconds, a call of [fetchPage] with its
    cursor argument and what it produced. [observing opts] is [opts] with
    such a spy around [sleep] and around [fetchPage]. *)
Inductive Step (T : Type) : Type :=
  | Slept (ms : Z)
  | Fetched (call : Call T).
Arguments Slept {T} ms.
Arguments Fetched {T} call.

Definition observing {T W} (opts : Opts T W) : Opts T (W * list (Step T)) :=
  {| cursor := cursor opts;
     maxPages := maxPages opts;
     pageDelayMs := pageDelayMs opts;
     sleep := λ ms w, (sleep opts ms w.1, w.2 ++ [Slept ms]);
     getKey := getKey opts;
     fetchPage := λ c w,
       let '(p, w') := fetchPage opts c w.1 in
       (p, (w', w.2 ++ [Fetched (c, p)])) |}.

(** The steps of a call that made the fetches [calls] with the delay
    [delay]: the first fetch comes at once, each later fetch right after one
    sleep of [delay] milliseconds when [delay] is positive, and right after
    the fetch before it when it is not. *)
Definition schedule {T} (delay : Z) (calls : list (Call T)) : list (Step T) :=
  match calls with
  | [] => []
  | first :: later =>
      Fetched first
        :: (later ≫= λ call,
              if 0 <? delay then [Slept delay; Fetched call]
              else [Fetched call])
  end.

(** The cursor a page hands on, when the page came and has one. *)
Definition cursorOf {T} (p : Completion (CursorPage T)) : option string :=
  match p with
  | Normal (PageOk _ c) => c
  | _ => None
  end.

(** The calls on record are chained: the first is made with [start], each
    later one with the cursor of the page before it. *)
Definition chained {T} (start : option string) (calls : list (Call T))
    : Prop :=
  (∀ call, calls !! 0%nat = Some call → call.1 = start)
  ∧ ∀ i call next,
      calls !! i = Some call → calls !! S i = Some next →
      gavePage call ∧ cursorOf call.2 = next.1.

End Paginator.

(** * The list timeline *)
Module Lists.
Import Paginator.

Section ListTimeline.
Context {T W : Type}.

(** Modelled from the spec: the test of [getAllListTimeline] for a page that
    yields only already-seen items. Every item of the page has a key that
    was seen before the page came. *)
Definition onlySeen (opts : Opts T W) (st : PaginationState T)
    (page : list T) : bool :=
  forallb (λ item, bool_decide (getKey opts item ∈ seen st)) page.

(** Modelled from the spec: the pagination loop of [getAllListTimeline]
    ([twitter-client-lists]), which is not among the sources; its tests are.
    One turn is a turn of the cursor paginator (steps 2 to 7 of its
    algorithm) with the second stall check the specification names next to
    the repeated cursor: a page that yields only already-seen items ends the
    pagination as a missing or repeated cursor does, with no further
    cursor. *)
Definition iteration (opts : Opts T W) (st : PaginationState T) (w : W)
    : Completion (CursorPaginationResult T + PaginationState T) * W :=
  let w := pause opts st w in
  let '(fetched, w) := fetchPage opts (cur st) w in
  match fetched with
  | Abrupt e => (Abrupt e, w)
  | Normal (PageErr error) =>
      if (0 <? Z.of_nat (length (items st)))
      then (Normal (inl (ResErr error (Some (items st)) (cur st))), w)
      else (Normal (inl (ResErr error None None)), w)
  | Normal (PageOk pitems pageCursor) =>
      let count := pagesFetched st + 1 in
      let '(seen', items') := addItems opts (seen st, items st) pitems in
      if negb (truthy pageCursor) || bool_decide (pageCursor = cur st)
         || onlySeen opts st pitems
      then (Normal (inl (ResOk items' None)), w)
      else
        let continue :=
          {| seen := seen'; items := items';
             cur := pageCursor; pagesFetched := count |} in
        match maxPages opts with
        | Some limit =>
            if limit <=? count
            then (Normal (inl (ResOk items' pageCursor)), w)
            else (Normal (inr continue), w)
        | None => (Normal (inr continue), w)
        end
  end.

(** Modelled from the spec: the loop around that turn; [fuel] bounds the
    number of turns, [None] means the bound was hit before the loop
    returned. *)
Fixpoint paginateLoop (fuel : nat) (opts : Opts T W) (st : PaginationState T)
    (w : W) : option (Completion (CursorPaginationResult T) * W) :=
  match fuel with
  | O => None
  | S fuel =>
      match iteration opts st w with
      | (Abrupt e, w) => Some (Abrupt e, w)
      | (Normal (inl r), w) => Some (Normal r, w)
      | (Normal (inr st), w) => paginateLoop fuel opts st w
      end
  end.

(** Modelled from the spec: [getAllListTimeline] of [twitter-client-lists],
    as far as its pagination goes. *)
Definition getAllListTimeline (fuel : nat) (opts : Opts T W) (w : W)
    : option (Completion (CursorPaginationResult T) * W) :=
  paginateLoop fuel opts (initial opts) w.

End ListTimeline.

End Lists.

(** * The client: base class, engagement and posting mixins *)
Module Client.

(** ** Requests and responses *)

Inductive Method : Type := GET | POST.

(** Request targets. The URL constants of [twitter-client-constants] are kept
    symbolic: [OperationUrl q op qs] is
    [`${TWITTER_API_BASE}/${q}/${op}`], followed by [`?${qs}`] when the query
    string [qs] is not empty, [qs] listing the parameters that vary;
    [GraphqlPostUrl], [StatusUpdateUrl] and [MediaMetadataUrl] are the
    constants [TWITTER_GRAPHQL_POST_URL], [TWITTER_STATUS_UPDATE_URL] and
    [TWITTER_MEDIA_METADATA_URL]; [UploadUrl qs] is [TWITTER_UPLOAD_URL] with
    its query string; [UsersShowUrl base name] is
    [`${base}/1.1/users/show.json?screen_name=${encodeURIComponent(name)}`]. *)
Inductive Url : Type :=
  | OperationUrl (queryId operationName : string) (query : list (string * string))
  | GraphqlPostUrl
  | StatusUpdateUrl
  | UploadUrl (query : list (string * string))
  | MediaMetadataUrl
  | UsersShowUrl (base screenName : string).

(** The [variables] object of a [CreateTweet] request, as [tweet] and [reply]
    build it: [in_reply_to_tweet_id] is that field of [reply], when the key
    [reply] is there,
    [media_ids] the [media_id] of each entry of [media.media_entities]. *)
Record CreateTweetVariables : Type := {
  tweet_text : string;
  in_reply_to_tweet_id : option string;
  media_ids : list string;
}.

Inductive Variables : Type :=
  | CreateTweetVars (v : CreateTweetVariables)
  | EngagementVars (tweet_id : string).

(** Request bodies: [JSON.stringify({ variables, features, queryId })]
    ([features] is present for [CreateTweet] only); a form-encoded
    [URLSearchParams], listed in insertion order; the [FormData] of an upload
    chunk; [JSON.stringify({ media_id, alt_text: { text } })]. *)
Inductive Body : Type :=
  | NoBody
  | GraphqlBody (variables : Variables) (features : bool) (queryId : string)
  | FormBody (fields : list (string * string))
  | MultipartBody (fields : list (string * string)) (media : list Byte.byte)
  | AltTextBody (media_id alt_text : string).

(** The entries of the header object that are not constants. *)
Record Headers : Type := {
  x_csrf_token : string;
  x_client_uuid : string;
  x_twitter_client_deviceid : string;
  x_client_transaction_id : string;
  cookie : string;
  user_agent : string;
  x_twitter_client_user_id : option string;
  content_type : option string;
  referer : string;
}.

Record Request : Type := {
  url : Url;
  method : Method;
  headers : Headers;
  body : Body;
  signal : bool;  (* an [AbortController] signal is attached *)
}.

Record ApiError : Type := {
  message : string;
  code : option Z;
}.

(** What a JSON response body holds, at the types the client casts it to. *)
Record TimelineTweet : Type := {
  tl_id : string;
  tl_text : string;
  tl_createdAt : option string;
}.

(** [processing_info] of a media upload response; [error] is flattened into
    its [message] and [name]. *)
Record ProcessingInfo : Type := {
  pi_state : option string;
  pi_check_after_secs : option Z;
  pi_error_message : option string;
  pi_error_name : option string;
}.

(** [data.user.result] of a [UserByScreenName] response. *)
Record UserResult : Type := {
  ur_typename : option string;
  ur_rest_id : option string;
  ur_legacy_screen_name : option string;
  ur_legacy_name : option string;
  ur_core_screen_name : option string;
  ur_core_name : option string;
}.

Record AboutProfile : Type := {
  account_based_in : option string;
  source : option string;
  created_country_accurate : option bool;
  location_accurate : option bool;
  learn_more_url : option string;
}.

(** The body: the error list; the places a [CreateTweet] response may hold
    the new id ([data.create_tweet.tweet_results.result] with its [rest_id],
    [tweet.rest_id] and [legacy.id_str]); the fields of the REST responses
    ([statuses/update], [users/show]); the tweets of a [UserTweets]
    timeline; the fields of the upload responses; the user and the
    about-profile of the lookup responses; the value of a timeline's
    [Bottom] cursor entry. *)
Record ResponseBody : Type := {
  errors : option (list ApiError);
  result_rest_id : option string;
  result_tweet_rest_id : option string;
  result_legacy_id_str : option string;
  id_str : option string;
  id : option (string + Z);
  screen_name : option string;
  name : option string;
  timeline : list TimelineTweet;
  media_id_string : option string;
  media_id : option (string + Z);
  processing_info : option ProcessingInfo;
  user_result : option UserResult;
  about_profile : option AboutProfile;
  bottom_cursor : option string;
}.

(** A [Response]: [text()] and [json()] are promises, which may reject. *)
Record Response : Type := {
  status : Z;
  text : Completion string;
  json : Completion ResponseBody;
}.

(** [response.ok]: the status is in the range 200-299. *)
Definition ok (r : Response) : bool :=
  (200 <=? status r) && (status r <=? 299).

(** ** Results *)

(** [TweetResult]; the failure always carries its [error]. *)
Inductive TweetResult : Type :=
  | TweetOk (tweetId : string)
  | TweetFail (error : string).

(** [BookmarkMutationResult]. *)
Inductive BookmarkMutationResult : Type :=
  | MutationOk
  | MutationFail (error : string).

(** [UploadMediaResult]. *)
Inductive UploadMediaResult : Type :=
  | UploadOk (mediaId : string)
  | UploadFail (error : string).

(** [UserLookupResult]. *)
Inductive UserLookupResult : Type :=
  | LookupOk (userId username : string) (name : option string)
  | LookupFail (error : string).

(** [AboutAccountResult]. *)
Inductive AboutAccountResult : Type :=
  | AboutOk (aboutProfile : AboutProfile)
  | AboutFail (error : string).

(** [CurrentUserResult], as far as [ensureClientUserId] reads it:
    [result.success] and [result.user?.id]. *)
Record CurrentUserResult : Type := {
  cu_success : bool;
  cu_user_id : option string;
}.

(** ** The client instance and the world around it *)

Record Cookies : Type := {
  authToken : option string;
  ct0 : option string;
  cookieHeader : option string;
}.

Record TwitterClientOptions : Type := {
  cookies : Cookies;
  userAgent : option string;
  timeoutMs : option Z;
  quoteDepth : option Z;
}.

(** The fields of [TwitterClientBase]. *)
Record TwitterClientBase : Type := {
  this_authToken : string;
  this_ct0 : string;
  this_cookieHeader : string;
  this_userAgent : string;
  this_timeoutMs : option Z;
  this_quoteDepth : Z;
  this_clientUuid : string;
  this_clientDeviceId : string;
  this_clientUserId : option string;
}.

Definition DEFAULT_USER_AGENT : string :=
  "Mozilla/5.0 (Macintosh; Intel Mac OS X 10_15_7) AppleWebKit/537.36 (KHTML, like Gecko) Chrome/131.0.0.0 Safari/537.36".

(** [a || b] on optional strings. *)
Definition orElse (a : option string) (b : string) : string :=
  match a with
  | Some s => if String.eqb s "" then b else s
  | None => b
  end.

(** The constructor. [normalizeQuoteDepth] belongs to
    [twitter-client-utils]; [uuid1] and [uuid2] are what the two calls of
    [randomUUID()] return. An abrupt completion is the thrown [Error], by its
    message. *)
Definition constructor (normalizeQuoteDepth : option Z → Z) (uuid1 uuid2 : string)
    (options : TwitterClientOptions) : Completion TwitterClientBase :=
  if negb (truthy (authToken (cookies options)))
     || negb (truthy (ct0 (cookies options)))
  then Abrupt "Both authToken and ct0 cookies are required"
  else
    let a := default "" (authToken (cookies options)) in
    let c := default "" (ct0 (cookies options)) in
    Normal {|
      this_authToken := a;
      this_ct0 := c;
      this_cookieHeader :=
        orElse (cookieHeader (cookies options))
               ("auth_token=" +:+ a +:+ "; ct0=" +:+ c);
      this_userAgent := orElse (userAgent options) DEFAULT_USER_AGENT;
      this_timeoutMs := timeoutMs options;
      this_quoteDepth := normalizeQuoteDepth (quoteDepth options);
      this_clientUuid := uuid1;
      this_clientDeviceId := uuid2;
      this_clientUserId := None;
    |}.

(** What the client does to the outside, in order: calls of [fetch], calls of
    [refreshQueryIds] and calls of [sleep]. *)
Inductive Event : Type :=
  | EvFetch (r : Request)
  | EvRefreshQueryIds
  | EvSleep (ms : Z).

Inductive LogLevel : Type := INFO | WARN | ERROR | DEBUG.

(** The state an operation runs in: the instance, the live query-ID cache of
    [runtimeQueryIds], whether [process.env.NODE_ENV] is ['test'], and the
    events so far. *)
Record World : Type := {
  this : TwitterClientBase;
  runtimeQueryIds : gmap string string;
  nodeEnvTest : bool;
  trace : list Event;
}.

Definition requests (w : World) : list Request :=
  omap (λ e, match e with EvFetch r => Some r | _ => None end) (trace w).

(** ** Asynchronous code that may throw *)
Definition M (A : Type) : Type := World → Completion A * World.

Definition ret {A} (a : A) : M A := λ w, (Normal a, w).

Definition bind {A B} (m : M A) (k : A → M B) : M B :=
  λ w, match m w with
       | (Normal a, w') => k a w'
       | (Abrupt e, w') => (Abrupt e, w')
       end.

Notation "'let*' x ':=' m 'in' k" := (bind m (λ x, k))
  (at level 10, x name, m at level 100, k at level 200, only parsing).
Notation "m ';;' k" := (bind m (λ _, k))
  (at level 100, k at level 200, right associativity, only parsing).

(** [await p] for a promise that has settled to [c]. *)
Definition await {A} (c : Completion A) : M A := λ w, (c, w).

(** [try { m } catch (error) { handler(error) }]: effects made before the
    throw stay. *)
Definition tryCatch {A} (m : M A) (handler : string → M A) : M A :=
  λ w, match m w with
       | (Normal a, w') => (Normal a, w')
       | (Abrupt e, w') => handler e w'
       end.

Definition get : M World := λ w, (Normal w, w).

(** The world after one more event. *)
Definition after (e : Event) (w : World) : World :=
  {| this := this w; runtimeQueryIds := runtimeQueryIds w;
     nodeEnvTest := nodeEnvTest w; trace := trace w ++ [e] |}.

Definition emit (e : Event) : M unit := λ w, (Normal tt, after e w).

(** [logger.info] and the like. The log file is outside the model: [log]
    appends a line to it and swallows any failure to do so. *)
Definition logger (level : LogLevel) (msg : string) : M unit := ret tt.

Definition setRuntimeQueryIds (ids : gmap string string) : M unit :=
  λ w, (Normal tt, {| this := this w; runtimeQueryIds := ids;
                      nodeEnvTest := nodeEnvTest w; trace := trace w |}).

Definition setClientUserId (id : string) : M unit :=
  λ w, (Normal tt,
        {| this := {| this_authToken := this_authToken (this w);
                      this_ct0 := this_ct0 (this w);
                      this_cookieHeader := this_cookieHeader (this w);
                      this_userAgent := this_userAgent (this w);
                      this_timeoutMs := this_timeoutMs (this w);
                      this_quoteDepth := this_quoteDepth (this w);
                      this_clientUuid := this_clientUuid (this w);
                      this_clientDeviceId := this_clientDeviceId (this w);
                      this_clientUserId := Some id |};
           runtimeQueryIds := runtimeQueryIds w;
           nodeEnvTest := nodeEnvTest w; trace := trace w |}).

(** ** What the client is run against

    The parts of the program and of its surroundings that lie outside the
    modelled files. *)
Class Env : Type := {
  (** the network: what [fetch] gives for a request, after the events so far;
      an abrupt completion is a transport error or a timeout abort *)
  net : list Event → Request → Completion Response;
  (** the baked-in table [QUERY_IDS] of [twitter-client-constants] *)
  QUERY_IDS : string → string;
  (** [runtimeQueryIds.refresh(TARGET_QUERY_ID_OPERATIONS, { force: true })]:
      the refreshed cache, or a thrown error *)
  refresh : gmap string string → Completion (gmap string string);
  (** the abstract method [getCurrentUser] *)
  getCurrentUser : M CurrentUserResult;
  (** [randomBytes(16).toString('hex')] *)
  randomHex : list Event → string;
  (** [Date.now()] *)
  DateNow : list Event → Z;
  (** [new Date(s).getTime()] *)
  DateGetTime : string → Z;
  (** [normalizeText] of [verifyTweetByFetching]: short links removed,
      trimmed, lower-cased *)
  normalizeText : string → string;
  (** [normalizeHandle] of [normalize-handle]: the bare handle, or [null] *)
  normalizeHandle : string → option string;
}.

Section Operations.
Context `{Env}.

(** *** [TwitterClientBase] *)

Definition sleep (ms : Z) : M unit := emit (EvSleep ms).

(** Modelled from the spec: [runtimeQueryIds.getQueryId] of
    [runtime-query-ids], which is not among the sources. It looks the
    operation up in the process-wide live cache and changes nothing. *)
Definition runtimeQueryIds_getQueryId (operationName : string)
    : M (option string) :=
  λ w, (Normal (runtimeQueryIds w !! operationName), w).

Definition getQueryId (operationName : string) : M string :=
  let* cached := runtimeQueryIds_getQueryId operationName in
  ret (default (QUERY_IDS operationName) cached).

Definition refreshQueryIds : M unit :=
  emit EvRefreshQueryIds ;;
  let* w := get in
  if nodeEnvTest w then ret tt
  else
    tryCatch
      (let* ids := await (refresh (runtimeQueryIds w)) in
       setRuntimeQueryIds ids)
      (λ _, ret tt).

(** Both branches of [fetchWithTimeout] come down to one call of [fetch];
    with a positive [timeoutMs] the request carries an abort signal.
    [requestOf w ...] is the request as it leaves in world [w]. *)
Definition requestOf (w : World) (url : Url) (method : Method)
    (headers : Headers) (body : Body) : Request :=
  {| url := url; method := method; headers := headers; body := body;
     signal := match this_timeoutMs (this w) with
               | Some ms => negb (ms =? 0) && negb (ms <=? 0)
               | None => false
               end |}.

Definition fetchWithTimeout (url : Url) (method : Method) (headers : Headers)
    (body : Body) : M Response :=
  let* w := get in
  let request := requestOf w url method headers body in
  emit (EvFetch request) ;;
  await (net (trace w) request).

Definition baseHeadersOf (w : World) : Headers :=
  {| x_csrf_token := this_ct0 (this w);
     x_client_uuid := this_clientUuid (this w);
     x_twitter_client_deviceid := this_clientDeviceId (this w);
     x_client_transaction_id := randomHex (trace w);
     cookie := this_cookieHeader (this w);
     user_agent := this_userAgent (this w);
     x_twitter_client_user_id :=
       if truthy (this_clientUserId (this w))
       then this_clientUserId (this w) else None;
     content_type := None;
     referer := "https://x.com/" |}.

Definition getBaseHeaders : M Headers :=
  let* w := get in ret (baseHeadersOf w).

Definition withContentType (ct : string) (h : Headers) : Headers :=
  {| x_csrf_token := x_csrf_token h;
     x_client_uuid := x_client_uuid h;
     x_twitter_client_deviceid := x_twitter_client_deviceid h;
     x_client_transaction_id := x_client_transaction_id h;
     cookie := cookie h;
     user_agent := user_agent h;
     x_twitter_client_user_id := x_twitter_client_user_id h;
     content_type := Some ct;
     referer := referer h |}.

Definition withReferer (r : string) (h : Headers) : Headers :=
  {| x_csrf_token := x_csrf_token h;
     x_client_uuid := x_client_uuid h;
     x_twitter_client_deviceid := x_twitter_client_deviceid h;
     x_client_transaction_id := x_client_transaction_id h;
     cookie := cookie h;
     user_agent := user_agent h;
     x_twitter_client_user_id := x_twitter_client_user_id h;
     content_type := content_type h;
     referer := r |}.

Definition getJsonHeaders : M Headers :=
  let* h := getBaseHeaders in
  ret (withContentType "application/json" h).

Definition getHeaders : M Headers := getJsonHeaders.

Definition ensureClientUserId : M unit :=
  let* w := get in
  if nodeEnvTest w then ret tt
  else if truthy (this_clientUserId (this w)) then ret tt
  else
    let* result := getCurrentUser in
    if cu_success result && truthy (cu_user_id result)
    then setClientUserId (default "" (cu_user_id result))
    else ret tt.

(** [`HTTP ${response.status}: ${text.slice(0, 200)}`]. A text stands for a
    string of characters of one code unit each, so that its first 200 code
    units are its first 200 characters. *)
Definition httpError (response : Response) (text : string) : string :=
  "HTTP " +:+ pretty (status response) +:+ ": " +:+ String.substring 0 200 text.

(** *** The engagement mixin *)

Definition parseResponse (response : Response) : M BookmarkMutationResult :=
  if negb (ok response) then
    let* text := await (text response) in
    ret (MutationFail (httpError response text))
  else
    let* data := await (json response) in
    match errors data with
    | Some (e :: es) =>
        ret (MutationFail (String.concat ", " (message <$> e :: es)))
    | _ => ret MutationOk
    end.

(** The two [return parseResponse(...)] of the [try] block hand the promise
    of [parseResponse] back without awaiting it: the [try] block is left when
    the promise is made, and the promise of the method settles as that one
    does. So the [catch] covers the attempts, and a rejection of
    [response.text()] or [response.json()] is not caught. [inr response]
    stands for leaving the [try] block by such a [return]. *)
Definition performEngagementMutation (operationName tweetId : string)
    : M BookmarkMutationResult :=
  let variables := EngagementVars tweetId in
  let* queryId := getQueryId operationName in
  let urlWithOperation := OperationUrl queryId operationName [] in
  let buildBody queryId := GraphqlBody variables false queryId in
  let buildHeaders :=
    let* h := getHeaders in
    ret (withReferer ("https://x.com/i/status/" +:+ tweetId) h) in
  let body := buildBody queryId in
  let* tried :=
    tryCatch
      (let* headers := buildHeaders in
       let* response := fetchWithTimeout urlWithOperation POST headers body in
       if status response =? 404 then
         refreshQueryIds ;;
         let* queryId := getQueryId operationName in
         let urlWithOperation := OperationUrl queryId operationName [] in
         let body := buildBody queryId in
         let* headers := buildHeaders in
         let* response := fetchWithTimeout urlWithOperation POST headers body in
         if status response =? 404 then
           let* headers := buildHeaders in
           let* retry := fetchWithTimeout GraphqlPostUrl POST headers body in
           ret (inr retry)
         else ret (inr response)
       else ret (inr response))
      (λ error, ret (inl (MutationFail error))) in
  match tried with
  | inl result => ret result
  | inr response => parseResponse response
  end.

Definition like (tweetId : string) : M BookmarkMutationResult :=
  performEngagementMutation "FavoriteTweet" tweetId.
Definition unlike (tweetId : string) : M BookmarkMutationResult :=
  performEngagementMutation "UnfavoriteTweet" tweetId.
Definition retweet (tweetId : string) : M BookmarkMutationResult :=
  performEngagementMutation "CreateRetweet" tweetId.
Definition unretweet (tweetId : string) : M BookmarkMutationResult :=
  performEngagementMutation "DeleteRetweet" tweetId.
Definition bookmark (tweetId : string) : M BookmarkMutationResult :=
  performEngagementMutation "CreateBookmark" tweetId.

(** *** The posting mixin *)

Definition NOT_FOUND_AFTER_POSTING : string :=
  "Tweet not found after posting - may have been filtered or failed silently".

Definition formatError (error : ApiError) : string :=
  match code error with
  | Some c => message error +:+ " (" +:+ pretty c +:+ ")"
  | None => message error
  end.

Definition formatErrors (errors : list ApiError) : string :=
  String.concat ", " (formatError <$> errors).

Record StatusUpdateInput : Type := {
  su_text : string;
  su_inReplyToTweetId : option string;
  su_mediaIds : option (list string);
}.

Definition statusUpdateInputFromCreateTweetVariables
    (variables : CreateTweetVariables) : option StatusUpdateInput :=
  let text := tweet_text variables in
  if String.eqb text "" then None
  else
    let mediaIds := media_ids variables in
    Some {| su_text := text;
            su_inReplyToTweetId := in_reply_to_tweet_id variables;
            su_mediaIds :=
              if (0 <? Z.of_nat (length mediaIds)) then Some mediaIds
              else None |}.

Definition statusUpdateParams (input : StatusUpdateInput)
    : list (string * string) :=
  [("status", su_text input)]
  ++ (if truthy (su_inReplyToTweetId input)
      then [("in_reply_to_status_id", default "" (su_inReplyToTweetId input));
            ("auto_populate_reply_metadata", "true")]
      else [])
  ++ (match su_mediaIds input with
      | Some (i :: ids) => [("media_ids", String.concat "," (i :: ids))]
      | _ => []
      end).

(** [String(data.id)] for [id : string | number]. A number stands for an
    integer that a JavaScript number holds exactly (below 2^53), which
    [String] prints by its decimal digits. *)
Definition idToString (i : string + Z) : string :=
  match i with inl s => s | inr n => pretty n end.

Definition postStatusUpdate (input : StatusUpdateInput) : M TweetResult :=
  let params := statusUpdateParams input in
  tryCatch
    (let* base := getBaseHeaders in
     let headers :=
       withReferer "https://x.com/compose/post"
         (withContentType "application/x-www-form-urlencoded" base) in
     let* response :=
       fetchWithTimeout StatusUpdateUrl POST headers (FormBody params) in
     if negb (ok response) then
       let* text := await (text response) in
       ret (TweetFail (httpError response text))
     else
       let* data := await (json response) in
       match errors data with
       | Some (e :: es) => ret (TweetFail (formatErrors (e :: es)))
       | _ =>
           let tweetId :=
             match id_str data with
             | Some s => Some s
             | None => idToString <$> id data
             end in
           if truthy tweetId then ret (TweetOk (default "" tweetId))
           else ret (TweetFail NOT_FOUND_AFTER_POSTING)
       end)
    (λ error, ret (TweetFail error)).

Definition has226 (errors : list ApiError) : bool :=
  existsb (λ error, bool_decide (code error = Some 226)) errors.

Definition tryStatusUpdateFallback (errors : list ApiError)
    (variables : CreateTweetVariables) : M (option TweetResult) :=
  if negb (has226 errors) then
    logger DEBUG "No 226 error, skipping fallback" ;;
    ret None
  else
    logger WARN "Error 226 detected, attempting statuses/update fallback" ;;
    match statusUpdateInputFromCreateTweetVariables variables with
    | None =>
        logger ERROR "Could not convert variables for fallback" ;;
        ret None
    | Some input =>
        let* fallback := postStatusUpdate input in
        match fallback with
        | TweetOk _ =>
            logger INFO "Fallback to statuses/update succeeded" ;;
            ret (Some fallback)
        | TweetFail error =>
            logger ERROR "Fallback to statuses/update also failed" ;;
            ret (Some (TweetFail
              (formatErrors errors +:+ " | fallback: " +:+ error)))
        end
    end.

Definition extractTweetIdFromResponse (data : ResponseBody) : option string :=
  if truthy (result_rest_id data) then result_rest_id data
  else if truthy (result_tweet_rest_id data) then result_tweet_rest_id data
  else if truthy (result_legacy_id_str data) then result_legacy_id_str data
  else None.

(** The closure [findMatch] of [verifyTweetByFetching]. *)
Fixpoint findMatch (oneMinuteAgo : Z) (normalizedExpected : string)
    (tweetList : list TimelineTweet) : option string :=
  match tweetList with
  | [] => None
  | tweet :: rest =>
      let tweetTime :=
        if truthy (tl_createdAt tweet)
        then DateGetTime (default "" (tl_createdAt tweet)) else 0 in
      if tweetTime <? oneMinuteAgo
      then findMatch oneMinuteAgo normalizedExpected rest
      else
        let normalizedTweet := normalizeText (tl_text tweet) in
        if String.prefix normalizedExpected normalizedTweet
           || String.prefix normalizedTweet normalizedExpected
        then Some (tl_id tweet)
        else findMatch oneMinuteAgo normalizedExpected rest
  end.

(** [parseTweetsFromInstructions] is not among the sources: the [timeline]
    of a body stands for what it makes of the body's instructions. *)
Definition verifyTweetByFetching (expectedText : string) : M (option string) :=
  let* w := get in
  if negb (truthy (this_clientUserId (this w))) then ret None
  else
    tryCatch
      (sleep 1500 ;;
       let* queryId := getQueryId "UserTweets" in
       let url :=
         OperationUrl queryId "UserTweets"
           [("userId", default "" (this_clientUserId (this w)));
            ("count", "5")] in
       let* headers := getHeaders in
       let* response := fetchWithTimeout url GET headers NoBody in
       if negb (ok response) then ret None
       else
         let* data := await (json response) in
         let tweets := timeline data in
         let normalizedExpected := normalizeText expectedText in
         let* w := get in
         let oneMinuteAgo := DateNow (trace w) - 60000 in
         let firstMatch := findMatch oneMinuteAgo normalizedExpected tweets in
         if truthy firstMatch then ret firstMatch
         else
           sleep 1500 ;;
           let* headers := getHeaders in
           let* retryResponse := fetchWithTimeout url GET headers NoBody in
           if ok retryResponse then
             let* retryData := await (json retryResponse) in
             let retryMatch :=
               findMatch oneMinuteAgo normalizedExpected (timeline retryData) in
             if truthy retryMatch then ret retryMatch else ret None
           else ret None)
      (λ _, ret None).

(** What [createTweet] does with a response once no further 404 retry is
    due. The source has this code twice, after the generic-endpoint attempt
    and after the operation-URL attempts; the second copy also writes log
    lines ([logged]). *)
Definition settle (logged : bool) (variables : CreateTweetVariables)
    (response : Response) : M TweetResult :=
  let log level msg := if logged then logger level msg else ret tt in
  if negb (ok response) then
    let* text := await (text response) in
    ret (TweetFail (httpError response text))
  else
    let* data := await (json response) in
    match errors data with
    | Some (e :: es) =>
        log WARN "GraphQL returned errors" ;;
        let* fallback := tryStatusUpdateFallback (e :: es) variables in
        match fallback with
        | Some fallback => log INFO "Fallback result" ;; ret fallback
        | None =>
            log ERROR "Tweet failed (no fallback)" ;;
            ret (TweetFail (formatErrors (e :: es)))
        end
    | _ =>
        let tweetId := extractTweetIdFromResponse data in
        if truthy tweetId then
          log INFO "Tweet success" ;;
          ret (TweetOk (default "" tweetId))
        else
          let* verifiedId :=
            if String.eqb (tweet_text variables) "" then ret None
            else verifyTweetByFetching (tweet_text variables) in
          if truthy verifiedId then ret (TweetOk (default "" verifiedId))
          else ret (TweetFail NOT_FOUND_AFTER_POSTING)
    end.

Definition composeHeaders : M Headers :=
  let* h := getHeaders in
  ret (withReferer "https://x.com/compose/post" h).

Definition createTweet (variables : CreateTweetVariables) : M TweetResult :=
  logger INFO "createTweet started" ;;
  ensureClientUserId ;;
  let* queryId := getQueryId "CreateTweet" in
  let urlWithOperation := OperationUrl queryId "CreateTweet" [] in
  let buildBody queryId := GraphqlBody (CreateTweetVars variables) true queryId in
  let body := buildBody queryId in
  tryCatch
    (let* headers := composeHeaders in
     logger DEBUG "Attempting primary GraphQL endpoint" ;;
     let* response := fetchWithTimeout urlWithOperation POST headers body in
     logger DEBUG "Primary endpoint response" ;;
     if status response =? 404 then
       logger WARN "Got 404, refreshing queryIds and retrying" ;;
       refreshQueryIds ;;
       let* queryId := getQueryId "CreateTweet" in
       let urlWithOperation := OperationUrl queryId "CreateTweet" [] in
       let body := buildBody queryId in
       let* headers := composeHeaders in
       let* response := fetchWithTimeout urlWithOperation POST headers body in
       if status response =? 404 then
         let* headers := composeHeaders in
         let* retry := fetchWithTimeout GraphqlPostUrl POST headers body in
         settle false variables retry
       else settle true variables response
     else settle true variables response)
    (λ error, ret (TweetFail error)).

Definition tweet (text : string) (mediaIds : option (list string))
    : M TweetResult :=
  createTweet {| tweet_text := text; in_reply_to_tweet_id := None;
                 media_ids := default [] mediaIds |}.

Definition reply (text replyToTweetId : string)
    (mediaIds : option (list string)) : M TweetResult :=
  createTweet {| tweet_text := text; in_reply_to_tweet_id := Some replyToTweetId;
                 media_ids := default [] mediaIds |}.

(** *** The media mixin *)

Record UploadInput : Type := {
  data : list Byte.byte;
  mimeType : string;
  alt : option string;
}.

Definition mediaCategoryForMime (mimeType : string) : option string :=
  if String.prefix "image/" mimeType then
    if String.eqb mimeType "image/gif" then Some "tweet_gif"
    else Some "tweet_image"
  else if String.prefix "video/" mimeType then Some "tweet_video"
  else None.

Definition getUploadHeaders : M Headers := getBaseHeaders.

Definition chunkSize : Z := 5 * 1024 * 1024.

(** [data.slice(start, stop)] *)
Fixpoint sliceFrom (i start stop : Z) (bytes : list Byte.byte)
    : list Byte.byte :=
  match bytes with
  | [] => []
  | b :: rest =>
      if (start <=? i) && (i <? stop)
      then b :: sliceFrom (i + 1) start stop rest
      else sliceFrom (i + 1) start stop rest
  end.

Definition slice (bytes : list Byte.byte) (start stop : Z) : list Byte.byte :=
  sliceFrom 0 start stop bytes.

(** The [for (let offset = 0; offset < byteLength; offset += chunkSize)] loop
    of APPEND requests; [Some r] is an early [return r]. Every turn moves
    [offset] on by [chunkSize], so one turn per byte and one more is fuel
    enough. *)
Fixpoint appendChunks (fuel : nat) (input : UploadInput) (mediaId : string)
    (offset segmentIndex : Z) : M (option UploadMediaResult) :=
  match fuel with
  | O => ret None
  | S fuel =>
      let byteLength := Z.of_nat (length (data input)) in
      if offset <? byteLength then
        let chunk :=
          slice (data input) offset (Z.min byteLength (offset + chunkSize)) in
        let form :=
          MultipartBody [("command", "APPEND"); ("media_id", mediaId);
                         ("segment_index", pretty segmentIndex)] chunk in
        let* headers := getUploadHeaders in
        let* appendResp := fetchWithTimeout (UploadUrl []) POST headers form in
        if negb (ok appendResp) then
          let* text := await (text appendResp) in
          ret (Some (UploadFail (httpError appendResp text)))
        else appendChunks fuel input mediaId (offset + chunkSize)
               (segmentIndex + 1)
      else ret None
  end.

(** The [while (attempts < 20)] loop of STATUS polls, by the attempts that
    remain; [Some r] is an early [return r], [None] a [break] or the end of
    the loop. *)
Fixpoint pollProcessing (remaining : nat) (mediaId : string)
    (info : ProcessingInfo) : M (option UploadMediaResult) :=
  match remaining with
  | O => ret None
  | S remaining =>
      if bool_decide (pi_state info = Some "failed") then
        ret (Some (UploadFail
          (orElse (pi_error_message info)
             (orElse (pi_error_name info) "Media processing failed"))))
      else
        let delaySecs :=
          match pi_check_after_secs info with
          | Some secs => Z.max 1 secs
          | None => 2
          end in
        sleep (delaySecs * 1000) ;;
        let statusUrl := UploadUrl [("command", "STATUS"); ("media_id", mediaId)] in
        let* headers := getUploadHeaders in
        let* statusResp := fetchWithTimeout statusUrl GET headers NoBody in
        if negb (ok statusResp) then
          let* text := await (text statusResp) in
          ret (Some (UploadFail (httpError statusResp text)))
        else
          let* statusBody := await (json statusResp) in
          match processing_info statusBody with
          | None => ret None
          | Some update =>
              if bool_decide (pi_state update = Some "succeeded") then ret None
              else pollProcessing remaining mediaId update
          end
  end.

Definition uploadMedia (input : UploadInput) : M UploadMediaResult :=
  match mediaCategoryForMime (mimeType input) with
  | None => ret (UploadFail ("Unsupported media type: " +:+ mimeType input))
  | Some category =>
      tryCatch
        (let initParams :=
           FormBody [("command", "INIT");
                     ("total_bytes", pretty (Z.of_nat (length (data input))));
                     ("media_type", mimeType input);
                     ("media_category", category)] in
         let* headers := getUploadHeaders in
         let* initResp := fetchWithTimeout (UploadUrl []) POST headers initParams in
         if negb (ok initResp) then
           let* text := await (text initResp) in
           ret (UploadFail (httpError initResp text))
         else
           let* initBody := await (json initResp) in
           let mediaId :=
             match media_id_string initBody with
             | Some s => Some s
             | None => idToString <$> media_id initBody
             end in
           if negb (truthy mediaId) then
             ret (UploadFail "Media upload INIT did not return media_id")
           else
             let mediaId := default "" mediaId in
             let* appended :=
               appendChunks (S (length (data input))) input mediaId 0 0 in
             match appended with
             | Some result => ret result
             | None =>
                 let finalizeParams :=
                   FormBody [("command", "FINALIZE"); ("media_id", mediaId)] in
                 let* headers := getUploadHeaders in
                 let* finalizeResp :=
                   fetchWithTimeout (UploadUrl []) POST headers finalizeParams in
                 if negb (ok finalizeResp) then
                   let* text := await (text finalizeResp) in
                   ret (UploadFail (httpError finalizeResp text))
                 else
                   let* finalizeBody := await (json finalizeResp) in
                   let* polled :=
                     match processing_info finalizeBody with
                     | Some info =>
                         if truthy (pi_state info)
                            && negb (bool_decide (pi_state info = Some "succeeded"))
                         then pollProcessing 20 mediaId info
                         else ret None
                     | None => ret None
                     end in
                   match polled with
                   | Some result => ret result
                   | None =>
                       if truthy (alt input)
                          && String.prefix "image/" (mimeType input)
                       then
                         let* headers := getJsonHeaders in
                         let* metaResp :=
                           fetchWithTimeout MediaMetadataUrl POST headers
                             (AltTextBody mediaId (default "" (alt input))) in
                         if negb (ok metaResp) then
                           let* text := await (text metaResp) in
                           ret (UploadFail (httpError metaResp text))
                         else ret (UploadOk mediaId)
                       else ret (UploadOk mediaId)
                   end
             end)
        (λ error, ret (UploadFail error))
  end.

(** *** The user lookup mixin *)

(** [a ?? b] *)
Definition orUndefined {A} (a b : option A) : option A :=
  match a with Some x => Some x | None => b end.

(** [hay.includes(needle)] *)
Definition includes (needle hay : string) : bool :=
  match String.index 0 needle hay with Some _ => true | None => false end.

(** One turn of the loop over the query IDs of [UserByScreenName]: [inl r]
    is [return r], [inr e] leaves [e] in [lastError] and goes on to the next
    query ID. *)
Definition userByScreenNameAttempt (screenName queryId : string)
    : M (UserLookupResult + string) :=
  let url := OperationUrl queryId "UserByScreenName"
               [("screen_name", screenName)] in
  tryCatch
    (let* headers := getHeaders in
     let* response := fetchWithTimeout url GET headers NoBody in
     if negb (ok response) then
       let* text := await (text response) in
       if status response =? 404
       then ret (inr ("HTTP " +:+ pretty (status response)))
       else ret (inr (httpError response text))
     else
       let* data := await (json response) in
       let userResult := user_result data in
       if bool_decide (userResult ≫= ur_typename = Some "UserUnavailable") then
         ret (inl (LookupFail
           ("User @" +:+ screenName +:+ " not found or unavailable")))
       else
         let userId := userResult ≫= ur_rest_id in
         let username :=
           orUndefined (userResult ≫= ur_legacy_screen_name)
                       (userResult ≫= ur_core_screen_name) in
         let name :=
           orUndefined (userResult ≫= ur_legacy_name)
                       (userResult ≫= ur_core_name) in
         if truthy userId && truthy username then
           ret (inl (LookupOk (default "" userId) (default "" username) name))
         else
           match errors data with
           | Some (e :: es) =>
               ret (inr (String.concat ", " (message <$> e :: es)))
           | _ => ret (inr "Could not parse user data from response")
           end)
    (λ error, ret (inr error)).

Fixpoint userByScreenNameLoop (queryIds : list string) (screenName : string)
    (lastError : option string) : M UserLookupResult :=
  match queryIds with
  | [] => ret (LookupFail (default "Unknown error looking up user" lastError))
  | queryId :: rest =>
      let* turn := userByScreenNameAttempt screenName queryId in
      match turn with
      | inl result => ret result
      | inr error => userByScreenNameLoop rest screenName (Some error)
      end
  end.

Definition getUserByScreenNameGraphQL (screenName : string)
    : M UserLookupResult :=
  userByScreenNameLoop
    ["xc8f1g7BYqr6VTzTbvNlGw"; "qW5u-DAuXpMEG0zA1F7UGQ";
     "sLVLhk0bGj3MVFEKTdax1w"]
    screenName None.

(** [data.id ? String(data.id) : null] *)
Definition idIfTruthy (i : option (string + Z)) : option string :=
  match i with
  | Some (inl s) => if String.eqb s "" then None else Some s
  | Some (inr n) => if n =? 0 then None else Some (pretty n)
  | None => None
  end.

(** One turn of the loop over the REST URLs. *)
Definition usersShowAttempt (cleanUsername : string) (url : Url)
    : M (UserLookupResult + string) :=
  tryCatch
    (let* headers := getHeaders in
     let* response := fetchWithTimeout url GET headers NoBody in
     if negb (ok response) then
       let* text := await (text response) in
       if status response =? 404
       then ret (inl (LookupFail ("User @" +:+ cleanUsername +:+ " not found")))
       else ret (inr (httpError response text))
     else
       let* data := await (json response) in
       let userId := orUndefined (id_str data) (idIfTruthy (id data)) in
       if negb (truthy userId) then
         ret (inr "Could not parse user ID from response")
       else
         ret (inl (LookupOk (default "" userId)
                     (default cleanUsername (screen_name data)) (name data))))
    (λ error, ret (inr error)).

Fixpoint usersShowLoop (urls : list Url) (cleanUsername : string)
    (lastError : option string) : M UserLookupResult :=
  match urls with
  | [] => ret (LookupFail (default "Unknown error looking up user" lastError))
  | url :: rest =>
      let* turn := usersShowAttempt cleanUsername url in
      match turn with
      | inl result => ret result
      | inr error => usersShowLoop rest cleanUsername (Some error)
      end
  end.

Definition getUserIdByUsername (username : string) : M UserLookupResult :=
  let cleanUsername := normalizeHandle username in
  if negb (truthy cleanUsername) then
    ret (LookupFail ("Invalid username: " +:+ username))
  else
    let cleanUsername := default "" cleanUsername in
    let* graphqlResult := getUserByScreenNameGraphQL cleanUsername in
    match graphqlResult with
    | LookupOk _ _ _ => ret graphqlResult
    | LookupFail error =>
        if includes "not found or unavailable" error then ret graphqlResult
        else
          usersShowLoop
            [UsersShowUrl "https://x.com/i/api" cleanUsername;
             UsersShowUrl "https://api.twitter.com" cleanUsername]
            cleanUsername (Some error)
    end.

(** [Array.from(new Set([primary, 'zs_jFPFT78rBpXv9Z3U2YQ']))] *)
Definition getAboutAccountQueryIds : M (list string) :=
  let* primary := getQueryId "AboutAccountQuery" in
  ret (if String.eqb primary "zs_jFPFT78rBpXv9Z3U2YQ" then [primary]
       else [primary; "zs_jFPFT78rBpXv9Z3U2YQ"]).

(** One turn of the loop of [tryOnce]: [inl p] is a successful [return],
    [inr (e, b)] leaves [e] in [lastError] and tells whether the turn saw a
    404. *)
Definition aboutAccountAttempt (cleanUsername queryId : string)
    : M (AboutProfile + string * bool) :=
  let url := OperationUrl queryId "AboutAccountQuery"
               [("screenName", cleanUsername)] in
  tryCatch
    (let* headers := getHeaders in
     let* response := fetchWithTimeout url GET headers NoBody in
     if negb (ok response) then
       let* text := await (text response) in
       if status response =? 404
       then ret (inr ("HTTP " +:+ pretty (status response), true))
       else ret (inr (httpError response text, false))
     else
       let* data := await (json response) in
       match errors data with
       | Some (e :: es) =>
           ret (inr (String.concat ", " (message <$> e :: es), false))
       | _ =>
           match about_profile data with
           | None => ret (inr ("Missing about_profile in response", false))
           | Some aboutProfile => ret (inl aboutProfile)
           end
       end)
    (λ error, ret (inr (error, false))).

(** The result of [tryOnce], with its [had404] flag. *)
Fixpoint aboutAccountLoop (queryIds : list string) (cleanUsername : string)
    (lastError : option string) (had404 : bool)
    : M (AboutAccountResult * bool) :=
  match queryIds with
  | [] =>
      ret (AboutFail
             (default "Unknown error fetching account details" lastError),
           had404)
  | queryId :: rest =>
      let* turn := aboutAccountAttempt cleanUsername queryId in
      match turn with
      | inl aboutProfile => ret (AboutOk aboutProfile, had404)
      | inr (error, saw404) =>
          aboutAccountLoop rest cleanUsername (Some error) (had404 || saw404)
      end
  end.

Definition isAboutOk (r : AboutAccountResult) : bool :=
  match r with AboutOk _ => true | AboutFail _ => false end.

(** Modelled from the spec: [withRefreshedQueryIdsOn404], which is not among
    the sources. On HTTP 404 the query IDs are force-refreshed and the
    attempt is made once more; its result is then final. *)
Definition withRefreshedQueryIdsOn404 (attempt : M (AboutAccountResult * bool))
    : M AboutAccountResult :=
  let* first := attempt in
  if isAboutOk first.1 || negb first.2 then ret first.1
  else
    refreshQueryIds ;;
    let* second := attempt in
    ret second.1.

Definition getUserAboutAccount (username : string) : M AboutAccountResult :=
  let cleanUsername := normalizeHandle username in
  if negb (truthy cleanUsername) then
    ret (AboutFail ("Invalid username: " +:+ username))
  else
    let cleanUsername := default "" cleanUsername in
    let tryOnce :=
      let* queryIds := getAboutAccountQueryIds in
      aboutAccountLoop queryIds cleanUsername None false in
    let* result := withRefreshedQueryIdsOn404 tryOnce in
    match result with
    | AboutOk aboutProfile => ret (AboutOk aboutProfile)
    | AboutFail error => ret (AboutFail error)
    end.

(** *** Paginated reads *)

(** Modelled from the spec: the [fetchPage] closure of a paginated read (the
    timeline, list, bookmark and follow mixins are not among the sources).
    It performs one request through the executor, turns a thrown error, an
    HTTP error status or an API-level error list into a failed page, and
    otherwise gives the parsed items with the value of the [Bottom] cursor. *)
Definition fetchTimelinePage (operationName : string) (cursor : option string)
    : M (Paginator.CursorPage TimelineTweet) :=
  tryCatch
    (let* queryId := getQueryId operationName in
     let url :=
       OperationUrl queryId operationName
         (match cursor with Some c => [("cursor", c)] | None => [] end) in
     let* headers := getHeaders in
     let* response := fetchWithTimeout url GET headers NoBody in
     if negb (ok response) then
       let* text := await (text response) in
       ret (Paginator.PageErr (httpError response text))
     else
       let* data := await (json response) in
       match errors data with
       | Some (e :: es) =>
           ret (Paginator.PageErr (String.concat ", " (message <$> e :: es)))
       | _ => ret (Paginator.PageOk (timeline data) (bottom_cursor data))
       end)
    (λ error, ret (Paginator.PageErr error)).

(** Modelled from the spec: a paginated read, [paginateCursor] driven by that
    closure, with the tweet id as identity key and the client's [sleep]. *)
Definition getAllTimeline (operationName : string) (cursor : option string)
    (maxPages pageDelayMs : option Z) (fuel : nat) (w : World)
    : option (Completion (Paginator.CursorPaginationResult TimelineTweet)
              * World) :=
  Paginator.paginateCursor fuel
    {| Paginator.cursor := cursor;
       Paginator.maxPages := maxPages;
       Paginator.pageDelayMs := pageDelayMs;
       Paginator.sleep := λ ms w, (sleep ms w).2;
       Paginator.getKey := tl_id;
       Paginator.fetchPage := fetchTimelinePage operationName |} w.

(** *** The retry/recovery policy, as the specification words it

    The requests the write path sends, by the world they leave in. *)
Definition sent (r : Request) (w : World) : World := after (EvFetch r) w.

Definition refreshed (w : World) : World := (refreshQueryIds w).2.

(** The identifier an operation resolves to in world [w]: the live cache's
    entry, or else the baked-in default. *)
Definition resolved (w : World) (operationName : string) : string :=
  default (QUERY_IDS operationName) (runtimeQueryIds w !! operationName).

Definition jsonHeadersOf (w : World) : Headers :=
  withContentType "application/json" (baseHeadersOf w).

Definition mutationRequest (tweetId : string) (w : World) (target : Url)
    (queryId : string) : Request :=
  requestOf w target POST
    (withReferer ("https://x.com/i/status/" +:+ tweetId) (jsonHeadersOf w))
    (GraphqlBody (EngagementVars tweetId) false queryId).

Definition createRequest (variables : CreateTweetVariables) (w : World)
    (target : Url) (queryId : string) : Request :=
  requestOf w target POST
    (withReferer "https://x.com/compose/post" (jsonHeadersOf w))
    (GraphqlBody (CreateTweetVars variables) true queryId).

Definition statusUpdateRequest (input : StatusUpdateInput) (w : World)
    : Request :=
  requestOf w StatusUpdateUrl POST
    (withReferer "https://x.com/compose/post"
       (withContentType "application/x-www-form-urlencoded" (baseHeadersOf w)))
    (FormBody (statusUpdateParams input)).

Definition is404 (c : Completion Response) : bool :=
  match c with
  | Normal response => status response =? 404
  | Abrupt _ => false
  end.

(** The state machine of a logical request. Attempt 1 goes to the operation's
    own URL, under the identifier resolved at the start. On HTTP 404,
    attempt 2: the query IDs are force-refreshed, the identifier resolved
    again, URL and body rebuilt, the request retried. On HTTP 404 again,
    attempt 3 goes to the generic endpoint with the same body, and whatever
    it gives is final. The policy gives the events of the attempts, what the
    last attempt came to, and the world it leaves. *)
Definition recoveryPolicy (mk : World → Url → string → Request)
    (operationName : string) (w : World)
    : list Event * Completion Response * World :=
  let q1 := resolved w operationName in
  let r1 := mk w (OperationUrl q1 operationName []) q1 in
  let c1 := net (trace w) r1 in
  if is404 c1 then
    let w1 := refreshed (sent r1 w) in
    let q2 := resolved w1 operationName in
    let r2 := mk w1 (OperationUrl q2 operationName []) q2 in
    let c2 := net (trace w1) r2 in
    let w2 := sent r2 w1 in
    if is404 c2 then
      let r3 := mk w2 GraphqlPostUrl q2 in
      ([EvFetch r1; EvRefreshQueryIds; EvFetch r2; EvFetch r3],
       net (trace w2) r3, sent r3 w2)
    else ([EvFetch r1; EvRefreshQueryIds; EvFetch r2], c2, w2)
  else ([EvFetch r1], c1, sent r1 w).

(** The number of calls of [fetch] among some events. *)
Definition fetches (evs : list Event) : nat :=
  length (omap (λ e, match e with EvFetch r => Some r | _ => None end) evs).

(** What an attempt came to signals automated-request rejection: a 2xx
    response whose JSON body has an error list with an error of code 226. *)
Definition carries226 (c : Completion Response) : bool :=
  match c with
  | Normal response =>
      ok response &&
      match json response with
      | Normal data =>
          match errors data with
          | Some errs => has226 errs
          | None => false
          end
      | Abrupt _ => false
      end
  | Abrupt _ => false
  end.

(** Resolving an operation's identifier [n] times in a row. *)
Fixpoint resolveRepeatedly (n : nat) (operationName : string)
    : M (list string) :=
  match n with
  | O => ret []
  | S n =>
      let* queryId := getQueryId operationName in
      let* rest := resolveRepeatedly n operationName in
      ret (queryId :: rest)
  end.

(** *** The public operations

    The public methods that the mixins above add to the client, and what
    calling one does. *)
Inductive Operation : Type → Type :=
  | Tweet (text : string) (mediaIds : option (list string))
      : Operation TweetResult
  | Reply (text replyToTweetId : string) (mediaIds : option (list string))
      : Operation TweetResult
  | Like (tweetId : string) : Operation BookmarkMutationResult
  | Unlike (tweetId : string) : Operation BookmarkMutationResult
  | Retweet (tweetId : string) : Operation BookmarkMutationResult
  | Unretweet (tweetId : string) : Operation BookmarkMutationResult
  | Bookmark (tweetId : string) : Operation BookmarkMutationResult
  | UploadMedia (input : UploadInput) : Operation UploadMediaResult
  | GetUserIdByUsername (username : string) : Operation UserLookupResult
  | GetUserAboutAccount (username : string) : Operation AboutAccountResult.

Definition perform {A} (operation : Operation A) : M A :=
  match operation with
  | Tweet text mediaIds => tweet text mediaIds
  | Reply text replyToTweetId mediaIds => reply text replyToTweetId mediaIds
  | Like tweetId => like tweetId
  | Unlike tweetId => unlike tweetId
  | Retweet tweetId => retweet tweetId
  | Unretweet tweetId => unretweet tweetId
  | Bookmark tweetId => bookmark tweetId
  | UploadMedia input => uploadMedia input
  | GetUserIdByUsername username => getUserIdByUsername username
  | GetUserAboutAccount username => getUserAboutAccount username
  end.

End Operations.

(** ** What an operation may be asked to respect *)

(** The operation never completes abruptly: nothing is thrown to the
    caller. *)
Definition neverThrows {A} (m : M A) : Prop :=
  ∀ w, isNormal (m w).1 = true.

(** The operation leaves the instance's [authToken] and [ct0] as they are. *)
Definition keepsCredentials {A} (m : M A) : Prop :=
  ∀ w, this_authToken (this (m w).2) = this_authToken (this w)
       ∧ this_ct0 (this (m w).2) = this_ct0 (this w).

(** ** More of [TwitterClientBase] and of the media mixin *)
Section MoreOperations.
Context `{Env}.

(** The polling of [uploadMedia] that follows FINALIZE, if any: the
    [if (info?.state && info.state !== 'succeeded')] block around the loop of
    STATUS polls. *)
Definition polled (mediaId : string) (info : option ProcessingInfo)
    : M (option UploadMediaResult) :=
  match info with
  | Some info =>
      if truthy (pi_state info)
         && negb (bool_decide (pi_state info = Some "succeeded"))
      then pollProcessing 20 mediaId info
      else ret None
  | None => ret None
  end.

(** [Array.from(new Set(ids))]: a [Set] keeps each value once, in the order
    of first insertion. *)
Definition arrayFromSet (ids : list string) : list string :=
  foldl (λ set i, if bool_decide (i ∈ set) then set else set ++ [i]) [] ids.

Definition getTweetDetailQueryIds : M (list string) :=
  let* primary := getQueryId "TweetDetail" in
  ret (arrayFromSet
         [primary; "97JF30KziU00483E_8elBA"; "aFvUsJm2c-oDkJV75blV6g"]).

Definition getSearchTimelineQueryIds : M (list string) :=
  let* primary := getQueryId "SearchTimeline" in
  ret (arrayFromSet
         [primary; "M1jEez78PEfVfbQLvlWMvQ"; "5h0kNbk3ii97rmfY6CdgAA";
          "Tp1sewRU1AsZpBWhqCZicQ"]).

End MoreOperations.

(** ** What an operation does to the outside, counted and constrained *)

(** How many of some events a selection picks. *)
Definition count (sel : Event → bool) (evs : list Event) : nat :=
  length (List.filter sel evs).

Definition isFetch (e : Event) : bool :=
  match e with EvFetch _ => true | _ => false end.

Definition isRefresh (e : Event) : bool :=
  match e with EvRefreshQueryIds => true | _ => false end.

Definition isSleep (e : Event) : bool :=
  match e with EvSleep _ => true | _ => false end.

Definition isGet (e : Event) : bool :=
  match e with
  | EvFetch r => match method r with GET => true | POST => false end
  | _ => false
  end.

(** The calls of [fetch] whose URL satisfies [p]. *)
Definition fetchesTo (p : Url → bool) (e : Event) : bool :=
  match e with EvFetch r => p (url r) | _ => false end.

Definition isStatusUpdate (u : Url) : bool :=
  match u with StatusUpdateUrl => true | _ => false end.

Definition isUsersShow (u : Url) : bool :=
  match u with UsersShowUrl _ _ => true | _ => false end.

Definition isUpload (u : Url) : bool :=
  match u with UploadUrl _ => true | _ => false end.

Definition isMediaMetadata (u : Url) : bool :=
  match u with MediaMetadataUrl => true | _ => false end.

(** The operation adds events to the trace, at most [bound] of them picked by
    [sel]. *)
Definition costs {A} (sel : Event → bool) (bound : nat) (m : M A) : Prop :=
  ∀ w, ∃ evs, trace (m w).2 = trace w ++ evs ∧ (count sel evs ≤ bound)%nat.

(** Whenever the operation completes normally, its value satisfies [Q]. *)
Definition yields {A} (Q : A → Prop) (m : M A) : Prop :=
  ∀ w a, (m w).1 = Normal a → Q a.

(** The session a client holds: its CSRF token and its cookie header. *)
Definition holds (ct0 cookieHeader : string) (w : World) : Prop :=
  this_ct0 (this w) = ct0 ∧ this_cookieHeader (this w) = cookieHeader.

(** A request is made in the name of that session. *)
Definition authenticated (ct0 cookieHeader : string) (e : Event) : Prop :=
  match e with
  | EvFetch r =>
      x_csrf_token (headers r) = ct0 ∧ cookie (headers r) = cookieHeader
  | _ => True
  end.

(** Headers that carry that session's CSRF token and cookie. *)
Definition signed (ct0 cookieHeader : string) (h : Headers) : Prop :=
  x_csrf_token h = ct0 ∧ cookie h = cookieHeader.

(** The operation acts within the session: from a client that holds it, the
    client still holds it afterwards, every request added to the trace is
    made in its name, and the value of a normal completion satisfies [Q]. *)
Definition inSession {A} (ct0 cookieHeader : string) (Q : A → Prop)
    (m : M A) : Prop :=
  ∀ w, holds ct0 cookieHeader w →
    holds ct0 cookieHeader (m w).2
    ∧ (∃ evs, trace (m w).2 = trace w ++ evs
              ∧ Forall (authenticated ct0 cookieHeader) evs)
    ∧ ∀ a, (m w).1 = Normal a → Q a.

(** Success results that carry their identifier. *)
Definition tweetHasId (r : TweetResult) : Prop :=
  match r with TweetOk tweetId => tweetId ≠ "" | TweetFail _ => True end.

Definition uploadHasId (r : UploadMediaResult) : Prop :=
  match r with UploadOk mediaId => mediaId ≠ "" | UploadFail _ => True end.

Definition lookupHasId (r : UserLookupResult) : Prop :=
  match r with LookupOk userId _ _ => userId ≠ "" | LookupFail _ => True end.

(** The bodies of the multipart requests among some events: the form fields
    and the bytes of the [media] part. *)
Definition multiparts (evs : list Event)
    : list (list (string * string) * list Byte.byte) :=
  omap (λ e, match e with
             | EvFetch r =>
                 match body r with
                 | MultipartBody fields media => Some (fields, media)
                 | _ => None
                 end
             | _ => None
             end) evs.

End Client.

(** * Article text *)
Module Article.

(** The type tag of a rich-content block: a top-level heading
    (['header-one']) or anything else. *)
Inductive BlockType : Type :=
  | HeaderOne
  | OtherBlock (tag : string).

Record ContentBlock : Type := {
  block_type : BlockType;
  block_text : string;
}.

(** The article of a tweet result: the stored title and the blocks of its
    rich content ([content_state.blocks]). *)
Record ArticleResult : Type := {
  title : option string;
  blocks : list ContentBlock;
}.

Section Rendering.
(** What stands between the lines of two blocks, and between the title line
    and the rich content: a line break at least. The specification does not
    say whether a blank line is left, so the separator is a parameter. *)
Variable separator : string.

(** Modelled from the spec: block rendering of [twitter-client-utils], which
    is not among the sources. Each content block is rendered to one line; a
    top-level heading becomes a markdown-style heading line. *)
Definition renderBlock (b : ContentBlock) : string :=
  match block_type b with
  | HeaderOne => "# " +:+ block_text b
  | OtherBlock _ => block_text b
  end.

(** Modelled from the spec: the rendering of a block-structured rich-text
    document of [twitter-client-utils] into a flat string, block by block. *)
Definition renderContentState (bs : list ContentBlock) : string :=
  String.concat separator (renderBlock <$> bs).

(** Whether the leading block is a top-level heading that repeats the known
    title. *)
Definition leadsWithTitle (t : string) (bs : list ContentBlock) : bool :=
  match bs with
  | b :: _ =>
      match block_type b with
      | HeaderOne => String.eqb (block_text b) t
      | OtherBlock _ => false
      end
  | [] => false
  end.

(** Modelled from the spec: [extractArticleText] of [twitter-client-utils],
    which is not among the sources. The text of an article is its rich
    content rendered block by block; a leading top-level heading equal to the
    known title stands for the title, which is otherwise put in front as a
    line of its own. Without rich content there is no article text. *)
Definition extractArticleText (a : ArticleResult) : option string :=
  match blocks a with
  | [] => None
  | bs =>
      match title a with
      | Some t =>
          if leadsWithTitle t bs then Some (renderContentState bs)
          else Some (t +:+ separator +:+ renderContentState bs)
      | None => Some (renderContentState bs)
      end
  end.

End Rendering.

End Article.

(** * The command line: pagination flags and media files *)
Module Cli.

(** A parse result: [{ ok: true, ... }] or [{ ok: false, error }]. *)
Inductive Parsed (A : Type) : Type :=
  | ParsedOk (value : A)
  | ParsedErr (error : string).
Arguments ParsedOk {A} value.
Arguments ParsedErr {A} error.

Record PaginationCmdOpts : Type := {
  cmd_all : option bool;
  cmd_maxPages : option string;
  cmd_cursor : option string;
  cmd_delay : option string;
}.

(** The second argument of [parsePaginationFlags]. *)
Record PaginationDefaults : Type := {
  maxPagesImpliesPagination : option bool;
  defaultDelayMs : option Z;
  includeDelay : option bool;
}.

(** The success object of [parsePaginationFlags]. *)
Record PaginationFlags : Type := {
  usePagination : bool;
  flag_maxPages : option Z;
  flag_cursor : option string;
  flag_pageDelayMs : option Z;
}.

(** A media file as [loadMedia] hands it on. *)
Record MediaSpec : Type := {
  spec_path : string;
  spec_mime : string;
  spec_buffer : list Byte.byte;
  spec_alt : option string;
}.

Section Flags.
(** [Number.parseInt(raw, 10)], where [None] stands for a result that
    [Number.isFinite] rejects ([NaN] or an infinity); [s.toLowerCase()];
    [readFileSync(path)], which may throw. *)
Variable parseInt : string → option Z.
Variable toLowerCase : string → string.
Variable readFileSync : string → Completion (list Byte.byte).

Definition parsePositiveIntFlag (raw : option string) (flagName : string)
    : Parsed (option Z) :=
  match raw with
  | None => ParsedOk None
  | Some raw =>
      match parseInt raw with
      | Some value =>
          if value <=? 0
          then ParsedErr ("Invalid " +:+ flagName
                          +:+ ". Expected a positive integer.")
          else ParsedOk (Some value)
      | None =>
          ParsedErr ("Invalid " +:+ flagName +:+ ". Expected a positive integer.")
      end
  end.

Definition parseNonNegativeIntFlag (raw : option string) (flagName : string)
    (defaultValue : Z) : Parsed Z :=
  match parseInt (default (pretty defaultValue) raw) with
  | Some value =>
      if value <? 0
      then ParsedErr ("Invalid " +:+ flagName
                      +:+ ". Expected a non-negative integer.")
      else ParsedOk value
  | None =>
      ParsedErr ("Invalid " +:+ flagName
                 +:+ ". Expected a non-negative integer.")
  end.

Definition parsePaginationFlags (cmdOpts : PaginationCmdOpts)
    (opts : option PaginationDefaults) : Parsed PaginationFlags :=
  let maxPagesImpliesPagination :=
    default false (opts ≫= maxPagesImpliesPagination) in
  let includeDelay := default false (opts ≫= includeDelay) in
  let defaultDelayMs := default 1000 (opts ≫= defaultDelayMs) in
  match parsePositiveIntFlag (cmd_maxPages cmdOpts) "--max-pages" with
  | ParsedErr error => ParsedErr error
  | ParsedOk maxPages =>
      let usePagination :=
        default false (cmd_all cmdOpts)
        || truthy (cmd_cursor cmdOpts)
        || (maxPagesImpliesPagination
            && match maxPages with Some _ => true | None => false end) in
      if includeDelay then
        match parseNonNegativeIntFlag (cmd_delay cmdOpts) "--delay"
                defaultDelayMs with
        | ParsedErr error => ParsedErr error
        | ParsedOk delay =>
            ParsedOk {| usePagination := usePagination;
                        flag_maxPages := maxPages;
                        flag_cursor := cmd_cursor cmdOpts;
                        flag_pageDelayMs := Some delay |}
        end
      else
        ParsedOk {| usePagination := usePagination;
                    flag_maxPages := maxPages;
                    flag_cursor := cmd_cursor cmdOpts;
                    flag_pageDelayMs := None |}
  end.

(** [s.endsWith(suffix)] *)
Definition endsWith (s suffix : string) : bool :=
  let n := String.length s in
  let m := String.length suffix in
  (m <=? n)%nat && String.eqb (String.substring (n - m) m s) suffix.

Definition detectMime (path : string) : option string :=
  let ext := toLowerCase path in
  if endsWith ext ".jpg" || endsWith ext ".jpeg" then Some "image/jpeg"
  else if endsWith ext ".png" then Some "image/png"
  else if endsWith ext ".webp" then Some "image/webp"
  else if endsWith ext ".gif" then Some "image/gif"
  else if endsWith ext ".mp4" || endsWith ext ".m4v" then Some "video/mp4"
  else if endsWith ext ".mov" then Some "video/quicktime"
  else None.

(** The loop of [loadMedia] over [opts.media.entries()], from [index] on; an
    abrupt completion is the thrown [Error], by its message. *)
Fixpoint readSpecs (index : nat) (media alts : list string)
    : Completion (list MediaSpec) :=
  match media with
  | [] => Normal []
  | path :: rest =>
      match detectMime path with
      | None =>
          Abrupt ("Unsupported media type for " +:+ path
                  +:+ ". Supported: jpg, jpeg, png, webp, gif, mp4, mov")
      | Some mime =>
          match readFileSync path with
          | Abrupt e => Abrupt e
          | Normal buffer =>
              match readSpecs (S index) rest alts with
              | Abrupt e => Abrupt e
              | Normal specs =>
                  Normal ({| spec_path := path; spec_mime := mime;
                             spec_buffer := buffer;
                             spec_alt := alts !! index |} :: specs)
              end
          end
      end
  end.

Definition isVideo (m : MediaSpec) : bool :=
  String.prefix "video/" (spec_mime m).

Definition loadMedia (media alts : list string) : Completion (list MediaSpec) :=
  match media with
  | [] => Normal []
  | _ =>
      match readSpecs 0 media alts with
      | Abrupt e => Abrupt e
      | Normal specs =>
          let videoCount := length (List.filter isVideo specs) in
          if (1 <? videoCount)%nat
          then Abrupt "Only one video can be attached"
          else if (videoCount =? 1)%nat && (1 <? length specs)%nat
          then Abrupt "Video cannot be combined with other media"
          else if (4 <? length specs)%nat
          then Abrupt "Maximum 4 media attachments"
          else Normal specs
      end
  end.

End Flags.

End Cli.

(** * Concrete runs

    The data of the scenarios the properties are tried on. *)
Module Scenario.
Import Paginator.

(** Tweets, cut down to an id and a text; the identity key is the id. *)
Definition Tweet : Type := string * string.
Definition tweetId : Tweet → string := fst.

Definition dup : Tweet := ("dup", "Duplicate").
Definition dupAgain : Tweet := ("dup", "Duplicate, served again").
Definition fresh : Tweet := ("fresh", "Something new").

(** Scenario B, continued by a third page. *)
Definition pagesB : list (CursorPage Tweet) :=
  [PageOk [dup] (Some "p2"); PageOk [dupAgain] (Some "p3");
   PageOk [fresh] None].

(** Pages that overlap, the second one failing to advance the cursor. *)
Definition pagesOverlap : list (CursorPage Tweet) :=
  [PageOk [dup; fresh; dupAgain] (Some "p2");
   PageOk [("late", "Last"); fresh] (Some "p2")].

(** A page, then a failure. *)
Definition pagesFail : list (CursorPage Tweet) :=
  [PageOk [dup] (Some "p2"); PageErr "HTTP 500: boom"].

Definition run (limit : option Z) (pages : list (CursorPage Tweet))
    (fuel : nat) :=
  paginateCursor fuel (recording (scriptedOpts tweetId None limit pages))
    (0%nat, []).

(** What the spy has on record after all three pages of scenario B, after
    its first two, and after the overlapping pages. *)
Definition callsB : list (Call Tweet) :=
  [(None, Normal (PageOk [dup] (Some "p2")));
   (Some "p2", Normal (PageOk [dupAgain] (Some "p3")));
   (Some "p3", Normal (PageOk [fresh] None))].

Definition callsOverlap : list (Call Tweet) :=
  [(None, Normal (PageOk [dup; fresh; dupAgain] (Some "p2")));
   (Some "p2", Normal (PageOk [("late", "Last"); fresh] (Some "p2")))].

(** The loop state after the first page of [pagesFail]. *)
Definition afterFirstPage : PaginationState Tweet :=
  {| seen := (addItems (scriptedOpts tweetId None None pagesFail)
                (∅, []) [dup]).1;
     items := [dup]; cur := Some "p2"; pagesFetched := 1 |}.

(** ** A client against a scripted network *)
Import Client.

(** The network of the tests: the [n]-th call of [fetch] gets the [n]-th
    entry of the script, whatever it asks for; past the script's end the call
    fails. The live refresh finds a new identifier for [FavoriteTweet]. *)
Definition scriptedEnv (script : list (Completion Response)) : Env :=
  {| net := λ tr _, default (Abrupt "fetch failed") (script !! fetches tr);
     QUERY_IDS := λ operationName, "baked-" +:+ operationName;
     refresh := λ ids, Normal (<["FavoriteTweet" := "rotated"]> ids);
     getCurrentUser := ret {| cu_success := true; cu_user_id := Some "42" |};
     randomHex := λ _, "00112233445566778899aabbccddeeff";
     DateNow := λ _, 1700000000000;
     DateGetTime := λ _, 0;
     normalizeText := λ t, t;
     normalizeHandle := λ handle, if String.eqb handle "" then None else Some handle |}.

Definition emptyBody : ResponseBody :=
  {| errors := None; result_rest_id := None; result_tweet_rest_id := None;
     result_legacy_id_str := None; id_str := None; id := None;
     screen_name := None; name := None; timeline := [];
     media_id_string := None; media_id := None; processing_info := None;
     user_result := None; about_profile := None; bottom_cursor := None |}.

(** A body with an error list, with the new tweet's [rest_id], with the
    [id_str] of a [statuses/update] response. *)
Definition bodyErrors (errs : list ApiError) : ResponseBody :=
  {| errors := Some errs; result_rest_id := None; result_tweet_rest_id := None;
     result_legacy_id_str := None; id_str := None; id := None;
     screen_name := None; name := None; timeline := [];
     media_id_string := None; media_id := None; processing_info := None;
     user_result := None; about_profile := None; bottom_cursor := None |}.

Definition bodyRestId (tweetId : string) : ResponseBody :=
  {| errors := None; result_rest_id := Some tweetId;
     result_tweet_rest_id := None;
     result_legacy_id_str := None; id_str := None; id := None;
     screen_name := None; name := None; timeline := [];
     media_id_string := None; media_id := None; processing_info := None;
     user_result := None; about_profile := None; bottom_cursor := None |}.

Definition bodyIdStr (tweetId : string) : ResponseBody :=
  {| errors := None; result_rest_id := None; result_tweet_rest_id := None;
     result_legacy_id_str := None; id_str := Some tweetId; id := None;
     screen_name := None; name := None; timeline := [];
     media_id_string := None; media_id := None; processing_info := None;
     user_result := None; about_profile := None; bottom_cursor := None |}.

Definition notFound : Completion Response :=
  Normal {| status := 404; text := Normal "Not found";
            json := Abrupt "Unexpected token N in JSON" |}.

Definition okWith (data : ResponseBody) : Completion Response :=
  Normal {| status := 200; text := Normal ""; json := Normal data |}.

Definition automated : ApiError :=
  {| message := "This request looks like it might be automated.";
     code := Some 226 |}.

(** A client as the constructor makes it from valid cookies, in a fresh
    world outside the test environment. *)
Definition client0 : TwitterClientBase :=
  {| this_authToken := "auth"; this_ct0 := "csrf";
     this_cookieHeader := "auth_token=auth; ct0=csrf";
     this_userAgent := DEFAULT_USER_AGENT;
     this_timeoutMs := None; this_quoteDepth := 1;
     this_clientUuid := "uuid-1"; this_clientDeviceId := "uuid-2";
     this_clientUserId := Some "42" |}.

Definition world0 : World :=
  {| this := client0; runtimeQueryIds := ∅; nodeEnvTest := false;
     trace := [] |}.

(** The networks of the scenarios: a 404 and then a success; two 404s and
    then a success; an error 226 and then a legacy write that succeeds. *)
Definition netRetry : Env := scriptedEnv [notFound; okWith emptyBody].

Definition netTwice : Env := scriptedEnv [notFound; notFound; okWith emptyBody].

Definition netAutomated : Env :=
  scriptedEnv [okWith (bodyErrors [automated]); okWith (bodyIdStr "777")].

(** A network that is down: every [fetch] throws. *)
Definition netDown : Env := scriptedEnv [].

(** Options with valid cookies, and with the [ct0] cookie missing. *)
Definition validOptions : TwitterClientOptions :=
  {| cookies := {| authToken := Some "auth"; ct0 := Some "csrf";
                   cookieHeader := None |};
     userAgent := None; timeoutMs := None; quoteDepth := None |}.

Definition optionsWithoutCt0 : TwitterClientOptions :=
  {| cookies := {| authToken := Some "auth"; ct0 := None;
                   cookieHeader := None |};
     userAgent := None; timeoutMs := None; quoteDepth := None |}.

(** The response [netAutomated] gives to the first request. *)
Definition netAutomatedFirst : option Response :=
  match @net netAutomated [] (@createRequest netAutomated
          {| tweet_text := ""; in_reply_to_tweet_id := None; media_ids := [] |}
          world0 (OperationUrl "baked-CreateTweet" "CreateTweet" [])
          "baked-CreateTweet") with
  | Normal response => Some response
  | Abrupt _ => None
  end.

Definition hello : CreateTweetVariables :=
  {| tweet_text := "hello"; in_reply_to_tweet_id := None; media_ids := [] |}.

(** A 404 and then the new tweet's id. *)
Definition netRetryPosted : Env :=
  scriptedEnv [notFound; okWith (bodyRestId "1001")].

(** A page of HTML sent with status 200: [json()] rejects on it. *)
Definition htmlPage : Response :=
  {| status := 200; text := Normal "<!DOCTYPE html><html></html>";
     json := Abrupt "Unexpected token < in JSON at position 0" |}.

Definition netHtml : Env := scriptedEnv [Normal htmlPage].

(** The error 226 sent with status 403: the JSON text
    [{"errors":[{"message":"...","code":226}]}] and what [json()] makes of
    it. A legacy write would succeed after it. *)
Definition quote : string := String (Ascii.ascii_of_nat 34) "".

Definition automatedText : string :=
  "{" +:+ quote +:+ "errors" +:+ quote +:+ ":[{" +:+ quote +:+ "message"
  +:+ quote +:+ ":" +:+ quote +:+ message automated +:+ quote +:+ ","
  +:+ quote +:+ "code" +:+ quote +:+ ":226}]}".

Definition forbidden : Response :=
  {| status := 403; text := Normal automatedText;
     json := Normal (bodyErrors [automated]) |}.

Definition netForbidden : Env :=
  scriptedEnv [Normal forbidden; okWith (bodyIdStr "777")].

End Scenario.

(** * More concrete runs *)
Module Trials.
Import Paginator Client Cli Scenario.

(** The pages of a script, fetched with a delay of [ms] between them. *)
Definition delayed (ms : Z) (pages : list (CursorPage Tweet)) : Opts Tweet nat :=
  {| cursor := None; maxPages := None; pageDelayMs := Some ms;
     Paginator.sleep := λ _ n, n; getKey := tweetId;
     fetchPage := scripted pages |}.

(** Bodies: an upload response with its media id, a user, and a user that
    is unavailable. *)
Definition bodyMedia (mediaId : string) : ResponseBody :=
  {| errors := None; result_rest_id := None; result_tweet_rest_id := None;
     result_legacy_id_str := None; id_str := None; id := None;
     screen_name := None; name := None; timeline := [];
     media_id_string := Some mediaId; media_id := None;
     processing_info := None;
     user_result := None; about_profile := None; bottom_cursor := None |}.

Definition bodyUser (typename restId screenName : option string)
    : ResponseBody :=
  {| errors := None; result_rest_id := None; result_tweet_rest_id := None;
     result_legacy_id_str := None; id_str := None; id := None;
     screen_name := None; name := None; timeline := [];
     media_id_string := None; media_id := None; processing_info := None;
     user_result :=
       Some {| ur_typename := typename; ur_rest_id := restId;
               ur_legacy_screen_name := screenName; ur_legacy_name := None;
               ur_core_screen_name := None; ur_core_name := None |};
     about_profile := None; bottom_cursor := None |}.

Definition responseGone : Response :=
  {| status := 200; text := Normal "";
     json := Normal (bodyUser (Some "UserUnavailable") None None) |}.

(** Networks: a post that is answered with the new id; an upload answered at
    INIT, APPEND and FINALIZE; a user that is found; a user that is gone. *)
Definition netPosted : Env := scriptedEnv [okWith (bodyRestId "1001")].

Definition netUpload : Env :=
  scriptedEnv [okWith (bodyMedia "55"); okWith emptyBody; okWith emptyBody].

Definition netUser : Env :=
  scriptedEnv [okWith (bodyUser (Some "User") (Some "7") (Some "jack"))].

Definition netGone : Env := scriptedEnv [Normal responseGone].

(** A small picture, and a file that is no media. *)
Definition picture : UploadInput :=
  {| data := [Byte.x89; Byte.x50; Byte.x4e]; mimeType := "image/png";
     alt := None |}.

Definition note : UploadInput :=
  {| data := []; mimeType := "text/plain"; alt := None |}.

(** The world of [world0] under [NODE_ENV=test]. *)
Definition worldTest : World :=
  {| this := client0; runtimeQueryIds := ∅; nodeEnvTest := true;
     trace := [] |}.

(** A client that does not know its own user id, under [NODE_ENV=test], and
    a network that answers a post with an empty body. *)
Definition worldAnonymous : World :=
  {| this := {| this_authToken := "auth"; this_ct0 := "csrf";
                this_cookieHeader := "auth_token=auth; ct0=csrf";
                this_userAgent := DEFAULT_USER_AGENT;
                this_timeoutMs := None; this_quoteDepth := 1;
                this_clientUuid := "uuid-1"; this_clientDeviceId := "uuid-2";
                this_clientUserId := None |};
     runtimeQueryIds := ∅; nodeEnvTest := true; trace := [] |}.

Definition netSilent : Env := scriptedEnv [okWith emptyBody].

(** A reply with two pictures, and its legacy form. *)
Definition replyWithMedia : CreateTweetVariables :=
  {| tweet_text := "hello"; in_reply_to_tweet_id := Some "99";
     media_ids := ["1"; "2"] |}.

Definition replyInput : StatusUpdateInput :=
  {| su_text := "hello"; su_inReplyToTweetId := Some "99";
     su_mediaIds := Some ["1"; "2"] |}.

(** The command line of [--max-pages 3 --delay 250], with a [parseInt] that
    knows the numerals used here. *)
Definition parseIntOf (raw : string) : option Z :=
  if String.eqb raw "3" then Some 3
  else if String.eqb raw "250" then Some 250
  else if String.eqb raw "1000" then Some 1000
  else if String.eqb raw "0" then Some 0
  else None.

Definition threePages : PaginationCmdOpts :=
  {| cmd_all := None; cmd_maxPages := Some "3"; cmd_cursor := None;
     cmd_delay := Some "250" |}.

Definition withDelay : option PaginationDefaults :=
  Some {| maxPagesImpliesPagination := Some true; defaultDelayMs := None;
          includeDelay := Some true |}.

Definition threePagesFlags : PaginationFlags :=
  {| usePagination := true; flag_maxPages := Some 3; flag_cursor := None;
     flag_pageDelayMs := Some 250 |}.

(** A file system with one picture in it. *)
Definition readPicture (path : string) : Completion (list Byte.byte) :=
  if String.eqb path "cat.png" then Normal (data picture)
  else Abrupt "ENOENT: no such file or directory".

End Trials.

(** * Properties *)

Lemma truthy_Some (o : option string) :
  truthy o = true ↔ ∃ s, o = Some s ∧ s ≠ "".
Proof.
  destruct o as [s|]; simpl.
  - rewrite negb_true_iff. split.
    + intros Hs. exists s. split; [done|]. by apply String.eqb_neq.
    + intros (s' & [= <-] & Hne). by apply String.eqb_neq.
  - split; [done|]. by intros (s & ? & _).
Qed.

(** ** First-encounter order *)
Section FirstEncounters.
Context {T : Type} (key : T → string).

Lemma firstEncounters_snoc (l : list T) (x : T) :
  Paginator.firstEncounters key (l ++ [x]) =
  Paginator.firstEncounters key l
  ++ (if bool_decide (key x ∈ key <$> l) then [] else [x]).
Proof.
  unfold Paginator.firstEncounters.
  rewrite imap_app, join_app. f_equal.
  - f_equal. apply imap_ext. intros i y Hi. simpl.
    rewrite take_app_le; [done|].
    apply lookup_lt_Some in Hi. lia.
  - simpl. rewrite Nat.add_0_r, take_app_length, app_nil_r. done.
Qed.

Lemma firstEncounters_nil : Paginator.firstEncounters key [] = [].
Proof. done. Qed.

(** Processing more items only appends. *)
Lemma firstEncounters_app_prefix (l l' : list T) :
  Paginator.firstEncounters key l `prefix_of`
  Paginator.firstEncounters key (l ++ l').
Proof.
  induction l' as [|x l' IH] using rev_ind.
  - by rewrite app_nil_r.
  - rewrite app_assoc, firstEncounters_snoc.
    etrans; [exact IH|]. by apply prefix_app_r.
Qed.

Lemma firstEncounters_keys (l : list T) (k : string) :
  k ∈ key <$> Paginator.firstEncounters key l ↔ k ∈ key <$> l.
Proof.
  induction l as [|x l IH] using rev_ind; [done|].
  rewrite firstEncounters_snoc, !fmap_app, !elem_of_app, IH.
  case_bool_decide as Hx; simpl.
  - rewrite list_elem_of_singleton. split.
    + intros [?|Hk]; [by left|]. by apply elem_of_nil in Hk.
    + intros [?| ->]; by left.
  - done.
Qed.

Lemma firstEncounters_NoDup (l : list T) :
  NoDup (key <$> Paginator.firstEncounters key l).
Proof.
  induction l as [|x l IH] using rev_ind; [constructor|].
  rewrite firstEncounters_snoc, fmap_app.
  case_bool_decide as Hx; simpl.
  - by rewrite app_nil_r.
  - apply NoDup_app. split_and!; [done| |apply NoDup_singleton].
    intros k Hk ->%list_elem_of_singleton.
    rewrite firstEncounters_keys in Hk. done.
Qed.

(** An element is among the first encounters exactly when it sits at a
    position of [l] that no element with the same key precedes. *)
Lemma firstEncounters_elem (l : list T) (x : T) :
  x ∈ Paginator.firstEncounters key l ↔
  ∃ i, l !! i = Some x ∧ key x ∉ key <$> take i l.
Proof.
  induction l as [|y l IH] using rev_ind.
  - split; [by intros ?%elem_of_nil|]. by intros (i & ? & _).
  - rewrite firstEncounters_snoc, elem_of_app, IH. split.
    + intros [(i & Hi & Hk)|Hx].
      * exists i. pose proof (lookup_lt_Some _ _ _ Hi).
        rewrite lookup_app_l, take_app_le by lia. done.
      * case_bool_decide as Hy; [by apply elem_of_nil in Hx|].
        apply list_elem_of_singleton in Hx as ->.
        exists (length l).
        rewrite lookup_app_r, Nat.sub_diag, take_app_length by lia. done.
    + intros (i & Hi & Hk).
      destruct (decide (i < length l)%nat) as [Hlt|Hge].
      * left. exists i.
        rewrite lookup_app_l, take_app_le in * by lia. done.
      * right. apply lookup_lt_Some in Hi as Hlen.
        rewrite length_app in Hlen. simpl in Hlen.
        assert (i = length l) as -> by lia.
        rewrite lookup_app_r, Nat.sub_diag in Hi by lia.
        injection Hi as ->.
        rewrite take_app_length in Hk.
        rewrite bool_decide_eq_false_2 by done. by apply list_elem_of_singleton.
Qed.

(** An element whose key came earlier leaves no mark. *)
Lemma firstEncounters_skip (l1 l2 : list T) (x : T) :
  key x ∈ key <$> l1 →
  Paginator.firstEncounters key (l1 ++ x :: l2) =
  Paginator.firstEncounters key (l1 ++ l2).
Proof.
  intros Hx. induction l2 as [|y l2 IH] using rev_ind.
  - rewrite app_nil_r, firstEncounters_snoc, bool_decide_eq_true_2 by done.
    by rewrite app_nil_r.
  - rewrite (app_assoc l1 l2 [y]), (app_comm_cons l2 [y] x),
      (app_assoc l1 (x :: l2) [y]), !firstEncounters_snoc, IH.
    f_equal.
    rewrite (bool_decide_ext (key y ∈ key <$> l1 ++ x :: l2)
               (key y ∈ key <$> l1 ++ l2)); [done|].
    rewrite !fmap_app, fmap_cons, !elem_of_app, elem_of_cons.
    split; [|tauto]. intros [?|[->|?]]; tauto.
Qed.

End FirstEncounters.

(** ** The paginator *)
Section PaginatorProperties.
Import Paginator.
Context {T W : Type}.
Implicit Types (opts : Opts T W) (st : PaginationState T) (w : W).
Implicit Types (calls : list (Call T)).

Lemma itemsOf_snoc calls (c : Call T) :
  itemsOf (calls ++ [c]) = itemsOf calls ++ callItems c.
Proof. unfold itemsOf. rewrite bind_app. simpl. by rewrite app_nil_r. Qed.

Lemma itemsOf_app calls calls' :
  itemsOf (calls ++ calls') = itemsOf calls ++ itemsOf calls'.
Proof. unfold itemsOf. by rewrite bind_app. Qed.

(** The [for] loop over a page extends the accumulator to the first
    encounters of everything seen so far. *)
Lemma addItems_firstEncounters opts (page all : list T) sn its :
  its = firstEncounters (getKey opts) all →
  (∀ k, k ∈ sn ↔ k ∈ getKey opts <$> all) →
  (addItems opts (sn, its) page).2
    = firstEncounters (getKey opts) (all ++ page)
  ∧ (∀ k, k ∈ (addItems opts (sn, its) page).1
          ↔ k ∈ getKey opts <$> (all ++ page)).
Proof.
  revert all sn its.
  induction page as [|x page IH]; intros all sn its Hits Hsn.
  - rewrite app_nil_r. done.
  - unfold addItems in *. simpl foldl.
    replace (all ++ x :: page) with ((all ++ [x]) ++ page)
      by (by rewrite <- app_assoc).
    unfold addItem at 2 4. simpl.
    destruct (decide (getKey opts x ∈ sn)) as [Hin|Hnin].
    + apply IH.
      * rewrite firstEncounters_snoc, bool_decide_eq_true_2, app_nil_r;
          [done|]. by apply Hsn.
      * intros k. rewrite fmap_app, elem_of_app, Hsn. simpl.
        rewrite list_elem_of_singleton. split; [by left|].
        intros [?| ->]; [done|]. by apply Hsn.
    + apply IH.
      * rewrite firstEncounters_snoc, bool_decide_eq_false_2; [by subst|].
        by rewrite <- Hsn.
      * intros k. rewrite fmap_app, elem_of_app, elem_of_union, Hsn. simpl.
        rewrite elem_of_singleton, list_elem_of_singleton. tauto.
Qed.

(** A turn of the loop under the spy is the same turn, with one more call
    on record. *)
Lemma iteration_recording opts st w calls :
  iteration (recording opts) st (w, calls) =
  ((iteration opts st w).1,
   ((iteration opts st w).2,
    calls ++ [(cur st, (fetchPage opts (cur st) (pause opts st w)).1)])).
Proof.
  unfold iteration.
  assert (pause (recording opts) st (w, calls) = (pause opts st w, calls))
    as -> by (unfold pause; simpl; by destruct (_ && _)).
  simpl.
  destruct (fetchPage opts (cur st) (pause opts st w)) as [[[pitems pc|e]|e] w1];
    simpl; try done.
  - destruct (addItems _ _ _) as [sn its].
    destruct (negb (truthy pc) || bool_decide (pc = cur st)); [done|].
    destruct (maxPages opts) as [limit|]; [|done].
    by destruct (limit <=? _).
  - by destruct (0 <? _).
Qed.

Lemma recording_addItems opts acc page :
  addItems (recording opts) acc page = addItems opts acc page.
Proof. done. Qed.

(** The turn the loop takes, by what [fetchPage] gave. *)
Lemma tracks_turn opts st w calls st' w' :
  tracks opts st calls →
  iteration opts st w = (Normal (inr st'), w') →
  tracks opts st'
    (calls ++ [(cur st, (fetchPage opts (cur st) (pause opts st w)).1)])
  ∧ gavePage (cur st, (fetchPage opts (cur st) (pause opts st w)).1).
Proof.
  intros (Hall & Hits & Hseen & Hn). unfold iteration.
  destruct (fetchPage opts (cur st) (pause opts st w))
    as [[[pitems pc|e]|e] w1]; simpl; [| |done].
  - pose proof (addItems_firstEncounters opts pitems _ _ _ Hits Hseen)
      as [Hits' Hseen'].
    destruct (addItems opts (seen st, items st) pitems) as [sn its].
    simpl in *.
    assert (st' = {| seen := sn; items := its; cur := pc;
                     pagesFetched := pagesFetched st + 1 |} →
            tracks opts st' (calls ++ [(cur st, Normal (PageOk pitems pc))])
            ∧ gavePage (cur st, Normal (PageOk pitems pc))) as Hgo.
    { intros ->. split; [|by eexists _, _].
      split_and!; simpl.
      - apply Forall_app. split; [done|].
        apply Forall_singleton. by eexists _, _.
      - by rewrite itemsOf_snoc.
      - intros k. by rewrite itemsOf_snoc.
      - rewrite length_app. simpl. lia. }
    destruct (negb (truthy pc) || bool_decide (pc = cur st)); [done|].
    destruct (maxPages opts) as [limit|].
    + destruct (limit <=? _); [done|]. intros [= <- <-]. by apply Hgo.
    + intros [= <- <-]. by apply Hgo.
  - by destruct (0 <? _).
Qed.

Lemma pause_first opts st w : pagesFetched st = 0 → pause opts st w = w.
Proof. unfold pause. by intros ->. Qed.

Lemma pause_later opts st w :
  0 < pagesFetched st → pause opts st w = courtesyDelay opts w.
Proof.
  unfold pause, courtesyDelay. intros Hn.
  by rewrite (proj2 (Z.ltb_lt _ _) Hn).
Qed.

Lemma nonempty_length (l : list T) :
  (0 <? Z.of_nat (length l)) = match l with [] => false | _ => true end.
Proof. by destruct l. Qed.

(** A turn that returns, returns what the record says. *)
Lemma verdict_turn opts st w calls c w' :
  tracks opts st calls →
  iteration opts st w = (c, w') →
  (∀ st', c ≠ Normal (inr st')) →
  verdict opts
    (calls ++ [(cur st, (fetchPage opts (cur st) (pause opts st w)).1)])
    (match c with
     | Normal (inl r) => Normal r
     | Normal (inr _) => Abrupt ""
     | Abrupt e => Abrupt e
     end).
Proof.
  intros Htr Hit Hret. pose proof Htr as (Hall & Hits & Hseen & Hn).
  exists calls, (cur st), (fetchPage opts (cur st) (pause opts st w)).1.
  split; [done|]. split; [done|]. simpl.
  rewrite itemsOf_snoc. unfold iteration in Hit.
  destruct (fetchPage opts (cur st) (pause opts st w))
    as [[[pitems pc|e]|e] w1]; simpl in *.
  - unfold callItems. simpl.
    pose proof (addItems_firstEncounters opts pitems _ _ _ Hits Hseen)
      as [Hits' _].
    destruct (addItems opts (seen st, items st) pitems) as [sn its].
    simpl in *. subst its.
    destruct (negb (truthy pc) || bool_decide (pc = cur st)).
    { by injection Hit as <- <-. }
    destruct (maxPages opts) as [limit|].
    + destruct (limit <=? pagesFetched st + 1) eqn:Hle.
      * injection Hit as <- <-. split; [done|]. exists limit.
        split; [done|]. apply Z.leb_le in Hle.
        rewrite length_app. simpl. lia.
      * injection Hit as <- <-. by destruct (Hret _ eq_refl).
    + injection Hit as <- <-. by destruct (Hret _ eq_refl).
  - unfold callItems. simpl. rewrite app_nil_r, <- Hits.
    rewrite nonempty_length in Hit.
    destruct (items st); by injection Hit as <- <-.
  - by injection Hit as <- <-.
Qed.

(** Under a page limit a turn goes round again only below the limit. *)
Lemma turn_below_limit opts st w st' w' limit :
  maxPages opts = Some limit →
  iteration opts st w = (Normal (inr st'), w') →
  pagesFetched st + 1 < limit.
Proof.
  intros Hmax. unfold iteration.
  destruct (fetchPage opts (cur st) (pause opts st w))
    as [[[pitems pc|e]|e] w1]; simpl; [| |done].
  - destruct (addItems opts (seen st, items st) pitems) as [sn its].
    destruct (negb (truthy pc) || bool_decide (pc = cur st)); [done|].
    rewrite Hmax. destruct (limit <=? pagesFetched st + 1) eqn:Hle; [done|].
    intros _. apply Z.leb_gt in Hle. lia.
  - by destruct (0 <? _).
Qed.

(** The record of a call that returned. *)
Lemma loop_recorded fuel opts st w calls c w' calls' :
  tracks opts st calls →
  paginateLoop fuel (recording opts) st (w, calls) = Some (c, (w', calls')) →
  verdict opts calls' c ∧ calls `prefix_of` calls'.
Proof.
  revert st w calls.
  induction fuel as [|fuel IH]; intros st w calls Htr; [done|].
  simpl. rewrite iteration_recording.
  destruct (iteration opts st w) as [[[r|st']|e] w1] eqn:Hit; simpl.
  - intros [= <- <- <-]. split; [|by apply prefix_app_r].
    by apply (verdict_turn opts st w calls _ _ Htr Hit).
  - intros Hloop.
    destruct (tracks_turn opts st w calls st' w1 Htr Hit) as [Htr' _].
    destruct (IH _ _ _ Htr' Hloop) as [Hv Hpre]. split; [done|].
    etrans; [|exact Hpre]. by apply prefix_app_r.
  - intros [= <- <- <-]. split; [|by apply prefix_app_r].
    by apply (verdict_turn opts st w calls _ _ Htr Hit).
Qed.

Lemma tracks_initial opts : tracks opts (initial opts) [].
Proof. split_and!; simpl; [constructor|done| |done]. intros k. set_solver. Qed.

(** With a page limit the loop returns, within the limit. *)
Lemma loop_bounded fuel opts st w calls limit :
  maxPages opts = Some limit →
  tracks opts st calls →
  Z.of_nat (length calls) < limit →
  (Z.to_nat (limit - Z.of_nat (length calls)) ≤ fuel)%nat →
  ∃ c w' calls',
    paginateLoop fuel (recording opts) st (w, calls) = Some (c, (w', calls'))
    ∧ Z.of_nat (length calls') ≤ limit.
Proof.
  intros Hmax. revert st w calls.
  induction fuel as [|fuel IH]; intros st w calls Htr Hlt Hfuel; [lia|].
  simpl. rewrite iteration_recording.
  destruct (iteration opts st w) as [[[r|st']|e] w1] eqn:Hit; simpl.
  - eexists _, _, _. split; [done|]. rewrite length_app. simpl. lia.
  - destruct (tracks_turn opts st w calls st' w1 Htr Hit) as [Htr' _].
    pose proof (turn_below_limit _ _ _ _ _ _ Hmax Hit) as Hbelow.
    destruct Htr as (_ & _ & _ & Hn).
    apply IH; [done| |]; rewrite length_app; simpl; lia.
  - eexists _, _, _. split; [done|]. rewrite length_app. simpl. lia.
Qed.

(** The spy does not change what a call does: forgetting the record gives
    the plain run. *)
Lemma recording_erases fuel opts st w calls :
  (λ r, (r.1, r.2.1)) <$> paginateLoop fuel (recording opts) st (w, calls)
  = paginateLoop fuel opts st w.
Proof.
  revert st w calls. induction fuel as [|fuel IH]; intros st w calls; [done|].
  simpl. rewrite iteration_recording.
  destruct (iteration opts st w) as [[[r|st']|e] w1]; simpl; [done| |done].
  apply IH.
Qed.

(** The record only grows. *)
Lemma loop_record_grows fuel opts st w calls c w' calls' :
  paginateLoop fuel (recording opts) st (w, calls) = Some (c, (w', calls')) →
  calls `prefix_of` calls'.
Proof.
  revert st w calls. induction fuel as [|fuel IH]; intros st w calls; [done|].
  simpl. rewrite iteration_recording.
  destruct (iteration opts st w) as [[[r|st']|e] w1]; simpl.
  - intros [= <- <- <-]. by apply prefix_app_r.
  - intros Hl%IH. etrans; [|exact Hl]. by apply prefix_app_r.
  - intros [= <- <- <-]. by apply prefix_app_r.
Qed.

(** The items a call returns are the first encounters of the items on
    record. *)
Lemma returned_items fuel opts w r w' calls l :
  paginateCursor fuel (recording opts) (w, []) = Some (Normal r, (w', calls)) →
  resultItems r = Some l →
  l = firstEncounters (getKey opts) (itemsOf calls).
Proof.
  intros Hrun Hl.
  apply (loop_recorded _ _ _ _ _ _ _ _ (tracks_initial opts)) in Hrun
    as [(before & used & p & -> & _ & Hv) _].
  simpl in Hv. destruct p as [[pitems pc|e]|e]; [| |done].
  - destruct (negb (truthy pc) || bool_decide (pc = used)).
    + injection Hv as ->. simpl in Hl. by injection Hl.
    + destruct Hv as [[= ->] _]. simpl in Hl. by injection Hl.
  - destruct (firstEncounters _ _) eqn:Hacc;
      injection Hv as ->; simpl in Hl; [done|by injection Hl].
Qed.

(** Every state the call passes through is one the loop gets to. *)
Lemma reaches_loop opts w0 st w :
  reaches opts w0 st w →
  ∀ fuel, ∃ n, paginateCursor (n + fuel) opts w0 = paginateLoop fuel opts st w.
Proof.
  induction 1 as [|st w st' w' _ IH Hit]; intros fuel.
  - by exists 0%nat.
  - destruct (IH (S fuel)) as [n Hn]. exists (S n).
    replace (S n + fuel)%nat with (n + S fuel)%nat by lia.
    rewrite Hn. simpl. by rewrite Hit.
Qed.

(** The states a recorded call passes through are the ones its record
    accounts for. *)
Lemma reaches_tracks opts w0 st w calls :
  reaches (recording opts) (w0, []) st (w, calls) → tracks opts st calls.
Proof.
  intros Hreach.
  change calls with (w, calls).2. generalize dependent (w, calls).
  clear w calls. intros wc Hreach.
  induction Hreach as [|st [w calls] st' [w' calls'] _ IH Hit].
  - apply tracks_initial.
  - rewrite iteration_recording in Hit. injection Hit as Hc <- <-. simpl.
    refine (proj1 (tracks_turn opts st w calls st'
                     (iteration opts st w).2 IH _)).
    destruct (iteration opts st w) as [c w1]. simpl in *. by subst c.
Qed.

(** What a turn does with a page that came, by the record so far. *)
Lemma iteration_page opts st w calls pitems pc w1 :
  tracks opts st calls →
  fetchPage opts (cur st) (pause opts st w) = (Normal (PageOk pitems pc), w1) →
  let calls' := calls ++ [(cur st, Normal (PageOk pitems pc))] in
  let acc := firstEncounters (getKey opts) (itemsOf calls') in
  iteration opts st w =
  if negb (truthy pc) || bool_decide (pc = cur st)
  then (Normal (inl (ResOk acc None)), w1)
  else if match maxPages opts with
          | Some limit => limit <=? Z.of_nat (length calls')
          | None => false
          end
       then (Normal (inl (ResOk acc pc)), w1)
       else (Normal (inr {| seen := (addItems opts (seen st, items st) pitems).1;
                            items := acc; cur := pc;
                            pagesFetched := Z.of_nat (length calls') |}), w1).
Proof.
  intros (_ & Hits & Hseen & Hn) Hfetch calls' acc.
  unfold iteration. rewrite Hfetch.
  pose proof (addItems_firstEncounters opts pitems _ _ _ Hits Hseen)
    as [Hits' _].
  assert (acc = (addItems opts (seen st, items st) pitems).2) as ->.
  { unfold acc, calls'. by rewrite itemsOf_snoc. }
  assert (Z.of_nat (length calls') = pagesFetched st + 1) as ->.
  { unfold calls'. rewrite length_app. simpl. lia. }
  destruct (addItems opts (seen st, items st) pitems) as [sn its]. simpl.
  destruct (negb (truthy pc) || bool_decide (pc = cur st)); [done|].
  destruct (maxPages opts) as [limit|]; [|done].
  by destruct (limit <=? pagesFetched st + 1).
Qed.

(** Under a page limit a call that returns has made no more fetches than
    the limit allows. *)
Lemma loop_within_limit fuel opts st w calls c w' calls' limit :
  maxPages opts = Some limit →
  tracks opts st calls →
  Z.of_nat (length calls) < limit →
  paginateLoop fuel (recording opts) st (w, calls) = Some (c, (w', calls')) →
  Z.of_nat (length calls') ≤ limit.
Proof.
  intros Hmax. revert st w calls.
  induction fuel as [|fuel IH]; intros st w calls Htr Hlt; [done|].
  simpl. rewrite iteration_recording.
  destruct (iteration opts st w) as [[[r|st']|e] w1] eqn:Hit; simpl.
  - intros [= <- <- <-]. rewrite length_app. simpl. lia.
  - destruct (tracks_turn opts st w calls st' w1 Htr Hit) as [Htr' _].
    pose proof (turn_below_limit _ _ _ _ _ _ Hmax Hit) as Hbelow.
    destruct Htr as (_ & _ & _ & Hn).
    apply IH; [done|]. rewrite length_app. simpl. lia.
  - intros [= <- <- <-]. rewrite length_app. simpl. lia.
Qed.

End PaginatorProperties.

Section PaginatorClaims.
Import Paginator.
Context {T W : Type}.
Implicit Types (opts : Opts T W) (st : PaginationState T) (w : W).
Implicit Types (calls : list (Call T)).

(** C1. Whatever pages the fetches gave, the items a call of
    [paginateCursor] returns hold no two items with the same identity key,
    and they are the items of the fetched pages in first-encounter order:
    an item is returned exactly when it sits at a position of the page
    stream that no item with the same key precedes, and what had been
    accumulated after any number of pages stays in front, unmoved, when
    later pages bring the same keys again. *)
Theorem paginate_first_encounter fuel opts w r w' calls l :
  paginateCursor fuel (recording opts) (w, []) = Some (Normal r, (w', calls)) →
  resultItems r = Some l →
  NoDup (getKey opts <$> l)
  ∧ l = firstEncounters (getKey opts) (itemsOf calls)
  ∧ (∀ x, x ∈ l ↔
          ∃ i, itemsOf calls !! i = Some x
               ∧ getKey opts x ∉ getKey opts <$> take i (itemsOf calls))
  ∧ ∀ n, firstEncounters (getKey opts) (itemsOf (take n calls)) `prefix_of` l.
Proof.
  intros Hrun Hl.
  rewrite (returned_items _ _ _ _ _ _ _ Hrun Hl).
  split_and!; [apply firstEncounters_NoDup|done|apply firstEncounters_elem|].
  intros n. rewrite <- (take_drop n calls) at 2.
  unfold itemsOf. rewrite bind_app. apply firstEncounters_app_prefix.
Qed.

(** C2, as amended. At any point of a call, a page that comes decides what
    happens next, by two checks in this order. (a) If the page has no
    cursor, or the cursor it was fetched by, the call returns with
    [success: true] and no [nextCursor], whether or not a page limit is
    reached. (b) Otherwise, if a page limit was supplied and the count of
    fetched pages has reached it, the call returns with [success: true] and
    that page's cursor as [nextCursor]. Otherwise the call goes on, with
    that page's cursor. Conversely the last fetched page of a call that
    returned is one that (a) or (b) stopped at. With a limit [N ≥ 1] a call
    returns after at most [N] fetches, and a [nextCursor] it hands back is
    the cursor of the [N]-th page. With a limit [N ≤ 0] a call returns after
    exactly one fetch: the limit is looked at only once a page has come. *)
Theorem paginate_termination_order opts w0 :
  (∀ st w calls pitems pc w1,
     reaches (recording opts) (w0, []) st (w, calls) →
     fetchPage opts (cur st) (pause opts st w)
       = (Normal (PageOk pitems pc), w1) →
     let calls' := calls ++ [(cur st, Normal (PageOk pitems pc))] in
     let acc := firstEncounters (getKey opts) (itemsOf calls') in
     let returns r :=
       ∃ fuel, paginateCursor fuel (recording opts) (w0, [])
               = Some (Normal r, (w1, calls')) in
     let goesOn :=
       ∃ st', reaches (recording opts) (w0, []) st' (w1, calls')
              ∧ cur st' = pc in
     if negb (truthy pc) || bool_decide (pc = cur st)
     then returns (ResOk acc None)
     else match maxPages opts with
          | Some limit =>
              if limit <=? Z.of_nat (length calls')
              then returns (ResOk acc pc)
              else goesOn
          | None => goesOn
          end)
  ∧ (∀ fuel c w' calls used pitems pc,
       paginateCursor fuel (recording opts) (w0, []) = Some (c, (w', calls)) →
       last calls = Some (used, Normal (PageOk pitems pc)) →
       let acc := firstEncounters (getKey opts) (itemsOf calls) in
       if negb (truthy pc) || bool_decide (pc = used)
       then c = Normal (ResOk acc None)
       else c = Normal (ResOk acc pc)
            ∧ ∃ limit, maxPages opts = Some limit
                       ∧ limit ≤ Z.of_nat (length calls))
  ∧ (∀ fuel limit,
       maxPages opts = Some limit → 1 ≤ limit →
       ((Z.to_nat limit ≤ fuel)%nat →
        ∃ c w' calls,
          paginateCursor fuel (recording opts) (w0, [])
            = Some (c, (w', calls)))
       ∧ ∀ c w' calls,
           paginateCursor fuel (recording opts) (w0, [])
             = Some (c, (w', calls)) →
           Z.of_nat (length calls) ≤ limit
           ∧ ∀ acc next,
               c = Normal (ResOk acc (Some next)) →
               Z.of_nat (length calls) = limit
               ∧ ∃ used pitems,
                   last calls = Some (used, Normal (PageOk pitems (Some next))))
  ∧ (∀ fuel limit,
       maxPages opts = Some limit → limit ≤ 0 → (1 ≤ fuel)%nat →
       ∃ c w' call,
         paginateCursor fuel (recording opts) (w0, [])
           = Some (c, (w', [call]))).
Proof.
  split_and!.
  - intros st w calls pitems pc w1 Hreach Hfetch calls' acc returns goesOn.
    pose proof (reaches_tracks _ _ _ _ _ Hreach) as Htr.
    pose proof (iteration_page opts st w calls pitems pc w1 Htr Hfetch) as Hit.
    cbv zeta in Hit. fold calls' in Hit. fold acc in Hit.
    assert (iteration (recording opts) st (w, calls)
            = ((iteration opts st w).1, (w1, calls'))) as Hrec.
    { rewrite iteration_recording, Hfetch. f_equal. f_equal.
      rewrite Hit. by repeat case_match. }
    assert (∀ r, (iteration opts st w).1 = Normal (inl r) → returns r)
      as Hreturns.
    { intros r Hr.
      destruct (reaches_loop _ _ _ _ Hreach 1%nat) as [n Hn].
      exists (n + 1)%nat. rewrite Hn. simpl. by rewrite Hrec, Hr. }
    assert (∀ st', (iteration opts st w).1 = Normal (inr st') →
                   cur st' = pc → goesOn) as HgoesOn.
    { intros st' Hst' Hcur. exists st'. split; [|done].
      eapply reaches_turn; [exact Hreach|]. by rewrite Hrec, Hst'. }
    destruct (negb (truthy pc) || bool_decide (pc = cur st)).
    { apply Hreturns. by rewrite Hit. }
    destruct (maxPages opts) as [limit|].
    + destruct (limit <=? Z.of_nat (length calls')).
      * apply Hreturns. by rewrite Hit.
      * eapply HgoesOn; [by rewrite Hit|done].
    + eapply HgoesOn; [by rewrite Hit|done].
  - intros fuel c w' calls used pitems pc Hrun Hlast.
    apply (loop_recorded _ _ _ _ _ _ _ _ (tracks_initial opts)) in Hrun
      as [(before & used' & p & -> & _ & Hv) _].
    rewrite last_snoc in Hlast. injection Hlast as -> ->. exact Hv.
  - intros fuel limit Hmax Hpos. split.
    + intros Hfuel.
      destruct (loop_bounded fuel opts (initial opts) w0 [] limit Hmax)
        as (c & w' & calls & Hrun & _);
        [apply tracks_initial|simpl; lia|simpl; by rewrite Z.sub_0_r|].
      by exists c, w', calls.
    + intros c w' calls Hrun.
      assert (Z.of_nat (length calls) ≤ limit) as Hle.
      { apply (loop_within_limit fuel opts (initial opts) w0 [] c w' calls
                 limit Hmax (tracks_initial opts)); [simpl; lia|done]. }
      split; [done|]. intros acc next ->.
      apply (loop_recorded _ _ _ _ _ _ _ _ (tracks_initial opts)) in Hrun
        as [(before & used & p & -> & _ & Hv) _].
      simpl in Hv. destruct p as [[pitems pc|e]|e]; [| |done].
      2: { destruct (firstEncounters _ _); by injection Hv. }
      destruct (negb (truthy pc) || bool_decide (pc = used)).
      { by injection Hv. }
      destruct Hv as [[= _ ->] (limit' & Hmax' & Hge)].
      rewrite Hmax in Hmax'. injection Hmax' as <-.
      split; [lia|]. exists used, pitems. by rewrite last_snoc.
  - intros fuel limit Hmax Hneg Hfuel.
    destruct fuel as [|fuel]; [lia|].
    unfold paginateCursor.
    change (initial (recording opts)) with (initial opts).
    simpl. rewrite iteration_recording.
    destruct (iteration opts (initial opts) w0) as [[[r|st']|e] w1] eqn:Hit;
      simpl.
    + by eexists _, _, _.
    + pose proof (turn_below_limit _ _ _ _ _ _ Hmax Hit) as Hbelow.
      simpl in Hbelow. lia.
    + by eexists _, _, _.
Qed.

(** C4. At any point of a call, with [items st] accumulated so far, a page
    fetch that fails makes the call return: with at least one accumulated
    item, [success: false] with the page's error, the partial items and
    the cursor the failing fetch used as [nextCursor]; with none, the
    page's failure as it is, without items or cursor. *)
Theorem page_failure opts w0 st w e w1 :
  reaches opts w0 st w →
  fetchPage opts (cur st) (pause opts st w) = (Normal (PageErr e), w1) →
  ∃ fuel,
    paginateCursor fuel opts w0 =
    Some (Normal (match items st with
                  | [] => ResErr e None None
                  | _ :: _ => ResErr e (Some (items st)) (cur st)
                  end), w1).
Proof.
  intros Hreach Hfail.
  destruct (reaches_loop _ _ _ _ Hreach 1%nat) as [n Hn].
  exists (n + 1)%nat. rewrite Hn. simpl. unfold iteration.
  rewrite Hfail, nonempty_length. by destruct (items st).
Qed.

End PaginatorClaims.

(** ** The list timeline *)
Section ListTimelineClaims.
Import Paginator.
Context {T W : Type}.
Implicit Types (opts : Opts T W) (st : PaginationState T) (w : W).

(** A page that yields only already-seen items adds nothing. *)
Lemma addItems_onlySeen opts st (page : list T) :
  Lists.onlySeen opts st page = true →
  addItems opts (seen st, items st) page = (seen st, items st).
Proof.
  unfold Lists.onlySeen, addItems.
  induction page as [|x page IH]; [done|]. simpl.
  intros [Hx Hrest]%andb_true_iff. apply bool_decide_eq_true in Hx.
  unfold addItem at 2. simpl. rewrite decide_True by done. by apply IH.
Qed.

(** A turn of the list timeline's loop under the spy is the same turn, with
    one more call on record. *)
Lemma lists_iteration_recording opts st w (calls : list (Call T)) :
  Lists.iteration (recording opts) st (w, calls) =
  ((Lists.iteration opts st w).1,
   ((Lists.iteration opts st w).2,
    calls ++ [(cur st, (fetchPage opts (cur st) (pause opts st w)).1)])).
Proof.
  unfold Lists.iteration.
  assert (pause (recording opts) st (w, calls) = (pause opts st w, calls))
    as -> by (unfold pause; simpl; by destruct (_ && _)).
  change (Lists.onlySeen (recording opts)) with (Lists.onlySeen opts).
  simpl.
  destruct (fetchPage opts (cur st) (pause opts st w)) as [[[pitems pc|e]|e] w1];
    simpl; try done.
  - destruct (addItems _ _ _) as [sn its].
    destruct (negb (truthy pc) || bool_decide (pc = cur st)
              || Lists.onlySeen opts st pitems); [done|].
    destruct (maxPages opts) as [limit|]; [|done].
    by destruct (limit <=? _).
  - by destruct (0 <? _).
Qed.

(** C3. In scenario B (a first page with one tweet and the cursor "p2", a
    second page with the same tweet again and the fresh cursor "p3", no
    page limit below two) the pagination of the list timeline stops after
    the second page, which added nothing new: two fetches are made, and the
    result is [success: true] with the one tweet and no [nextCursor]. The
    check is one of its own next to the repeated-cursor check: at any point
    of a call, a page of already-seen items only ends the pagination
    without a [nextCursor], whatever cursor the page carries. *)
Theorem list_timeline_stops_on_duplicates opts w d d' w1 w2 fuel :
  cursor opts = None →
  (∀ limit, maxPages opts = Some limit → 2 ≤ limit) →
  fetchPage opts None w = (Normal (PageOk [d] (Some "p2")), w1) →
  fetchPage opts (Some "p2") (courtesyDelay opts w1)
    = (Normal (PageOk [d'] (Some "p3")), w2) →
  getKey opts d' = getKey opts d →
  (2 ≤ fuel)%nat →
  Lists.getAllListTimeline fuel (recording opts) (w, [])
  = Some (Normal (ResOk [d] None),
          (w2, [(None, Normal (PageOk [d] (Some "p2")));
                (Some "p2", Normal (PageOk [d'] (Some "p3")))]))
  ∧ ∀ st w pitems pc w',
      fetchPage opts (cur st) (pause opts st w)
        = (Normal (PageOk pitems pc), w') →
      (∀ x, x ∈ pitems → getKey opts x ∈ seen st) →
      Lists.iteration opts st w = (Normal (inl (ResOk (items st) None)), w').
Proof.
  intros Hcur Hlimit Hp1 Hp2 Hkey Hfuel. split.
  - set (st1 := {| seen := {[getKey opts d]} ∪ ∅; items := [d];
                   cur := Some "p2"; pagesFetched := 1 |}).
    assert (Lists.iteration opts (initial opts) w = (Normal (inr st1), w1))
      as Hturn1.
    { unfold Lists.iteration. rewrite pause_first by done. simpl.
      rewrite Hcur, Hp1. unfold addItems, addItem. simpl.
      rewrite decide_False by set_solver.
      rewrite bool_decide_eq_false_2 by set_solver. simpl.
      destruct (maxPages opts) as [limit|] eqn:Hmax; [|done].
      pose proof (Hlimit limit eq_refl) as Hle.
      change (0 + 1) with 1.
      by rewrite (proj2 (Z.leb_gt limit 1)) by lia. }
    assert (Lists.iteration opts st1 w1 = (Normal (inl (ResOk [d] None)), w2))
      as Hturn2.
    { assert (Lists.onlySeen opts st1 [d'] = true) as Hseen.
      { simpl. rewrite Hkey, bool_decide_eq_true_2; [done|set_solver]. }
      unfold Lists.iteration. rewrite pause_later by done.
      change (cur st1) with (Some "p2"). rewrite Hp2.
      rewrite (addItems_onlySeen opts st1 [d'] Hseen), Hseen.
      by rewrite orb_true_r. }
    destruct fuel as [|[|fuel]]; [lia..|].
    unfold Lists.getAllListTimeline.
    change (initial (recording opts)) with (initial opts).
    simpl. rewrite lists_iteration_recording, Hturn1. simpl.
    rewrite lists_iteration_recording, Hturn2. simpl.
    rewrite pause_first by done. rewrite pause_later by done.
    by rewrite Hcur, Hp1, Hp2.
  - intros st w' pitems pc w'' Hfetch Hall.
    assert (Lists.onlySeen opts st pitems = true) as Hseen.
    { unfold Lists.onlySeen. apply forallb_forall. intros x Hx.
      apply bool_decide_eq_true. apply Hall. by apply list_elem_of_In. }
    unfold Lists.iteration. rewrite Hfetch.
    rewrite (addItems_onlySeen opts st pitems Hseen), Hseen.
    by rewrite orb_true_r.
Qed.

End ListTimelineClaims.

(** ** The paginator on the scenarios *)
Section PaginatorRuns.
Import Paginator Scenario.

Lemma paginate_first_encounter_witness :
  NoDup (tweetId <$> [dup; fresh; ("late", "Last")])
  ∧ [dup; fresh; ("late", "Last")]
      = firstEncounters tweetId (itemsOf callsOverlap)
  ∧ (∀ x, x ∈ [dup; fresh; ("late", "Last")] ↔
          ∃ i, itemsOf callsOverlap !! i = Some x
               ∧ tweetId x ∉ tweetId <$> take i (itemsOf callsOverlap))
  ∧ ∀ n, firstEncounters tweetId (itemsOf (take n callsOverlap))
           `prefix_of` [dup; fresh; ("late", "Last")].
Proof.
  apply (paginate_first_encounter 5
           (scriptedOpts tweetId None None pagesOverlap) 0%nat
           (ResOk [dup; fresh; ("late", "Last")] None) 2%nat callsOverlap);
    vm_compute; reflexivity.
Defined.

Lemma paginate_termination_order_witness :
  (∃ fuel, run (Some 1) pagesB fuel
           = Some (Normal (ResOk [dup] (Some "p2")), (1%nat, take 1 callsB)))
  ∧ (∃ c w' calls, run (Some 2) pagesB 2 = Some (c, (w', calls)))
  ∧ (Z.of_nat (length (take 2 callsB)) ≤ 2
     ∧ ∀ acc next,
         Normal (ResOk [dup] (Some "p3")) = Normal (ResOk acc (Some next)) →
         Z.of_nat (length (take 2 callsB)) = 2
         ∧ ∃ used pitems,
             last (take 2 callsB)
             = Some (used, Normal (PageOk pitems (Some next))))
  ∧ ∃ c w' call, run (Some (-1)) pagesB 1 = Some (c, (w', [call])).
Proof.
  split; [|split; [|split]].
  - exact (proj1 (paginate_termination_order
                    (scriptedOpts tweetId None (Some 1) pagesB) 0%nat)
             (initial (scriptedOpts tweetId None (Some 1) pagesB)) 0%nat []
             [dup] (Some "p2") 1%nat (reaches_initial _ _) eq_refl).
  - apply (proj1 (proj2 (proj2 (paginate_termination_order
                    (scriptedOpts tweetId None (Some 2) pagesB) 0%nat))) 2%nat 2);
      [reflexivity|lia|simpl; lia].
  - apply (proj2 (proj1 (proj2 (proj2 (paginate_termination_order
                    (scriptedOpts tweetId None (Some 2) pagesB) 0%nat))) 2%nat 2
                    eq_refl ltac:(lia))
             (Normal (ResOk [dup] (Some "p3"))) 2%nat).
    vm_compute; reflexivity.
  - apply (proj2 (proj2 (proj2 (paginate_termination_order
                    (scriptedOpts tweetId None (Some (-1)) pagesB) 0%nat)))
             1%nat (-1)); [reflexivity|lia|lia].
Defined.

(** A page limit of zero does not keep the first page from being fetched:
    one fetch is made, which is more than the limit. *)
Lemma page_limit_zero_still_fetches :
  run (Some 0) pagesB 1
    = Some (Normal (ResOk [dup] (Some "p2")), (1%nat, take 1 callsB))
  ∧ ¬ (Z.of_nat (length (take 1 callsB)) ≤ 0).
Proof. split; [vm_compute; reflexivity|simpl; lia]. Qed.

(** The generic paginator has the repeated-cursor check only. On the pages
    of scenario B, continued by a third page, [paginateCursor] does not end
    after the second page: the third page is fetched and its tweet
    returned. *)
Remark paginateCursor_goes_on_after_duplicates :
  run None pagesB 3 = Some (Normal (ResOk [dup; fresh] None), (3%nat, callsB))
  ∧ ∀ fuel w, run None pagesB fuel ≠ Some (Normal (ResOk [dup] None), w).
Proof.
  split; [vm_compute; reflexivity|].
  intros [|[|[|fuel]]] w; vm_compute; discriminate.
Qed.

Lemma list_timeline_stops_on_duplicates_witness :
  Lists.getAllListTimeline 5
    (recording (scriptedOpts tweetId None None pagesB)) (0%nat, [])
  = Some (Normal (ResOk [dup] None), (2%nat, take 2 callsB)).
Proof.
  apply (proj1 (list_timeline_stops_on_duplicates
                  (scriptedOpts tweetId None None pagesB) 0%nat dup dupAgain
                  1%nat 2%nat 5 eq_refl ltac:(by intros limit [=])
                  eq_refl eq_refl eq_refl ltac:(lia))).
Defined.

Lemma page_failure_witness :
  ∃ fuel,
    paginateCursor fuel (scriptedOpts tweetId None None pagesFail) 0%nat
    = Some (Normal (ResErr "HTTP 500: boom" (Some [dup]) (Some "p2")), 2%nat).
Proof.
  apply (page_failure (scriptedOpts tweetId None None pagesFail) 0%nat
           afterFirstPage 1%nat "HTTP 500: boom" 2%nat).
  - eapply reaches_turn; [apply reaches_initial|]. reflexivity.
  - reflexivity.
Defined.

End PaginatorRuns.

(** ** The client *)
Section ClientProperties.
Import Client.
Context `{Env}.

Lemma getQueryId_run (op : string) (w : World) :
  getQueryId op w = (Normal (resolved w op), w).
Proof. reflexivity. Qed.

Lemma getHeaders_run (w : World) : getHeaders w = (Normal (jsonHeadersOf w), w).
Proof. reflexivity. Qed.

Lemma composeHeaders_run (w : World) :
  composeHeaders w =
  (Normal (withReferer "https://x.com/compose/post" (jsonHeadersOf w)), w).
Proof. reflexivity. Qed.

Lemma fetchWithTimeout_run url method headers body (w : World) :
  fetchWithTimeout url method headers body w =
  (net (trace w) (requestOf w url method headers body),
   sent (requestOf w url method headers body) w).
Proof. reflexivity. Qed.

Lemma refreshQueryIds_run (w : World) :
  refreshQueryIds w = (Normal tt, refreshed w).
Proof.
  unfold refreshed, refreshQueryIds, bind, emit, get, tryCatch, await. simpl.
  destruct (nodeEnvTest w); [done|].
  by destruct (refresh (runtimeQueryIds w)).
Qed.

Lemma trace_refreshed (w : World) :
  trace (refreshed w) = trace w ++ [EvRefreshQueryIds].
Proof.
  unfold refreshed, refreshQueryIds, bind, emit, get, tryCatch, await. simpl.
  destruct (nodeEnvTest w); [done|].
  by destruct (refresh (runtimeQueryIds w)).
Qed.

Lemma this_refreshed (w : World) : this (refreshed w) = this w.
Proof.
  unfold refreshed, refreshQueryIds, bind, emit, get, tryCatch, await. simpl.
  destruct (nodeEnvTest w); [done|].
  by destruct (refresh (runtimeQueryIds w)).
Qed.

(** The events a recovery adds are the ones the policy lists. *)
Lemma recoveryPolicy_trace mk op (w : World) :
  trace (recoveryPolicy mk op w).2
  = trace w ++ (recoveryPolicy mk op w).1.1.
Proof.
  unfold recoveryPolicy.
  destruct (is404 _); [|done].
  destruct (is404 _); simpl; rewrite trace_refreshed; simpl;
    by rewrite <- !app_assoc.
Qed.

Lemma is404_Normal (response : Response) :
  is404 (Normal response) = (status response =? 404).
Proof. done. Qed.

(** [performEngagementMutation] follows the policy: an attempt that threw is
    caught, and the response the attempts ended with is parsed once the
    [try] block is left. *)
Lemma performEngagementMutation_policy op tweetId (w : World) :
  performEngagementMutation op tweetId w =
  match (recoveryPolicy (mutationRequest tweetId) op w).1.2 with
  | Normal response =>
      parseResponse response (recoveryPolicy (mutationRequest tweetId) op w).2
  | Abrupt error =>
      (Normal (MutationFail error),
       (recoveryPolicy (mutationRequest tweetId) op w).2)
  end.
Proof.
  unfold recoveryPolicy.
  cbv [performEngagementMutation bind tryCatch ret get emit await getQueryId
       runtimeQueryIds_getQueryId getHeaders getJsonHeaders getBaseHeaders
       fetchWithTimeout mutationRequest jsonHeadersOf resolved sent is404].
  destruct (net _ _) as [resp1|e]; [|reflexivity].
  destruct (status resp1 =? 404); [|reflexivity].
  rewrite refreshQueryIds_run.
  destruct (net _ _) as [resp2|e]; [|reflexivity].
  destruct (status resp2 =? 404); [|reflexivity].
  by destruct (net _ _).
Qed.

(** Parsing a response leaves the world as it is. *)
Lemma parseResponse_world response (w : World) :
  (parseResponse response w).2 = w.
Proof.
  cbv [parseResponse bind await ret].
  destruct (negb (ok response)); [by destruct (text response)|].
  destruct (json response) as [data|e]; [|done].
  by destruct (errors data) as [[|]|].
Qed.

(** The two copies of the classification code differ by log lines only. *)
Lemma settle_logged logged variables response (w : World) :
  settle logged variables response w = settle false variables response w.
Proof.
  destruct logged; [|done].
  cbv [settle logger bind ret await].
  destruct (ok response); simpl; [|done].
  destruct (json response) as [data|e]; [|done].
  destruct (errors data) as [[|e es]|];
    by try destruct (truthy (extractTweetIdFromResponse data)).
Qed.

(** [createTweet] follows the policy, and classifies what the last attempt
    came to. *)
Lemma createTweet_policy logged variables (w w0 : World) :
  ensureClientUserId w = (Normal tt, w0) →
  createTweet variables w =
  tryCatch
    (let* response :=
       await (recoveryPolicy (createRequest variables) "CreateTweet" w0).1.2 in
     settle logged variables response)
    (λ error, ret (TweetFail error))
    (recoveryPolicy (createRequest variables) "CreateTweet" w0).2.
Proof.
  intros Hensure. unfold recoveryPolicy.
  cbv [createTweet logger bind tryCatch ret get emit await getQueryId
       runtimeQueryIds_getQueryId composeHeaders getHeaders getJsonHeaders
       getBaseHeaders fetchWithTimeout createRequest jsonHeadersOf resolved
       sent is404].
  rewrite Hensure.
  destruct (net _ _) as [resp1|e]; [|reflexivity].
  destruct (status resp1 =? 404); cbv [fst snd].
  2: { by rewrite (settle_logged true), (settle_logged logged). }
  rewrite refreshQueryIds_run.
  destruct (net _ _) as [resp2|e]; [|reflexivity].
  destruct (status resp2 =? 404); cbv [fst snd].
  2: { by rewrite (settle_logged true), (settle_logged logged). }
  destruct (net _ _) as [resp3|e]; [|reflexivity].
  by rewrite (settle_logged logged).
Qed.

Lemma recoveryPolicy_urls mk op (w : World) (r : Request) :
  (∀ w' target q, url (mk w' target q) = target) →
  EvFetch r ∈ (recoveryPolicy mk op w).1.1 → url r ≠ StatusUpdateUrl.
Proof.
  intros Hmk. unfold recoveryPolicy.
  destruct (is404 _); [destruct (is404 _)|]; simpl;
    rewrite ?elem_of_cons, elem_of_nil;
    intros Hr; destruct_or!; try done; simplify_eq; by rewrite Hmk.
Qed.

(** The legacy write sends one request, and never throws. *)
Lemma postStatusUpdate_run input (w : World) :
  ∃ result,
    postStatusUpdate input w =
    (Normal result, sent (statusUpdateRequest input w) w).
Proof.
  cbv [postStatusUpdate bind tryCatch ret get emit await getBaseHeaders
       fetchWithTimeout statusUpdateRequest sent].
  destruct (net _ _) as [response|e]; [|by eexists].
  destruct (negb (ok response)).
  { destruct (text response); by eexists. }
  destruct (json response) as [data|e]; [|by eexists].
  destruct (errors data) as [[|e es]|]; try by eexists.
  all: destruct (truthy _); by eexists.
Qed.

(** The verification re-fetch reads the user's timeline with GET requests
    only, and never throws. *)
Lemma verifyTweetByFetching_run text (w : World) :
  ∃ found more,
    verifyTweetByFetching text w = (Normal found, (verifyTweetByFetching text w).2)
    ∧ trace (verifyTweetByFetching text w).2 = trace w ++ more
    ∧ ∀ r, EvFetch r ∈ more → method r = GET ∧ url r ≠ StatusUpdateUrl.
Proof.
  cbv [verifyTweetByFetching bind tryCatch ret get emit await sleep getQueryId
       runtimeQueryIds_getQueryId getHeaders getJsonHeaders getBaseHeaders
       fetchWithTimeout].
  destruct (negb (truthy (this_clientUserId (this w)))).
  { exists None, []. simpl. rewrite app_nil_r. split_and!; [done..|].
    by intros r ?%elem_of_nil. }
  set (r1 := requestOf _ _ _ _ _).
  assert (∀ r, EvFetch r ∈ [EvSleep 1500; EvFetch r1]
               → method r = GET ∧ url r ≠ StatusUpdateUrl) as Hone.
  { intros r. rewrite !elem_of_cons, elem_of_nil.
    intros Hr; destruct_or!; simplify_eq; by split. }
  destruct (net _ r1) as [response|e]; simpl.
  2: { exists None, [EvSleep 1500; EvFetch r1].
       rewrite <- !app_assoc. by split_and!. }
  destruct (negb (ok response)); simpl.
  { exists None, [EvSleep 1500; EvFetch r1].
    rewrite <- !app_assoc. by split_and!. }
  destruct (json response) as [data|e]; simpl.
  2: { exists None, [EvSleep 1500; EvFetch r1].
       rewrite <- !app_assoc. by split_and!. }
  destruct (truthy (findMatch _ _ (timeline data))); simpl.
  { eexists _, [EvSleep 1500; EvFetch r1].
    rewrite <- !app_assoc. by split_and!. }
  set (r2 := requestOf _ _ _ _ _).
  assert (∀ r, EvFetch r ∈ [EvSleep 1500; EvFetch r1; EvSleep 1500; EvFetch r2]
               → method r = GET ∧ url r ≠ StatusUpdateUrl) as Htwo.
  { intros r. rewrite !elem_of_cons, elem_of_nil.
    intros Hr; destruct_or!; simplify_eq; by split. }
  destruct (net _ r2) as [retryResponse|e]; simpl.
  2: { exists None, [EvSleep 1500; EvFetch r1; EvSleep 1500; EvFetch r2].
       rewrite <- !app_assoc. by split_and!. }
  destruct (ok retryResponse); simpl.
  2: { exists None, [EvSleep 1500; EvFetch r1; EvSleep 1500; EvFetch r2].
       rewrite <- !app_assoc. by split_and!. }
  destruct (json retryResponse) as [retryData|e]; simpl.
  2: { exists None, [EvSleep 1500; EvFetch r1; EvSleep 1500; EvFetch r2].
       rewrite <- !app_assoc. by split_and!. }
  destruct (truthy (findMatch _ _ (timeline retryData))); simpl;
    eexists _, [EvSleep 1500; EvFetch r1; EvSleep 1500; EvFetch r2];
    rewrite <- !app_assoc; by split_and!.
Qed.

(** What [createTweet] does with a response adds events only, and no
    further write to a GraphQL endpoint: the re-fetches of the verification
    are GET requests, the legacy write goes to [statuses/update]. *)
Lemma settle_trace logged variables response (w : World) :
  ∃ more,
    trace (settle logged variables response w).2 = trace w ++ more
    ∧ ∀ r, EvFetch r ∈ more → method r = GET ∨ url r = StatusUpdateUrl.
Proof.
  assert (∀ w' : World, w' = w →
            ∃ more, trace w' = trace w ++ more
                    ∧ ∀ r, EvFetch r ∈ more
                           → method r = GET ∨ url r = StatusUpdateUrl) as Hstay.
  { intros w' ->. exists []. rewrite app_nil_r. split; [done|].
    by intros r ?%elem_of_nil. }
  rewrite settle_logged. cbv [settle logger bind ret await].
  destruct (negb (ok response)).
  { destruct (text response); by apply Hstay. }
  destruct (json response) as [data|e]; [|by apply Hstay].
  destruct (errors data) as [[|e es]|].
  1, 3: destruct (truthy (extractTweetIdFromResponse data));
    [by apply Hstay|];
    destruct (String.eqb (tweet_text variables) ""); [by apply Hstay|];
    destruct (verifyTweetByFetching_run (tweet_text variables) w)
      as (found & more & Hrun & Htr & Hmore);
    exists more; rewrite Hrun; (split; [by destruct (truthy found)|]);
    intros r Hr; left; by apply Hmore.
  unfold tryStatusUpdateFallback.
  destruct (negb (has226 (e :: es))); [by apply Hstay|].
  cbv [logger bind ret].
  destruct (statusUpdateInputFromCreateTweetVariables variables)
    as [input|]; [|by apply Hstay].
  destruct (postStatusUpdate_run input w) as [result Hpost].
  rewrite Hpost. exists [EvFetch (statusUpdateRequest input w)].
  split; [by destruct result|].
  intros r [= ->]%list_elem_of_singleton. by right.
Qed.

(** A tweet id that [extractTweetIdFromResponse] finds is not empty. *)
Lemma extractTweetIdFromResponse_truthy data tweetId :
  extractTweetIdFromResponse data = Some tweetId →
  truthy (extractTweetIdFromResponse data) = true.
Proof.
  unfold extractTweetIdFromResponse.
  destruct (truthy (result_rest_id data)) eqn:H1; [by rewrite H1|].
  destruct (truthy (result_tweet_rest_id data)) eqn:H2; [by rewrite H2|].
  by destruct (truthy (result_legacy_id_str data)) eqn:H3; [rewrite H3|].
Qed.

Lemma has226_nil : has226 [] = false.
Proof. done. Qed.

(** The policy makes one, two or three attempts. *)
Lemma recoveryPolicy_attempts mk op (w : World) :
  (1 ≤ fetches (recoveryPolicy mk op w).1.1 ≤ 3)%nat.
Proof.
  unfold recoveryPolicy.
  destruct (is404 _); [destruct (is404 _)|]; cbv [fst snd fetches]; simpl; lia.
Qed.

(** The fuel [uploadMedia] gives the loop of APPEND requests is enough: the
    loop ends by its own test, and more fuel changes nothing. *)
Lemma appendChunks_fuel fuel extra input mediaId offset segmentIndex (w : World) :
  (Z.to_nat (Z.of_nat (length (data input)) - offset) < fuel)%nat →
  appendChunks (fuel + extra) input mediaId offset segmentIndex w
  = appendChunks fuel input mediaId offset segmentIndex w.
Proof.
  revert offset segmentIndex w.
  induction fuel as [|fuel IH]; intros offset segmentIndex w Hfuel; [lia|].
  simpl. destruct (offset <? _) eqn:Hlt; [|done].
  apply Z.ltb_lt in Hlt.
  unfold bind. destruct (getUploadHeaders w) as [[headers|e] w1]; [|done].
  destruct (fetchWithTimeout _ _ _ _ w1) as [[appendResp|e] w2]; [|done].
  destruct (negb (ok appendResp)); [done|].
  apply IH. unfold chunkSize. lia.
Qed.

Lemma uploadMedia_fuel extra input mediaId (w : World) :
  appendChunks (S (length (data input)) + extra) input mediaId 0 0 w
  = appendChunks (S (length (data input))) input mediaId 0 0 w.
Proof. apply appendChunks_fuel. lia. Qed.

End ClientProperties.

Section ClientClaims.
Import Client.
Context `{Env}.

(** C5, as amended. [performEngagementMutation] (hence [like], [unlike],
    [retweet], [unretweet] and [bookmark]) and [createTweet] follow the
    retry/recovery policy: a first attempt at the operation's own URL; on
    HTTP 404 a forced refresh of the query IDs, the identifier resolved
    again, URL and body rebuilt, and one retry; on HTTP 404 again exactly one
    more attempt, at the generic endpoint with the same body, after which no
    attempt is retried. An engagement mutation makes no other request: an
    attempt that threw gives a failure result with the error, and otherwise
    the result is what parsing the last response gives, when parsing gives
    one. [createTweet] classifies the last response like any create-tweet
    response, and what it sends after the attempts is the legacy write or
    the GET requests of the verification. The attempts are at most three.
    In particular, when the first attempt returns HTTP 404 and the retry is
    answered by a 2xx response without errors (for [createTweet]: one that
    holds the new tweet's id), exactly two fetch attempts are on record, with
    the refresh between them, and the result is a success; when both return
    HTTP 404, a third attempt is on record. *)
Theorem write_path_recovery :
  (∀ operationName tweetId w,
     let policy := recoveryPolicy (mutationRequest tweetId) operationName w in
     (performEngagementMutation operationName tweetId w).2 = policy.2
     ∧ match policy.1.2 with
       | Abrupt error =>
           (performEngagementMutation operationName tweetId w).1
           = Normal (MutationFail error)
       | Normal response =>
           ∀ result,
             (parseResponse response policy.2).1 = Normal result →
             (performEngagementMutation operationName tweetId w).1
             = Normal result
       end)
  ∧ (∀ variables w w0,
       ensureClientUserId w = (Normal tt, w0) →
       createTweet variables w =
       tryCatch
         (let* response :=
            await (recoveryPolicy (createRequest variables) "CreateTweet" w0).1.2 in
          settle false variables response)
         (λ error, ret (TweetFail error))
         (recoveryPolicy (createRequest variables) "CreateTweet" w0).2)
  ∧ (∀ mk operationName w,
       trace (recoveryPolicy mk operationName w).2
       = trace w ++ (recoveryPolicy mk operationName w).1.1
       ∧ (1 ≤ fetches (recoveryPolicy mk operationName w).1.1 ≤ 3)%nat)
  ∧ (∀ operationName tweetId w resp1 resp2 data,
       let q1 := resolved w operationName in
       let r1 := mutationRequest tweetId w (OperationUrl q1 operationName []) q1 in
       let w1 := refreshed (sent r1 w) in
       let q2 := resolved w1 operationName in
       let r2 := mutationRequest tweetId w1 (OperationUrl q2 operationName []) q2 in
       net (trace w) r1 = Normal resp1 → status resp1 = 404 →
       net (trace w1) r2 = Normal resp2 → ok resp2 = true →
       json resp2 = Normal data → default [] (errors data) = [] →
       performEngagementMutation operationName tweetId w
         = (Normal MutationOk, sent r2 w1)
       ∧ trace (sent r2 w1)
         = trace w ++ [EvFetch r1; EvRefreshQueryIds; EvFetch r2])
  ∧ (∀ variables w w0 resp1 resp2 data tweetId,
       let q1 := resolved w0 "CreateTweet" in
       let r1 := createRequest variables w0 (OperationUrl q1 "CreateTweet" []) q1 in
       let w1 := refreshed (sent r1 w0) in
       let q2 := resolved w1 "CreateTweet" in
       let r2 := createRequest variables w1 (OperationUrl q2 "CreateTweet" []) q2 in
       ensureClientUserId w = (Normal tt, w0) →
       net (trace w0) r1 = Normal resp1 → status resp1 = 404 →
       net (trace w1) r2 = Normal resp2 → ok resp2 = true →
       json resp2 = Normal data → default [] (errors data) = [] →
       extractTweetIdFromResponse data = Some tweetId →
       createTweet variables w = (Normal (TweetOk tweetId), sent r2 w1)
       ∧ trace (sent r2 w1)
         = trace w0 ++ [EvFetch r1; EvRefreshQueryIds; EvFetch r2])
  ∧ (∀ operationName tweetId w resp1 resp2,
       let q1 := resolved w operationName in
       let r1 := mutationRequest tweetId w (OperationUrl q1 operationName []) q1 in
       let w1 := refreshed (sent r1 w) in
       let q2 := resolved w1 operationName in
       let r2 := mutationRequest tweetId w1 (OperationUrl q2 operationName []) q2 in
       let r3 := mutationRequest tweetId (sent r2 w1) GraphqlPostUrl q2 in
       net (trace w) r1 = Normal resp1 → status resp1 = 404 →
       net (trace w1) r2 = Normal resp2 → status resp2 = 404 →
       trace (performEngagementMutation operationName tweetId w).2
         = trace w ++ [EvFetch r1; EvRefreshQueryIds; EvFetch r2; EvFetch r3]
       ∧ body r3 = body r2)
  ∧ (∀ variables w w0 resp1 resp2,
       let q1 := resolved w0 "CreateTweet" in
       let r1 := createRequest variables w0 (OperationUrl q1 "CreateTweet" []) q1 in
       let w1 := refreshed (sent r1 w0) in
       let q2 := resolved w1 "CreateTweet" in
       let r2 := createRequest variables w1 (OperationUrl q2 "CreateTweet" []) q2 in
       let r3 := createRequest variables (sent r2 w1) GraphqlPostUrl q2 in
       ensureClientUserId w = (Normal tt, w0) →
       net (trace w0) r1 = Normal resp1 → status resp1 = 404 →
       net (trace w1) r2 = Normal resp2 → status resp2 = 404 →
       body r3 = body r2
       ∧ ∃ more,
           trace (createTweet variables w).2
           = trace w0
             ++ [EvFetch r1; EvRefreshQueryIds; EvFetch r2; EvFetch r3] ++ more
           ∧ ∀ r, EvFetch r ∈ more
                  → method r = GET ∨ url r = StatusUpdateUrl).
Proof.
  split_and!.
  - intros op tweetId w policy. unfold policy.
    rewrite performEngagementMutation_policy.
    destruct (recoveryPolicy _ _ _).1.2 as [response|error]; [|done].
    split; [apply parseResponse_world|].
    intros result Hresult. exact Hresult.
  - intros variables w w0. apply createTweet_policy.
  - intros mk operationName w. split;
      [apply recoveryPolicy_trace|apply recoveryPolicy_attempts].
  - intros op tweetId w resp1 resp2 data q1 r1 w1 q2 r2 H1 Hs1 H2 Hok Hjson Herr.
    rewrite performEngagementMutation_policy. unfold recoveryPolicy.
    fold q1 r1. rewrite H1, is404_Normal, Hs1. simpl.
    fold w1 q2 r2. rewrite H2, is404_Normal.
    assert ((status resp2 =? 404) = false) as ->.
    { unfold ok in Hok. apply andb_true_iff in Hok as [_ Hle%Z.leb_le].
      apply Z.eqb_neq. lia. }
    simpl. split.
    + cbv [bind await parseResponse ret]. rewrite Hok, Hjson. simpl.
      by destruct (errors data) as [[|]|].
    + unfold sent, after. simpl. unfold w1. rewrite trace_refreshed. simpl.
      by rewrite <- !app_assoc.
  - intros variables w w0 resp1 resp2 data tweetId q1 r1 w1 q2 r2
      Hensure H1 Hs1 H2 Hok Hjson Herr Hid.
    rewrite (createTweet_policy false variables w w0 Hensure).
    unfold recoveryPolicy.
    fold q1 r1. rewrite H1, is404_Normal, Hs1. simpl.
    fold w1 q2 r2. rewrite H2, is404_Normal.
    assert ((status resp2 =? 404) = false) as ->.
    { unfold ok in Hok. apply andb_true_iff in Hok as [_ Hle%Z.leb_le].
      apply Z.eqb_neq. lia. }
    simpl. split.
    + cbv [tryCatch bind await settle ret logger]. rewrite Hok, Hjson. simpl.
      pose proof (extractTweetIdFromResponse_truthy _ _ Hid) as Htruthy.
      destruct (errors data) as [[|]|]; [|done|];
        by rewrite Htruthy, Hid.
    + unfold sent, after. simpl. unfold w1. rewrite trace_refreshed. simpl.
      by rewrite <- !app_assoc.
  - intros op tweetId w resp1 resp2 q1 r1 w1 q2 r2 r3 H1 Hs1 H2 Hs2.
    rewrite performEngagementMutation_policy. unfold recoveryPolicy.
    fold q1 r1. rewrite H1, is404_Normal, Hs1. simpl.
    fold w1 q2 r2. rewrite H2, is404_Normal, Hs2. simpl. fold r3.
    split; [|done].
    assert (trace (sent r3 (sent r2 w1))
            = trace w ++ [EvFetch r1; EvRefreshQueryIds; EvFetch r2; EvFetch r3])
      as <-.
    { unfold sent, after. simpl. unfold w1. rewrite trace_refreshed. simpl.
      by rewrite <- !app_assoc. }
    destruct (net _ r3) as [resp3|e]; [|done].
    by rewrite parseResponse_world.
  - intros variables w w0 resp1 resp2 q1 r1 w1 q2 r2 r3
      Hensure H1 Hs1 H2 Hs2.
    split; [done|].
    rewrite (createTweet_policy false variables w w0 Hensure).
    unfold recoveryPolicy.
    fold q1 r1. rewrite H1, is404_Normal, Hs1. simpl.
    fold w1 q2 r2. rewrite H2, is404_Normal, Hs2. simpl. fold r3.
    assert (trace (sent r3 (sent r2 w1))
            = trace w0 ++ [EvFetch r1; EvRefreshQueryIds; EvFetch r2; EvFetch r3])
      as Hsent.
    { unfold sent, after. simpl. unfold w1. rewrite trace_refreshed. simpl.
      by rewrite <- !app_assoc. }
    cbv [tryCatch bind await].
    destruct (net _ r3) as [resp3|e].
    + destruct (settle_trace false variables resp3 (sent r3 (sent r2 w1)))
        as (more & Htr & Hmore).
      exists more. split; [|done].
      change (EvFetch r1 :: EvRefreshQueryIds :: EvFetch r2 :: EvFetch r3
                :: more)
        with ([EvFetch r1; EvRefreshQueryIds; EvFetch r2; EvFetch r3] ++ more).
      rewrite app_assoc, <- Hsent, <- Htr.
      by destruct (settle false variables resp3 _) as [[?|?] ?].
    + exists []. split; [|by intros r ?%elem_of_nil].
      exact Hsent.
Qed.

(** C6, as amended. Let the last attempt of a [createTweet] call be answered
    by a 2xx response whose JSON body has an error list with an error of code
    226. If the tweet text is not empty, the legacy [statuses/update] write is
    invoked exactly once, with one request: when it succeeds the call
    succeeds with its tweet id, and when it fails the call fails with the
    GraphQL errors and the fallback error concatenated. If the tweet text is
    empty, the fallback is skipped: the call fails with the GraphQL errors
    and sends nothing after the attempts. A response that is not 2xx is
    reported as an HTTP error, whatever its body holds, and nothing is sent
    after the attempts. When the last attempt does not come to a 2xx
    response with an error of code 226, no request goes to
    [statuses/update] at all. *)
Theorem create_tweet_226_fallback variables w w0 evs last w' :
  ensureClientUserId w = (Normal tt, w0) →
  recoveryPolicy (createRequest variables) "CreateTweet" w0 = (evs, last, w') →
  (∀ response data errs,
     last = Normal response → ok response = true →
     json response = Normal data → errors data = Some errs →
     has226 errs = true → tweet_text variables ≠ "" →
     ∃ input result,
       statusUpdateInputFromCreateTweetVariables variables = Some input
       ∧ postStatusUpdate input w'
         = (Normal result, sent (statusUpdateRequest input w') w')
       ∧ createTweet variables w =
         (Normal match result with
                 | TweetOk tweetId => TweetOk tweetId
                 | TweetFail error =>
                     TweetFail (formatErrors errs +:+ " | fallback: " +:+ error)
                 end,
          sent (statusUpdateRequest input w') w'))
  ∧ (∀ response data errs,
       last = Normal response → ok response = true →
       json response = Normal data → errors data = Some errs →
       has226 errs = true → tweet_text variables = "" →
       createTweet variables w = (Normal (TweetFail (formatErrors errs)), w'))
  ∧ (∀ response t,
       last = Normal response → ok response = false →
       text response = Normal t →
       createTweet variables w
       = (Normal (TweetFail (httpError response t)), w'))
  ∧ (carries226 last = false →
     ∃ more,
       trace (createTweet variables w).2 = trace w0 ++ evs ++ more
       ∧ ∀ r, EvFetch r ∈ evs ++ more → url r ≠ StatusUpdateUrl).
Proof.
  intros Hensure Hpolicy.
  pose proof (createTweet_policy false variables w w0 Hensure) as Hcreate.
  pose proof (recoveryPolicy_trace (createRequest variables) "CreateTweet" w0)
    as Htrace.
  assert (∀ r, EvFetch r ∈ evs → url r ≠ StatusUpdateUrl) as Hurls.
  { intros r Hr.
    apply (recoveryPolicy_urls (createRequest variables) "CreateTweet" w0);
      [done|by rewrite Hpolicy]. }
  rewrite Hpolicy in Hcreate, Htrace. simpl in Hcreate, Htrace.
  split_and!.
  - intros response data errs -> Hok Hjson Herrs H226 Htext.
    destruct errs as [|e es]; [done|].
    assert (statusUpdateInputFromCreateTweetVariables variables
            = Some {| su_text := tweet_text variables;
                      su_inReplyToTweetId := in_reply_to_tweet_id variables;
                      su_mediaIds :=
                        if 0 <? Z.of_nat (length (media_ids variables))
                        then Some (media_ids variables) else None |}) as Hinput.
    { unfold statusUpdateInputFromCreateTweetVariables.
      by rewrite (proj2 (String.eqb_neq _ _) Htext). }
    destruct (postStatusUpdate_run
                {| su_text := tweet_text variables;
                   su_inReplyToTweetId := in_reply_to_tweet_id variables;
                   su_mediaIds :=
                     if 0 <? Z.of_nat (length (media_ids variables))
                     then Some (media_ids variables) else None |} w')
      as [result Hpost].
    eexists _, result. split_and!; [exact Hinput|exact Hpost|].
    rewrite Hcreate.
    cbv [tryCatch bind await settle ret logger tryStatusUpdateFallback].
    rewrite Hok, Hjson, Herrs, H226, Hinput. simpl. rewrite Hpost.
    by destruct result.
  - intros response data errs -> Hok Hjson Herrs H226 Htext.
    destruct errs as [|e es]; [done|].
    rewrite Hcreate.
    cbv [tryCatch bind await settle ret logger tryStatusUpdateFallback
         statusUpdateInputFromCreateTweetVariables].
    by rewrite Hok, Hjson, Herrs, H226, Htext.
  - intros response t -> Hok Htext.
    rewrite Hcreate. cbv [tryCatch bind await settle ret logger].
    by rewrite Hok, Htext.
  - intros Hno.
    destruct last as [response|e].
    2: { rewrite Hcreate. exists []. rewrite !app_nil_r. by split. }
    destruct (settle_trace false variables response w')
      as (more & Htr & Hmore).
    exists more. split.
    { rewrite Hcreate. cbv [tryCatch bind await].
      rewrite app_assoc, <- Htrace, <- Htr.
      by destruct (settle false variables response w') as [[?|?] ?]. }
    intros r [?|Hr]%elem_of_app; [by apply Hurls|].
    assert (trace w' = trace w' ++ more → url r ≠ StatusUpdateUrl) as Hquiet.
    { intros Hsame. exfalso.
      assert (more = []) as ->; [|by apply elem_of_nil in Hr].
      apply (app_inv_head (trace w')). by rewrite app_nil_r, <- Hsame. }
    revert Htr. simpl in Hno.
    cbv [settle logger bind ret await].
    destruct (ok response); simpl in *.
    2: { destruct (text response); exact Hquiet. }
    destruct (json response) as [data|e]; [|exact Hquiet].
    destruct (errors data) as [[|e es]|].
    2: { unfold tryStatusUpdateFallback. rewrite Hno. simpl.
         exact Hquiet. }
    all: destruct (truthy (extractTweetIdFromResponse data));
      [exact Hquiet|];
      destruct (String.eqb (tweet_text variables) "");
      [exact Hquiet|];
      destruct (verifyTweetByFetching_run (tweet_text variables) w')
        as (found & more' & Hrun & Htr' & Hmore');
      rewrite Hrun; intros Htr;
      (assert (more = more') as ->;
         [apply (app_inv_head (trace w')); rewrite <- Htr', <- Htr;
          by destruct (truthy found)|]);
      by apply Hmore'.
Qed.

(** C7. For an operation without an entry in the live runtime cache,
    [getQueryId] gives the baked-in default of [QUERY_IDS], on each of any
    number of calls in a row, and leaves the world, the cache with it, as it
    was. *)
Theorem getQueryId_default operationName w n :
  runtimeQueryIds w !! operationName = None →
  getQueryId operationName w = (Normal (QUERY_IDS operationName), w)
  ∧ resolveRepeatedly n operationName w
    = (Normal (replicate n (QUERY_IDS operationName)), w).
Proof.
  intros Hnone.
  assert (getQueryId operationName w = (Normal (QUERY_IDS operationName), w))
    as Hone.
  { rewrite getQueryId_run. unfold resolved. by rewrite Hnone. }
  split; [done|].
  induction n as [|n IH]; [done|].
  simpl. unfold bind at 1. rewrite Hone.
  unfold bind at 1. by rewrite IH.
Qed.

End ClientClaims.

(** ** The client on the scenarios *)
Section ClientRuns.
Import Client Scenario.

Lemma write_path_recovery_witness :
  (let r1 := @mutationRequest netRetry "1234567890" world0
               (OperationUrl "baked-FavoriteTweet" "FavoriteTweet" [])
               "baked-FavoriteTweet" in
   let w1 := @refreshed netRetry (sent r1 world0) in
   let r2 := @mutationRequest netRetry "1234567890" w1
               (OperationUrl "rotated" "FavoriteTweet" []) "rotated" in
   @like netRetry "1234567890" world0 = (Normal MutationOk, sent r2 w1)
   ∧ trace (sent r2 w1) = [EvFetch r1; EvRefreshQueryIds; EvFetch r2])
  ∧ (let r1 := @createRequest netRetryPosted hello world0
                 (OperationUrl "baked-CreateTweet" "CreateTweet" [])
                 "baked-CreateTweet" in
     let w1 := @refreshed netRetryPosted (sent r1 world0) in
     let r2 := @createRequest netRetryPosted hello w1
                 (OperationUrl "baked-CreateTweet" "CreateTweet" [])
                 "baked-CreateTweet" in
     @tweet netRetryPosted "hello" None world0
       = (Normal (TweetOk "1001"), sent r2 w1)
     ∧ trace (sent r2 w1) = [EvFetch r1; EvRefreshQueryIds; EvFetch r2]).
Proof.
  split.
  - apply (proj1 (proj2 (proj2 (proj2 (@write_path_recovery netRetry))))
             "FavoriteTweet" "1234567890" world0
             {| status := 404; text := Normal "Not found";
                json := Abrupt "Unexpected token N in JSON" |}
             {| status := 200; text := Normal ""; json := Normal emptyBody |}
             emptyBody);
      reflexivity.
  - apply (proj1 (proj2 (proj2 (proj2 (proj2
                    (@write_path_recovery netRetryPosted)))))
             hello world0 world0
             {| status := 404; text := Normal "Not found";
                json := Abrupt "Unexpected token N in JSON" |}
             {| status := 200; text := Normal "";
                json := Normal (bodyRestId "1001") |}
             (bodyRestId "1001") "1001");
      reflexivity.
Defined.

(** Two 404s in a row make three fetch attempts, not two: the third goes to
    the generic endpoint, and here it succeeds. *)
Lemma two_404s_make_three_attempts :
  (@like netTwice "1234567890" world0).1 = Normal MutationOk
  ∧ url <$> requests (@like netTwice "1234567890" world0).2
    = [OperationUrl "baked-FavoriteTweet" "FavoriteTweet" [];
       OperationUrl "rotated" "FavoriteTweet" [];
       GraphqlPostUrl]
  ∧ fetches (trace (@like netTwice "1234567890" world0).2) ≠ 2%nat.
Proof. split_and!; [vm_compute; reflexivity..|vm_compute; discriminate]. Qed.

Lemma create_tweet_226_fallback_witness :
  ∃ input w',
    @statusUpdateInputFromCreateTweetVariables hello = Some input
    ∧ @createTweet netAutomated hello world0
      = (Normal (TweetOk "777"),
         sent (@statusUpdateRequest netAutomated input w') w').
Proof.
  destruct (@create_tweet_226_fallback netAutomated hello world0 world0
              (@recoveryPolicy netAutomated (@createRequest netAutomated hello)
                 "CreateTweet" world0).1.1
              (okWith (bodyErrors [automated]))
              (@recoveryPolicy netAutomated (@createRequest netAutomated hello)
                 "CreateTweet" world0).2
              eq_refl eq_refl) as [Hfallback _].
  destruct (Hfallback _ (bodyErrors [automated]) [automated]
              eq_refl eq_refl eq_refl eq_refl eq_refl)
    as (input & result & Hinput & Hpost & Hcreate); [discriminate|].
  exists input, (@recoveryPolicy netAutomated (@createRequest netAutomated hello)
                   "CreateTweet" world0).2.
  split; [exact Hinput|].
  injection Hinput as <-.
  vm_compute in Hpost. injection Hpost as <-.
  exact Hcreate.
Defined.

(** A create-tweet response with an error 226 in its JSON body does not
    always bring the fallback about. With an empty tweet text the one
    request on record is the GraphQL one, and the result is the GraphQL
    error. When the response comes with status 403 its JSON body is not
    read: the one request on record is the GraphQL one, and the result is
    the HTTP error with the body's text. *)
Lemma code_226_without_fallback :
  (json <$> netAutomatedFirst = Some (Normal (bodyErrors [automated]))
   ∧ (@tweet netAutomated "" None world0).1
     = Normal (TweetFail "This request looks like it might be automated. (226)")
   ∧ url <$> requests (@tweet netAutomated "" None world0).2
     = [OperationUrl "baked-CreateTweet" "CreateTweet" []])
  ∧ (json forbidden = Normal (bodyErrors [automated])
     ∧ (@tweet netForbidden "hello" None world0).1
       = Normal (TweetFail ("HTTP 403: " +:+ automatedText))
     ∧ url <$> requests (@tweet netForbidden "hello" None world0).2
       = [OperationUrl "baked-CreateTweet" "CreateTweet" []]).
Proof. split; split_and!; vm_compute; reflexivity. Qed.

Lemma getQueryId_default_witness :
  @getQueryId netRetry "TweetDetail" world0
    = (Normal "baked-TweetDetail", world0)
  ∧ @resolveRepeatedly netRetry 3 "TweetDetail" world0
    = (Normal ["baked-TweetDetail"; "baked-TweetDetail"; "baked-TweetDetail"],
       world0).
Proof.
  apply (@getQueryId_default netRetry "TweetDetail" world0 3). reflexivity.
Defined.

End ClientRuns.

(** ** Exceptions stay inside *)
Section NeverThrows.
Import Client.
Context `{Env}.

Lemma neverThrows_ret {A} (a : A) : neverThrows (ret a).
Proof. by intros w. Qed.

Lemma neverThrows_bind {A B} (m : M A) (k : A → M B) :
  neverThrows m → (∀ a, neverThrows (k a)) → neverThrows (bind m k).
Proof.
  intros Hm Hk w. unfold bind. specialize (Hm w).
  destruct (m w) as [[a|e] w']; [apply Hk|done].
Qed.

(** A [try] whose [catch] clause does not throw lets nothing out, whatever
    its body does. *)
Lemma neverThrows_tryCatch {A} (m : M A) (handler : string → M A) :
  (∀ e, neverThrows (handler e)) → neverThrows (tryCatch m handler).
Proof.
  intros Hh w. unfold tryCatch.
  destruct (m w) as [[a|e] w']; [done|apply Hh].
Qed.

Lemma neverThrows_get : neverThrows get.
Proof. by intros w. Qed.

Lemma neverThrows_logger level msg : neverThrows (logger level msg).
Proof. by intros w. Qed.

Lemma neverThrows_getQueryId operationName :
  neverThrows (getQueryId operationName).
Proof. by intros w. Qed.

Lemma neverThrows_refreshQueryIds : neverThrows refreshQueryIds.
Proof. intros w. by rewrite refreshQueryIds_run. Qed.

Lemma neverThrows_setClientUserId id : neverThrows (setClientUserId id).
Proof. by intros w. Qed.

Lemma neverThrows_ensureClientUserId :
  neverThrows getCurrentUser → neverThrows ensureClientUserId.
Proof.
  intros Hcu. unfold ensureClientUserId.
  apply neverThrows_bind; [apply neverThrows_get|]. intros w.
  destruct (nodeEnvTest w); [apply neverThrows_ret|].
  destruct (truthy _); [apply neverThrows_ret|].
  apply neverThrows_bind; [done|]. intros result.
  destruct (_ && _); [apply neverThrows_setClientUserId|apply neverThrows_ret].
Qed.

Lemma neverThrows_createTweet variables :
  neverThrows getCurrentUser → neverThrows (createTweet variables).
Proof.
  intros Hcu. unfold createTweet.
  apply neverThrows_bind; [apply neverThrows_logger|]. intros _.
  apply neverThrows_bind; [by apply neverThrows_ensureClientUserId|]. intros _.
  apply neverThrows_bind; [apply neverThrows_getQueryId|]. intros queryId.
  apply neverThrows_tryCatch. intros e. apply neverThrows_ret.
Qed.

Lemma neverThrows_uploadMedia input : neverThrows (uploadMedia input).
Proof.
  unfold uploadMedia. destruct (mediaCategoryForMime _); [|apply neverThrows_ret].
  apply neverThrows_tryCatch. intros e. apply neverThrows_ret.
Qed.

Lemma neverThrows_userByScreenNameLoop queryIds screenName lastError :
  neverThrows (userByScreenNameLoop queryIds screenName lastError).
Proof.
  revert lastError. induction queryIds as [|queryId rest IH]; intros lastError.
  { apply neverThrows_ret. }
  simpl. apply neverThrows_bind.
  - apply neverThrows_tryCatch. intros e. apply neverThrows_ret.
  - intros [result|error]; [apply neverThrows_ret|apply IH].
Qed.

Lemma neverThrows_usersShowLoop urls cleanUsername lastError :
  neverThrows (usersShowLoop urls cleanUsername lastError).
Proof.
  revert lastError. induction urls as [|url rest IH]; intros lastError.
  { apply neverThrows_ret. }
  simpl. apply neverThrows_bind.
  - apply neverThrows_tryCatch. intros e. apply neverThrows_ret.
  - intros [result|error]; [apply neverThrows_ret|apply IH].
Qed.

Lemma neverThrows_getUserIdByUsername username :
  neverThrows (getUserIdByUsername username).
Proof.
  unfold getUserIdByUsername.
  destruct (negb _); [apply neverThrows_ret|].
  apply neverThrows_bind; [apply neverThrows_userByScreenNameLoop|].
  intros [userId name' displayName|error]; [apply neverThrows_ret|].
  destruct (includes _ _); [apply neverThrows_ret|].
  apply neverThrows_usersShowLoop.
Qed.

Lemma neverThrows_aboutAccountLoop queryIds cleanUsername lastError had404 :
  neverThrows (aboutAccountLoop queryIds cleanUsername lastError had404).
Proof.
  revert lastError had404.
  induction queryIds as [|queryId rest IH]; intros lastError had404.
  { apply neverThrows_ret. }
  simpl. apply neverThrows_bind.
  - apply neverThrows_tryCatch. intros e. apply neverThrows_ret.
  - intros [aboutProfile|[error saw404]]; [apply neverThrows_ret|apply IH].
Qed.

Lemma neverThrows_getUserAboutAccount username :
  neverThrows (getUserAboutAccount username).
Proof.
  unfold getUserAboutAccount.
  destruct (negb _); [apply neverThrows_ret|].
  assert (neverThrows
            (let* queryIds := getAboutAccountQueryIds in
             aboutAccountLoop queryIds (default "" (normalizeHandle username))
               None false)) as Honce.
  { apply neverThrows_bind.
    - unfold getAboutAccountQueryIds.
      apply neverThrows_bind; [apply neverThrows_getQueryId|].
      intros primary. apply neverThrows_ret.
    - intros queryIds. apply neverThrows_aboutAccountLoop. }
  apply neverThrows_bind.
  - unfold withRefreshedQueryIdsOn404.
    apply neverThrows_bind; [exact Honce|]. intros first.
    destruct (_ || _); [apply neverThrows_ret|].
    apply neverThrows_bind; [apply neverThrows_refreshQueryIds|]. intros _.
    apply neverThrows_bind; [exact Honce|]. intros second.
    apply neverThrows_ret.
  - intros [aboutProfile|error]; apply neverThrows_ret.
Qed.

Lemma neverThrows_fetchTimelinePage operationName cursor :
  neverThrows (fetchTimelinePage operationName cursor).
Proof. apply neverThrows_tryCatch. intros e. apply neverThrows_ret. Qed.

(** [paginateCursor] throws nothing of its own: with a [fetchPage] that does
    not throw, a call that returns completes normally. *)
Lemma paginateLoop_passes_on {T W} fuel (opts : Paginator.Opts T W) st w c w' :
  (∀ cursor w, isNormal (Paginator.fetchPage opts cursor w).1 = true) →
  Paginator.paginateLoop fuel opts st w = Some (c, w') →
  isNormal c = true.
Proof.
  intros Hfetch. revert st w.
  induction fuel as [|fuel IH]; intros st w; [done|].
  simpl. unfold Paginator.iteration.
  specialize (Hfetch (Paginator.cur st) (Paginator.pause opts st w)).
  destruct (Paginator.fetchPage opts _ _) as [[[pitems pc|error]|e] w1];
    simpl in *; [| |done].
  - destruct (Paginator.addItems _ _ _) as [sn its].
    destruct (negb (truthy pc) || bool_decide (pc = Paginator.cur st)).
    { by intros [= <- <-]. }
    destruct (Paginator.maxPages opts) as [limit|]; [|apply IH].
    destruct (limit <=? _); [by intros [= <- <-]|apply IH].
  - destruct (0 <? _); by intros [= <- <-].
Qed.

End NeverThrows.

(** ** The credentials stay *)
Section KeepsCredentials.
Import Client.
Context `{Env}.

Lemma keepsCredentials_ret {A} (a : A) : keepsCredentials (ret a).
Proof. by intros w. Qed.

Lemma keepsCredentials_bind {A B} (m : M A) (k : A → M B) :
  keepsCredentials m → (∀ a, keepsCredentials (k a)) →
  keepsCredentials (bind m k).
Proof.
  intros Hm Hk w. unfold bind. destruct (Hm w) as [Ha Hc].
  destruct (m w) as [[a|e] w']; simpl in *; [|done].
  destruct (Hk a w') as [Ha' Hc']. split; congruence.
Qed.

Lemma keepsCredentials_tryCatch {A} (m : M A) (handler : string → M A) :
  keepsCredentials m → (∀ e, keepsCredentials (handler e)) →
  keepsCredentials (tryCatch m handler).
Proof.
  intros Hm Hh w. unfold tryCatch. destruct (Hm w) as [Ha Hc].
  destruct (m w) as [[a|e] w']; simpl in *; [done|].
  destruct (Hh e w') as [Ha' Hc']. split; congruence.
Qed.

Lemma keepsCredentials_get : keepsCredentials get.
Proof. by intros w. Qed.

Lemma keepsCredentials_await {A} (c : Completion A) : keepsCredentials (await c).
Proof. by intros w. Qed.

Lemma keepsCredentials_emit e : keepsCredentials (emit e).
Proof. by intros w. Qed.

Lemma keepsCredentials_logger level msg : keepsCredentials (logger level msg).
Proof. by intros w. Qed.

Lemma keepsCredentials_setRuntimeQueryIds ids :
  keepsCredentials (setRuntimeQueryIds ids).
Proof. by intros w. Qed.

Lemma keepsCredentials_setClientUserId id :
  keepsCredentials (setClientUserId id).
Proof. by intros w. Qed.

Lemma keepsCredentials_runtimeQueryIds_getQueryId operationName :
  keepsCredentials (runtimeQueryIds_getQueryId operationName).
Proof. by intros w. Qed.

Create HintDb keeps discriminated.

#[local] Hint Resolve keepsCredentials_ret keepsCredentials_get
  keepsCredentials_await keepsCredentials_emit keepsCredentials_logger
  keepsCredentials_setRuntimeQueryIds keepsCredentials_setClientUserId
  keepsCredentials_runtimeQueryIds_getQueryId : keeps.

(** One step through the body of an operation. *)
Ltac keeps_step :=
  first
    [ solve [auto with keeps nocore]
    | apply keepsCredentials_bind; [|intros ?]
    | apply keepsCredentials_tryCatch; [|intros ?]
    | match goal with
      | |- keepsCredentials (if ?b then _ else _) => destruct b
      | |- keepsCredentials (match ?x with _ => _ end) => destruct x
      end
    | progress cbv beta zeta ].

Ltac keeps := repeat keeps_step.

Lemma keepsCredentials_sleep ms : keepsCredentials (sleep ms).
Proof. unfold sleep. keeps. Qed.

Lemma keepsCredentials_getQueryId operationName :
  keepsCredentials (getQueryId operationName).
Proof. unfold getQueryId. keeps. Qed.

Lemma keepsCredentials_refreshQueryIds : keepsCredentials refreshQueryIds.
Proof. unfold refreshQueryIds. keeps. Qed.

Lemma keepsCredentials_fetchWithTimeout url method headers body :
  keepsCredentials (fetchWithTimeout url method headers body).
Proof. unfold fetchWithTimeout. keeps. Qed.

Lemma keepsCredentials_getBaseHeaders : keepsCredentials getBaseHeaders.
Proof. unfold getBaseHeaders. keeps. Qed.

#[local] Hint Resolve keepsCredentials_sleep keepsCredentials_getQueryId
  keepsCredentials_refreshQueryIds keepsCredentials_fetchWithTimeout
  keepsCredentials_getBaseHeaders : keeps.

Lemma keepsCredentials_getJsonHeaders : keepsCredentials getJsonHeaders.
Proof. unfold getJsonHeaders. keeps. Qed.

#[local] Hint Resolve keepsCredentials_getJsonHeaders : keeps.

Lemma keepsCredentials_getHeaders : keepsCredentials getHeaders.
Proof. unfold getHeaders. keeps. Qed.

Lemma keepsCredentials_getUploadHeaders : keepsCredentials getUploadHeaders.
Proof. unfold getUploadHeaders. keeps. Qed.

#[local] Hint Resolve keepsCredentials_getHeaders
  keepsCredentials_getUploadHeaders : keeps.

Lemma keepsCredentials_composeHeaders : keepsCredentials composeHeaders.
Proof. unfold composeHeaders. keeps. Qed.

Lemma keepsCredentials_ensureClientUserId :
  keepsCredentials getCurrentUser → keepsCredentials ensureClientUserId.
Proof. intros Hcu. unfold ensureClientUserId. keeps. Qed.

Lemma keepsCredentials_parseResponse response :
  keepsCredentials (parseResponse response).
Proof. unfold parseResponse. keeps. Qed.

#[local] Hint Resolve keepsCredentials_composeHeaders
  keepsCredentials_parseResponse : keeps.

Lemma keepsCredentials_performEngagementMutation operationName tweetId :
  keepsCredentials (performEngagementMutation operationName tweetId).
Proof. unfold performEngagementMutation. keeps. Qed.

Lemma keepsCredentials_postStatusUpdate input :
  keepsCredentials (postStatusUpdate input).
Proof. unfold postStatusUpdate. keeps. Qed.

Lemma keepsCredentials_verifyTweetByFetching text :
  keepsCredentials (verifyTweetByFetching text).
Proof. unfold verifyTweetByFetching. keeps. Qed.

#[local] Hint Resolve keepsCredentials_postStatusUpdate
  keepsCredentials_verifyTweetByFetching : keeps.

Lemma keepsCredentials_tryStatusUpdateFallback errors variables :
  keepsCredentials (tryStatusUpdateFallback errors variables).
Proof. unfold tryStatusUpdateFallback. keeps. Qed.

#[local] Hint Resolve keepsCredentials_tryStatusUpdateFallback : keeps.

Lemma keepsCredentials_settle logged variables response :
  keepsCredentials (settle logged variables response).
Proof. unfold settle. keeps. Qed.

#[local] Hint Resolve keepsCredentials_settle : keeps.

Lemma keepsCredentials_createTweet variables :
  keepsCredentials getCurrentUser → keepsCredentials (createTweet variables).
Proof.
  intros Hcu. pose proof (keepsCredentials_ensureClientUserId Hcu).
  unfold createTweet. keeps.
Qed.

Lemma keepsCredentials_appendChunks fuel input mediaId offset segmentIndex :
  keepsCredentials (appendChunks fuel input mediaId offset segmentIndex).
Proof.
  revert offset segmentIndex.
  induction fuel as [|fuel IH]; intros offset segmentIndex; simpl; keeps.
Qed.

Lemma keepsCredentials_pollProcessing remaining mediaId info :
  keepsCredentials (pollProcessing remaining mediaId info).
Proof.
  revert info. induction remaining as [|remaining IH]; intros info; simpl; keeps.
Qed.

#[local] Hint Resolve keepsCredentials_appendChunks
  keepsCredentials_pollProcessing : keeps.

Lemma keepsCredentials_uploadMedia input : keepsCredentials (uploadMedia input).
Proof. unfold uploadMedia. keeps. Qed.

Lemma keepsCredentials_userByScreenNameLoop queryIds screenName lastError :
  keepsCredentials (userByScreenNameLoop queryIds screenName lastError).
Proof.
  revert lastError. induction queryIds as [|queryId rest IH]; intros lastError;
    simpl; [keeps|].
  apply keepsCredentials_bind; [unfold userByScreenNameAttempt; keeps|].
  intros [result|error]; keeps.
Qed.

Lemma keepsCredentials_usersShowLoop urls cleanUsername lastError :
  keepsCredentials (usersShowLoop urls cleanUsername lastError).
Proof.
  revert lastError. induction urls as [|url rest IH]; intros lastError;
    simpl; [keeps|].
  apply keepsCredentials_bind; [unfold usersShowAttempt; keeps|].
  intros [result|error]; keeps.
Qed.

#[local] Hint Resolve keepsCredentials_userByScreenNameLoop
  keepsCredentials_usersShowLoop : keeps.

Lemma keepsCredentials_getUserIdByUsername username :
  keepsCredentials (getUserIdByUsername username).
Proof. unfold getUserIdByUsername, getUserByScreenNameGraphQL. keeps. Qed.

Lemma keepsCredentials_aboutAccountLoop queryIds cleanUsername lastError had404 :
  keepsCredentials (aboutAccountLoop queryIds cleanUsername lastError had404).
Proof.
  revert lastError had404.
  induction queryIds as [|queryId rest IH]; intros lastError had404;
    simpl; [keeps|].
  apply keepsCredentials_bind; [unfold aboutAccountAttempt; keeps|].
  intros [aboutProfile|[error saw404]]; keeps.
Qed.

#[local] Hint Resolve keepsCredentials_aboutAccountLoop : keeps.

Lemma keepsCredentials_getUserAboutAccount username :
  keepsCredentials (getUserAboutAccount username).
Proof.
  unfold getUserAboutAccount, withRefreshedQueryIdsOn404,
    getAboutAccountQueryIds.
  keeps.
Qed.

End KeepsCredentials.

Section OperationClaims.
Import Client.
Context `{Env}.

(** C8, at the failing input. An engagement mutation whose first attempt
    is answered by a 2xx response whose [json()] rejects, as it does on a
    body that is not JSON, does not come back with a failure result: after
    the one request the rejection leaves [performEngagementMutation], hence
    [like], [unlike], [retweet], [unretweet] and [bookmark], as a thrown
    error. So does a rejection of [text()] on a response that is neither 2xx
    nor 404. [createTweet], which awaits [json()] and [text()] inside its
    [try], turns the same rejection into the failure result that carries the
    error. *)
Theorem engagement_rejection_escapes operationName tweetId w response error :
  let q := resolved w operationName in
  let r := mutationRequest tweetId w (OperationUrl q operationName []) q in
  net (trace w) r = Normal response →
  status response ≠ 404 →
  (if ok response then json response = Abrupt error
   else text response = Abrupt error) →
  performEngagementMutation operationName tweetId w = (Abrupt error, sent r w)
  ∧ ∀ variables w0 w1,
      let q' := resolved w1 "CreateTweet" in
      let r' :=
        createRequest variables w1 (OperationUrl q' "CreateTweet" []) q' in
      ensureClientUserId w0 = (Normal tt, w1) →
      net (trace w1) r' = Normal response →
      createTweet variables w0 = (Normal (TweetFail error), sent r' w1).
Proof.
  intros q r Hnet Hstatus Hreject.
  apply Z.eqb_neq in Hstatus. split.
  - rewrite performEngagementMutation_policy. unfold recoveryPolicy.
    fold q r. rewrite Hnet, is404_Normal, Hstatus. simpl.
    cbv [parseResponse bind await ret].
    destruct (ok response); simpl in *; by rewrite Hreject.
  - intros variables w0 w1 q' r' Hensure Hnet'.
    rewrite (createTweet_policy false variables w0 w1 Hensure).
    unfold recoveryPolicy. fold q' r'.
    rewrite Hnet', is404_Normal, Hstatus. simpl.
    cbv [tryCatch settle bind await ret].
    destruct (ok response); simpl in *; by rewrite Hreject.
Qed.

(** The other public operations keep their errors inside: provided the
    abstract [getCurrentUser] does not throw, [tweet], [reply],
    [uploadMedia], [getUserIdByUsername] and [getUserAboutAccount] complete
    normally whatever the network, [text()] and [json()] throw, and so does
    a paginated read that returns. *)
Lemma other_operations_never_throw :
  neverThrows getCurrentUser →
  (∀ text mediaIds, neverThrows (tweet text mediaIds))
  ∧ (∀ text replyToTweetId mediaIds,
       neverThrows (reply text replyToTweetId mediaIds))
  ∧ (∀ input, neverThrows (uploadMedia input))
  ∧ (∀ username, neverThrows (getUserIdByUsername username))
  ∧ (∀ username, neverThrows (getUserAboutAccount username))
  ∧ (∀ operationName cursor maxPages pageDelayMs fuel w c w',
       getAllTimeline operationName cursor maxPages pageDelayMs fuel w
         = Some (c, w') →
       isNormal c = true).
Proof.
  intros Hcu. split_and!.
  - intros text mediaIds. by apply neverThrows_createTweet.
  - intros text replyTo mediaIds. by apply neverThrows_createTweet.
  - apply neverThrows_uploadMedia.
  - apply neverThrows_getUserIdByUsername.
  - apply neverThrows_getUserAboutAccount.
  - intros operationName cursor maxPages pageDelayMs fuel w c w'.
    unfold getAllTimeline, Paginator.paginateCursor.
    apply paginateLoop_passes_on. intros cur w1. simpl.
    apply neverThrows_fetchTimelinePage.
Qed.

(** C10. The constructor throws the error "Both authToken and ct0 cookies
    are required" when [authToken] or [ct0] is absent or empty. An instance
    that was constructed holds the non-empty [authToken] and [ct0] it was
    given, and, provided the abstract [getCurrentUser] leaves them alone, so
    it does after any public operation, run in any world. *)
Theorem constructor_requires_cookies normalizeQuoteDepth uuid1 uuid2 options :
  (truthy (authToken (cookies options)) && truthy (ct0 (cookies options))
     = false →
   constructor normalizeQuoteDepth uuid1 uuid2 options
     = Abrupt "Both authToken and ct0 cookies are required")
  ∧ (∀ client,
       constructor normalizeQuoteDepth uuid1 uuid2 options = Normal client →
       this_authToken client ≠ "" ∧ this_ct0 client ≠ ""
       ∧ authToken (cookies options) = Some (this_authToken client)
       ∧ ct0 (cookies options) = Some (this_ct0 client)
       ∧ (keepsCredentials getCurrentUser →
          ∀ A (operation : Operation A) w,
            this w = client →
            this_authToken (this (perform operation w).2) = this_authToken client
            ∧ this_ct0 (this (perform operation w).2) = this_ct0 client)).
Proof.
  unfold constructor. split.
  - intros Hmissing. apply andb_false_iff in Hmissing as [-> | ->]; [done|].
    by rewrite orb_true_r.
  - intros client.
    destruct (truthy (authToken (cookies options))) eqn:Ha; [|done].
    destruct (truthy (ct0 (cookies options))) eqn:Hc; [|done].
    apply truthy_Some in Ha as (a & Ha & Hane).
    apply truthy_Some in Hc as (c & Hc & Hcne).
    rewrite Ha, Hc. simpl. intros [= <-]. simpl.
    split_and!; [done..|].
    intros Hcu A operation w Hw.
    assert (keepsCredentials (perform operation)) as Hkeeps.
    { destruct operation; simpl.
      - by apply keepsCredentials_createTweet.
      - by apply keepsCredentials_createTweet.
      - apply keepsCredentials_performEngagementMutation.
      - apply keepsCredentials_performEngagementMutation.
      - apply keepsCredentials_performEngagementMutation.
      - apply keepsCredentials_performEngagementMutation.
      - apply keepsCredentials_performEngagementMutation.
      - apply keepsCredentials_uploadMedia.
      - apply keepsCredentials_getUserIdByUsername.
      - apply keepsCredentials_getUserAboutAccount. }
    destruct (Hkeeps w) as [-> ->]. by rewrite Hw.
Qed.

End OperationClaims.

(** ** Article text *)
Section ArticleClaims.
Import Article.

(** C9. For an article whose stored title is [t] and whose rich content is
    the block of a top-level heading with text [t], [extractArticleText]
    gives exactly "# t": one markdown-style heading line, the title not put
    in front of it once more; whatever separates lines does not show. *)
Theorem article_heading_is_title (separator t : string) :
  extractArticleText separator
    {| title := Some t;
       blocks := [ {| block_type := HeaderOne; block_text := t |} ] |}
  = Some ("# " +:+ t).
Proof.
  unfold extractArticleText, leadsWithTitle. simpl.
  by rewrite String.eqb_refl.
Qed.

End ArticleClaims.

(** ** The operations on the scenarios *)
Section OperationRuns.
Import Client Scenario.

Lemma engagement_rejection_escapes_witness :
  (@like netHtml "1234567890" world0).1
    = Abrupt "Unexpected token < in JSON at position 0"
  ∧ url <$> requests (@like netHtml "1234567890" world0).2
    = [OperationUrl "baked-FavoriteTweet" "FavoriteTweet" []]
  ∧ (@tweet netHtml "hello" None world0).1
    = Normal (TweetFail "Unexpected token < in JSON at position 0").
Proof.
  assert (status htmlPage ≠ 404) as Hstatus by done.
  destruct (@engagement_rejection_escapes netHtml "FavoriteTweet" "1234567890"
              world0 htmlPage "Unexpected token < in JSON at position 0"
              eq_refl Hstatus eq_refl) as [Hlike Htweet].
  split_and!.
  - exact (f_equal fst Hlike).
  - exact (f_equal (λ p, url <$> requests p.2) Hlike).
  - exact (f_equal fst (Htweet hello world0 world0 eq_refl eq_refl)).
Defined.

Lemma constructor_requires_cookies_witness :
  constructor (λ _, 1) "uuid-1" "uuid-2" optionsWithoutCt0
    = Abrupt "Both authToken and ct0 cookies are required"
  ∧ ∃ client,
      constructor (λ _, 1) "uuid-1" "uuid-2" validOptions = Normal client
      ∧ this_authToken client = "auth" ∧ this_ct0 client = "csrf"
      ∧ this_ct0 (this (@perform netRetry _ (Like "1234567890")
                          {| this := client; runtimeQueryIds := ∅;
                             nodeEnvTest := false; trace := [] |}).2)
        = "csrf".
Proof.
  split.
  - apply (proj1 (@constructor_requires_cookies netRetry (λ _, 1)
                    "uuid-1" "uuid-2" optionsWithoutCt0)).
    reflexivity.
  - eexists. split; [reflexivity|].
    pose proof (proj2 (@constructor_requires_cookies netRetry (λ _, 1)
                         "uuid-1" "uuid-2" validOptions) _ eq_refl)
      as (_ & _ & _ & _ & Hkeeps).
    split_and!; [reflexivity..|].
    apply (Hkeeps (λ w, conj eq_refl eq_refl) _ (Like "1234567890")).
    reflexivity.
Defined.

(** The article of the test: the one heading block that repeats the
    title, with lines a blank line apart. *)
Example article_hello_world :
  Article.extractArticleText (String (Ascii.ascii_of_nat 10)
                                (String (Ascii.ascii_of_nat 10) ""))
    {| Article.title := Some "Hello World";
       Article.blocks :=
         [ {| Article.block_type := Article.HeaderOne;
              Article.block_text := "Hello World" |} ] |}
  = Some "# Hello World".
Proof. reflexivity. Qed.

End OperationRuns.


(** * Further properties *)

(** ** The paginator: cursors, delays, full pagination *)
Section PaginatorExtras.
Import Paginator.
Context {T W : Type}.
Implicit Types (opts : Opts T W) (st : PaginationState T) (w : W).
Implicit Types (calls : list (Call T)).

(** A turn that goes round again has fetched a page, and carries that page's
    cursor on. *)
Lemma turn_carries_cursor opts st w st' w' :
  iteration opts st w = (Normal (inr st'), w') →
  ∃ pitems,
    (fetchPage opts (cur st) (pause opts st w)).1
      = Normal (PageOk pitems (cur st')).
Proof.
  unfold iteration.
  destruct (fetchPage opts (cur st) (pause opts st w))
    as [[[pitems pc|e]|e] w1]; simpl; [| |done].
  - destruct (addItems opts (seen st, items st) pitems) as [sn its].
    destruct (negb (truthy pc) || bool_decide (pc = cur st)); [done|].
    destruct (maxPages opts) as [limit|].
    + destruct (limit <=? _); [done|]. intros [= <- <-]. by exists pitems.
    + intros [= <- <-]. by exists pitems.
  - by destruct (0 <? _).
Qed.

Lemma chained_snoc start calls used p :
  chained start calls →
  (calls = [] → used = start) →
  (∀ call, last calls = Some call → gavePage call ∧ cursorOf call.2 = used) →
  chained start (calls ++ [(used, p)]).
Proof.
  intros [Hhead Hnext] Hempty Hlast. split.
  - intros call. destruct calls as [|c0 calls]; simpl.
    + intros [= <-]. by apply Hempty.
    + intros [= <-]. by apply (Hhead c0).
  - intros i call next Hi Hsi.
    apply lookup_lt_Some in Hsi as Hlen. rewrite length_app in Hlen.
    simpl in Hlen.
    destruct (decide (S i < length calls)%nat) as [Hin|Hout].
    + rewrite lookup_app_l in Hi, Hsi by lia. by eapply Hnext.
    + assert (S i = length calls) as Hsi' by lia.
      rewrite lookup_app_l in Hi by lia.
      rewrite lookup_app_r in Hsi by (unfold Call in *; lia). rewrite Hsi', Nat.sub_diag in Hsi.
      injection Hsi as <-. apply Hlast.
      rewrite last_lookup. rewrite <- Hsi'. exact Hi.
Qed.

Lemma loop_chained fuel opts st w calls c w' calls' :
  chained (cursor opts) calls →
  (calls = [] → cur st = cursor opts) →
  (∀ call, last calls = Some call → gavePage call ∧ cursorOf call.2 = cur st) →
  paginateLoop fuel (recording opts) st (w, calls) = Some (c, (w', calls')) →
  chained (cursor opts) calls'.
Proof.
  revert st w calls.
  induction fuel as [|fuel IH]; intros st w calls Hch Hempty Hlast; [done|].
  simpl. rewrite iteration_recording.
  pose proof (chained_snoc _ _ (cur st)
                (fetchPage opts (cur st) (pause opts st w)).1 Hch Hempty Hlast)
    as Hch'.
  destruct (iteration opts st w) as [[[r|st']|e] w1] eqn:Hit; simpl.
  - by intros [= <- <- <-].
  - apply IH; [done|intros [_ [=]]%app_eq_nil|].
    intros call. rewrite last_snoc. intros [= <-]. simpl.
    destruct (turn_carries_cursor _ _ _ _ _ Hit) as [pitems Hp].
    rewrite Hp. split; [by eexists _, _|done].
  - by intros [= <- <- <-].
Qed.

(** X1. Pages are fetched strictly in cursor order: the first fetch of a call
    is made with the caller's starting cursor, and every later fetch with
    the cursor that the page before it returned. *)
Theorem fetches_follow_cursors fuel opts w c w' calls :
  paginateCursor fuel (recording opts) (w, []) = Some (c, (w', calls)) →
  (∃ p rest, calls = (cursor opts, p) :: rest)
  ∧ ∀ i call next,
      calls !! i = Some call → calls !! S i = Some next →
      ∃ pitems, call.2 = Normal (PageOk pitems next.1).
Proof.
  intros Hrun.
  assert (chained (cursor opts) calls) as [Hhead Hnext].
  { apply (loop_chained fuel opts (initial opts) w [] c w' calls); done. }
  split.
  - apply (loop_recorded _ _ _ _ _ _ _ _ (tracks_initial opts)) in Hrun
      as [(before & used & p & -> & _) _].
    destruct before as [|[c0 p0] before]; simpl in *.
    + rewrite <- (Hhead (used, p) eq_refl). by eexists _, _.
    + rewrite <- (Hhead (c0, p0) eq_refl). by eexists _, _.
  - intros i call next Hi Hsi.
    destruct (Hnext i call next Hi Hsi) as [(pitems & pc & Hp) Hc].
    exists pitems. rewrite Hp in Hc |- *. simpl in Hc. by rewrite Hc.
Qed.

(** One more fetch on the schedule. *)
Lemma schedule_snoc (delay : Z) calls (c : Call T) :
  schedule delay (calls ++ [c])
  = schedule delay calls
    ++ (if match calls with [] => false | _ :: _ => true end && (0 <? delay)
        then [Slept delay] else [])
    ++ [Fetched c].
Proof.
  destruct calls as [|c0 calls]; [done|].
  simpl. f_equal. rewrite bind_app. f_equal. simpl.
  by destruct (0 <? delay).
Qed.

(** A turn of the loop under the spy on both closures is the same turn, with
    the sleep, if any, and then the fetch on record. *)
Lemma iteration_observing opts st w (steps : list (Step T)) :
  iteration (observing opts) st (w, steps) =
  ((iteration opts st w).1,
   ((iteration opts st w).2,
    steps
    ++ (if (0 <? pagesFetched st) && (0 <? default 1000 (pageDelayMs opts))
        then [Slept (default 1000 (pageDelayMs opts))] else [])
    ++ [Fetched (cur st, (fetchPage opts (cur st) (pause opts st w)).1)])).
Proof.
  unfold iteration.
  assert (pause (observing opts) st (w, steps)
          = (pause opts st w,
             steps ++ (if (0 <? pagesFetched st)
                            && (0 <? default 1000 (pageDelayMs opts))
                       then [Slept (default 1000 (pageDelayMs opts))]
                       else []))) as ->.
  { unfold pause. simpl. destruct (_ && _); simpl; [done|].
    by rewrite app_nil_r. }
  simpl.
  destruct (fetchPage opts (cur st) (pause opts st w)) as [[[pitems pc|e]|e] w1];
    simpl; rewrite <- app_assoc; try done.
  - destruct (addItems _ _ _) as [sn its].
    destruct (negb (truthy pc) || bool_decide (pc = cur st)); [done|].
    destruct (maxPages opts) as [limit|]; [|done].
    by destruct (limit <=? _).
  - by destruct (0 <? _).
Qed.

(** The steps of a loop are the schedule of its fetches. *)
Lemma loop_schedule fuel opts st w calls c w' (steps : list (Step T)) :
  let delay := default 1000 (pageDelayMs opts) in
  tracks opts st calls →
  paginateLoop fuel (observing opts) st (w, schedule delay calls)
    = Some (c, (w', steps)) →
  ∃ calls',
    paginateLoop fuel (recording opts) st (w, calls) = Some (c, (w', calls'))
    ∧ steps = schedule delay calls'.
Proof.
  intros delay. revert st w calls.
  induction fuel as [|fuel IH]; intros st w calls Htr; [done|].
  simpl. rewrite iteration_observing, iteration_recording. fold delay.
  pose proof Htr as (_ & _ & _ & Hn).
  assert ((0 <? pagesFetched st)
          = match calls with [] => false | _ :: _ => true end) as ->.
  { rewrite Hn. by destruct calls. }
  rewrite <- schedule_snoc.
  destruct (iteration opts st w) as [[[r|st']|e] w1] eqn:Hit; simpl.
  - intros [= <- <- <-]. by eexists.
  - destruct (tracks_turn opts st w calls st' w1 Htr Hit) as [Htr' _].
    by apply IH.
  - intros [= <- <- <-]. by eexists.
Qed.

(** X2. The courtesy delay: the first fetch of a call comes at once; each
    later fetch comes right after one sleep of [pageDelayMs] milliseconds
    (1000 when none is given), and nothing else is slept; with a delay that
    is not positive the call never sleeps. The calls of [sleep] and of
    [fetchPage], in the order they were made, are the schedule of the
    fetches the call made. *)
Theorem sleeps_between_fetches fuel opts w c w' (steps : list (Step T)) :
  paginateCursor fuel (observing opts) (w, []) = Some (c, (w', steps)) →
  ∃ first later,
    paginateCursor fuel (recording opts) (w, [])
      = Some (c, (w', first :: later))
    ∧ steps
      = Fetched first
          :: (later ≫= λ call,
                if 0 <? default 1000 (pageDelayMs opts)
                then [Slept (default 1000 (pageDelayMs opts)); Fetched call]
                else [Fetched call]).
Proof.
  intros Hrun.
  destruct (loop_schedule fuel opts (initial opts) w [] c w' steps
              (tracks_initial opts) Hrun) as (calls & Hrec & ->).
  pose proof (loop_recorded _ _ _ _ _ _ _ _ (tracks_initial opts) Hrec)
    as [(before & used & p & Hcalls & _) _].
  destruct calls as [|first later].
  { by destruct before. }
  by exists first, later.
Qed.

(** X3. Without a page limit a call that succeeds has paginated to the end:
    its result carries no [nextCursor]. With a page limit, a [nextCursor]
    that is handed back is a non-empty string, the cursor of the last page
    fetched, and differs from the cursor that page was fetched by. *)
Theorem success_cursor_means_limit fuel opts w w' calls acc next :
  paginateCursor fuel (recording opts) (w, [])
    = Some (Normal (ResOk acc next), (w', calls)) →
  (maxPages opts = None → next = None)
  ∧ ∀ c, next = Some c →
      c ≠ ""
      ∧ ∃ limit used pitems,
          maxPages opts = Some limit
          ∧ limit ≤ Z.of_nat (length calls)
          ∧ last calls = Some (used, Normal (PageOk pitems (Some c)))
          ∧ used ≠ Some c.
Proof.
  intros Hrun.
  apply (loop_recorded _ _ _ _ _ _ _ _ (tracks_initial opts)) in Hrun
    as [(before & used & p & -> & _ & Hv) _].
  simpl in Hv. destruct p as [[pitems pc|e]|e]; [| |done].
  2: { destruct (firstEncounters _ _); by injection Hv. }
  destruct (negb (truthy pc) || bool_decide (pc = used)) eqn:Hstop.
  - injection Hv as -> ->. split; [done|]. by intros c.
  - destruct Hv as [[= -> ->] (limit & Hmax & Hle)].
    apply orb_false_iff in Hstop as [Htruthy Hne].
    apply negb_false_iff in Htruthy. apply bool_decide_eq_false in Hne.
    split; [by rewrite Hmax|].
    intros c ->. apply truthy_Some in Htruthy as (c' & [= <-] & Hc).
    split; [done|]. exists limit, used, pitems.
    split_and!; [done|done|by rewrite last_snoc|congruence].
Qed.

End PaginatorExtras.

(** ** What the results carry *)
Section Yields.
Import Client.
Context `{Env}.

Lemma yields_ret {A} (Q : A → Prop) (a : A) : Q a → yields Q (ret a).
Proof. intros Ha w a' [= <-]. exact Ha. Qed.

Lemma yields_bind {A B} (Q' : A → Prop) (Q : B → Prop) (m : M A)
    (k : A → M B) :
  yields Q' m → (∀ a, Q' a → yields Q (k a)) → yields Q (bind m k).
Proof.
  intros Hm Hk w b. unfold bind. specialize (Hm w).
  destruct (m w) as [[a|e] w']; [|done].
  apply Hk. by apply Hm.
Qed.

Lemma yields_any {A} (m : M A) : yields (λ _, True) m.
Proof. by intros w a _. Qed.

Lemma yields_then {A B} (Q : B → Prop) (m : M A) (k : A → M B) :
  (∀ a, yields Q (k a)) → yields Q (bind m k).
Proof.
  intros Hk. apply (yields_bind (λ _, True)); [apply yields_any|].
  intros a _. apply Hk.
Qed.

Lemma yields_tryCatch {A} (Q : A → Prop) (m : M A) (handler : string → M A) :
  yields Q m → (∀ e, yields Q (handler e)) → yields Q (tryCatch m handler).
Proof.
  intros Hm Hh w a. unfold tryCatch. specialize (Hm w).
  destruct (m w) as [[a'|e] w']; [apply Hm|apply Hh].
Qed.

(** One step through the body of an operation whose intermediate values
    need no property. *)
Ltac yields_step :=
  first
    [ apply yields_ret
    | apply yields_then; intros ?
    | apply yields_tryCatch; [|intros ?]
    | match goal with
      | |- yields _ (if ?b then _ else _) => destruct b eqn:?
      | |- yields _ (match ?x with _ => _ end) => destruct x eqn:?
      end
    | progress cbv beta zeta ].

Lemma truthy_default (o : option string) :
  truthy o = true → default "" o ≠ "".
Proof. by intros (s & -> & Hs)%truthy_Some. Qed.

Lemma yields_postStatusUpdate input : yields tweetHasId (postStatusUpdate input).
Proof.
  unfold postStatusUpdate. repeat yields_step; try done.
  all: by apply truthy_default.
Qed.

Lemma yields_tryStatusUpdateFallback errors variables :
  yields (λ r, ∀ result, r = Some result → tweetHasId result)
    (tryStatusUpdateFallback errors variables).
Proof.
  unfold tryStatusUpdateFallback.
  destruct (negb (has226 errors)); [repeat yields_step; by intros|].
  apply yields_then. intros _.
  destruct (statusUpdateInputFromCreateTweetVariables variables) as [input|];
    [|repeat yields_step; by intros].
  apply (yields_bind tweetHasId); [apply yields_postStatusUpdate|].
  intros [tweetId|error] Hid; repeat yields_step; by intros result [= <-].
Qed.

Lemma yields_settle logged variables response :
  yields tweetHasId (settle logged variables response).
Proof.
  unfold settle.
  destruct (negb (ok response)); [by repeat yields_step|].
  apply yields_then. intros data.
  destruct (errors data) as [[|e es]|].
  - destruct (truthy (extractTweetIdFromResponse data)) eqn:Hid.
    + repeat yields_step. by apply truthy_default.
    + apply yields_then. intros verifiedId.
      destruct (truthy verifiedId) eqn:Hv; repeat yields_step; [|done].
      by apply truthy_default.
  - apply yields_then. intros _.
    apply (yields_bind (λ r, ∀ result, r = Some result → tweetHasId result));
      [apply yields_tryStatusUpdateFallback|].
    intros [fallback|] Hfb; repeat yields_step; [by apply Hfb|done].
  - destruct (truthy (extractTweetIdFromResponse data)) eqn:Hid.
    + repeat yields_step. by apply truthy_default.
    + apply yields_then. intros verifiedId.
      destruct (truthy verifiedId) eqn:Hv; repeat yields_step; [|done].
      by apply truthy_default.
Qed.

Lemma yields_createTweet variables : yields tweetHasId (createTweet variables).
Proof.
  unfold createTweet.
  do 3 (apply yields_then; intros ?).
  apply yields_tryCatch; [|by intros e; apply yields_ret].
  do 3 (apply yields_then; intros ?).
  apply yields_then. intros _.
  destruct (status _ =? 404); [|apply yields_settle].
  do 5 (apply yields_then; intros ?).
  destruct (status _ =? 404); [|apply yields_settle].
  do 2 (apply yields_then; intros ?).
  apply yields_settle.
Qed.

Lemma yields_appendChunks fuel input mediaId offset segmentIndex :
  yields (λ r, ∀ result, r = Some result → uploadHasId result)
    (appendChunks fuel input mediaId offset segmentIndex).
Proof.
  revert offset segmentIndex.
  induction fuel as [|fuel IH]; intros offset segmentIndex; simpl.
  { apply yields_ret. by intros. }
  destruct (offset <? _); [|apply yields_ret; by intros].
  do 2 (apply yields_then; intros ?).
  destruct (negb _); [|apply IH].
  repeat yields_step. by intros result [= <-].
Qed.

Lemma yields_pollProcessing remaining mediaId info :
  yields (λ r, ∀ result, r = Some result → uploadHasId result)
    (pollProcessing remaining mediaId info).
Proof.
  revert info. induction remaining as [|remaining IH]; intros info; simpl.
  { apply yields_ret. by intros. }
  destruct (bool_decide _).
  { apply yields_ret. by intros result [= <-]. }
  do 3 (apply yields_then; intros ?).
  destruct (negb _).
  { repeat yields_step. by intros result [= <-]. }
  apply yields_then. intros statusBody.
  destruct (processing_info statusBody) as [update|];
    [|apply yields_ret; by intros].
  destruct (bool_decide _); [apply yields_ret; by intros|apply IH].
Qed.

Lemma yields_uploadMedia input : yields uploadHasId (uploadMedia input).
Proof.
  unfold uploadMedia.
  destruct (mediaCategoryForMime _) as [category|]; [|by apply yields_ret].
  apply yields_tryCatch; [|by intros e; apply yields_ret].
  do 2 (apply yields_then; intros ?).
  destruct (negb (ok _)); [by repeat yields_step|].
  apply yields_then. intros initBody.
  destruct (negb (truthy _)) eqn:Hid; [by apply yields_ret|].
  apply negb_false_iff, truthy_default in Hid.
  eapply yields_bind; [apply yields_appendChunks|].
  intros [result|] Happended; [apply yields_ret; by apply Happended|].
  do 2 (apply yields_then; intros ?).
  destruct (negb (ok _)); [by repeat yields_step|].
  apply yields_then. intros finalizeBody.
  apply (yields_bind (λ r, ∀ result, r = Some result → uploadHasId result)).
  { destruct (processing_info finalizeBody) as [info|];
      [|apply yields_ret; by intros].
    destruct (_ && _); [apply yields_pollProcessing|apply yields_ret; by intros]. }
  intros [result|] Hpolled; [apply yields_ret; by apply Hpolled|].
  destruct (_ && _); [|by apply yields_ret].
  do 2 (apply yields_then; intros ?).
  destruct (negb (ok _)); [by repeat yields_step|by apply yields_ret].
Qed.

Lemma yields_userByScreenNameLoop queryIds screenName lastError :
  yields lookupHasId (userByScreenNameLoop queryIds screenName lastError).
Proof.
  revert lastError. induction queryIds as [|queryId rest IH]; intros lastError;
    simpl; [by apply yields_ret|].
  apply (yields_bind (λ turn, ∀ r, turn = inl r → lookupHasId r)).
  - unfold userByScreenNameAttempt.
    apply yields_tryCatch; [|intros e; apply yields_ret; by intros].
    do 2 (apply yields_then; intros ?).
    destruct (negb (ok _)); [repeat yields_step; by intros|].
    apply yields_then. intros data.
    destruct (bool_decide _); [apply yields_ret; by intros r [= <-]|].
    destruct (truthy (user_result data ≫= ur_rest_id) && _) eqn:Hid.
    + apply andb_true_iff in Hid as [Hid%truthy_default _].
      apply yields_ret. by intros r [= <-].
    + repeat yields_step; by intros.
  - intros [result|error] Hturn; [apply yields_ret; by apply Hturn|apply IH].
Qed.

Lemma yields_usersShowLoop urls cleanUsername lastError :
  yields lookupHasId (usersShowLoop urls cleanUsername lastError).
Proof.
  revert lastError. induction urls as [|url rest IH]; intros lastError;
    simpl; [by apply yields_ret|].
  apply (yields_bind (λ turn, ∀ r, turn = inl r → lookupHasId r)).
  - unfold usersShowAttempt.
    apply yields_tryCatch; [|intros e; apply yields_ret; by intros].
    do 2 (apply yields_then; intros ?).
    destruct (negb (ok _)); [repeat yields_step; by intros r [= <-]|].
    apply yields_then. intros data.
    destruct (negb (truthy _)) eqn:Hid; [apply yields_ret; by intros|].
    apply negb_false_iff, truthy_default in Hid.
    apply yields_ret. by intros r [= <-].
  - intros [result|error] Hturn; [apply yields_ret; by apply Hturn|apply IH].
Qed.

Lemma yields_getUserIdByUsername username :
  yields lookupHasId (getUserIdByUsername username).
Proof.
  unfold getUserIdByUsername, getUserByScreenNameGraphQL.
  destruct (negb _); [by apply yields_ret|].
  eapply yields_bind; [apply yields_userByScreenNameLoop|].
  intros [userId name' displayName|error] Hid; [by apply yields_ret|].
  destruct (includes _ _); [by apply yields_ret|].
  apply yields_usersShowLoop.
Qed.

(** X4. A tweet reported as posted has an id: whenever [createTweet] (hence
    [tweet] and [reply]) returns success, by the GraphQL response, by the
    legacy fallback or by the verification re-fetch, its [tweetId] is not the
    empty string. *)
Theorem posted_tweet_has_id variables w tweetId :
  (createTweet variables w).1 = Normal (TweetOk tweetId) → tweetId ≠ "".
Proof. intros Hrun. exact (yields_createTweet variables w _ Hrun). Qed.

(** The early returns of the APPEND loop and of the STATUS polling loop are
    failures. *)
Lemma appendChunks_early fuel input mediaId offset segmentIndex (w w' : World)
    result :
  appendChunks fuel input mediaId offset segmentIndex w
    = (Normal (Some result), w') →
  ∃ error, result = UploadFail error.
Proof.
  revert offset segmentIndex w.
  induction fuel as [|fuel IH]; intros offset segmentIndex w; [done|].
  simpl. destruct (offset <? _); [|done].
  cbv [bind getUploadHeaders getBaseHeaders get ret fetchWithTimeout emit
       await].
  destruct (net _ _) as [appendResp|e]; [|done].
  destruct (negb (ok appendResp)); [|apply IH].
  destruct (text appendResp); [|done]. intros [= <- <-]. by eexists.
Qed.

Lemma pollProcessing_early remaining mediaId info (w w' : World) result :
  pollProcessing remaining mediaId info w = (Normal (Some result), w') →
  ∃ error, result = UploadFail error.
Proof.
  revert info w. induction remaining as [|remaining IH]; intros info w; [done|].
  simpl. destruct (bool_decide _); [intros [= <- <-]; by eexists|].
  cbv [bind sleep getUploadHeaders getBaseHeaders get ret fetchWithTimeout
       emit await].
  destruct (net _ _) as [statusResp|e]; [|done].
  destruct (negb (ok statusResp)).
  { destruct (text statusResp); [|done]. intros [= <- <-]. by eexists. }
  destruct (json statusResp) as [statusBody|e]; [|done].
  destruct (processing_info statusBody) as [update|]; [|done].
  destruct (bool_decide _); [done|apply IH].
Qed.

(** X5. An upload reported as done has a media id: whenever [uploadMedia]
    returns success, its [mediaId] is not the empty string. The early
    returns of its APPEND loop and of its STATUS polling loop are always
    failures. *)
Theorem uploaded_media_has_id input w mediaId :
  ((uploadMedia input w).1 = Normal (UploadOk mediaId) → mediaId ≠ "")
  ∧ (∀ fuel offset segmentIndex w' result,
       appendChunks fuel input mediaId offset segmentIndex w
         = (Normal (Some result), w') →
       ∃ error, result = UploadFail error)
  ∧ (∀ remaining info w' result,
       pollProcessing remaining mediaId info w = (Normal (Some result), w') →
       ∃ error, result = UploadFail error).
Proof.
  split_and!.
  - intros Hrun. exact (yields_uploadMedia input w _ Hrun).
  - intros fuel offset segmentIndex w' result. apply appendChunks_early.
  - intros remaining info w' result. apply pollProcessing_early.
Qed.

(** X6. A user reported as found has an id: whenever [getUserIdByUsername]
    returns success, by the GraphQL lookup or by the REST fallback, its
    [userId] is not the empty string. *)
Theorem found_user_has_id username w userId name displayName :
  (getUserIdByUsername username w).1
    = Normal (LookupOk userId name displayName) →
  userId ≠ "".
Proof. intros Hrun. exact (yields_getUserIdByUsername username w _ Hrun). Qed.

End Yields.

(** ** Uploads *)
Section Upload.
Import Client.
Context `{Env}.

Lemma sliceFrom_inside (bytes : list Byte.byte) (i start stop : Z) :
  start ≤ i →
  sliceFrom i start stop bytes = take (Z.to_nat (stop - i)) bytes.
Proof.
  revert i. induction bytes as [|b rest IH]; intros i Hi; simpl.
  { by rewrite take_nil. }
  rewrite IH by lia.
  destruct (start <=? i) eqn:Hs; [|apply Z.leb_gt in Hs; lia].
  destruct (i <? stop) eqn:Hlt; simpl.
  - apply Z.ltb_lt in Hlt.
    replace (Z.to_nat (stop - i)) with (S (Z.to_nat (stop - (i + 1)))) by lia.
    done.
  - apply Z.ltb_ge in Hlt.
    replace (Z.to_nat (stop - (i + 1))) with 0%nat by lia.
    replace (Z.to_nat (stop - i)) with 0%nat by lia.
    by rewrite take_0.
Qed.

Lemma sliceFrom_before (bytes : list Byte.byte) (i start stop : Z) :
  i ≤ start →
  sliceFrom i start stop bytes
  = take (Z.to_nat (stop - start)) (drop (Z.to_nat (start - i)) bytes).
Proof.
  revert i. induction bytes as [|b rest IH]; intros i Hi; simpl.
  { by rewrite drop_nil, take_nil. }
  destruct (decide (i = start)) as [->|Hne].
  - rewrite Z.sub_diag. simpl.
    pose proof (sliceFrom_inside (b :: rest) start start stop) as Hin.
    simpl in Hin. apply Hin. lia.
  - destruct (start <=? i) eqn:Hs; [apply Z.leb_le in Hs; lia|]. simpl.
    rewrite IH by lia.
    replace (Z.to_nat (start - i)) with (S (Z.to_nat (start - (i + 1)))) by lia.
    done.
Qed.

(** [data.slice(start, stop)] for [0 <= start]. *)
Lemma slice_take_drop (bytes : list Byte.byte) (start stop : Z) :
  0 ≤ start →
  slice bytes start stop
  = take (Z.to_nat (stop - start)) (drop (Z.to_nat start) bytes).
Proof.
  intros Hs. unfold slice. rewrite sliceFrom_before by lia.
  by rewrite Z.sub_0_r.
Qed.

Lemma multiparts_app evs1 evs2 :
  multiparts (evs1 ++ evs2) = multiparts evs1 ++ multiparts evs2.
Proof. unfold multiparts. apply omap_app. Qed.

(** The loop of APPEND requests, run to its end: the chunks sent are the
    bytes from [offset] on, cut at every [chunkSize], under consecutive
    segment indices. *)
Lemma appendChunks_complete fuel input mediaId offset segmentIndex
    (w w' : World) :
  0 ≤ offset →
  (Z.to_nat (Z.of_nat (length (data input)) - offset) < fuel)%nat →
  appendChunks fuel input mediaId offset segmentIndex w = (Normal None, w') →
  ∃ evs,
    trace w' = trace w ++ evs
    ∧ mjoin ((multiparts evs).*2) = drop (Z.to_nat offset) (data input)
    ∧ ∀ k fields media,
        multiparts evs !! k = Some (fields, media) →
        fields = [("command", "APPEND"); ("media_id", mediaId);
                  ("segment_index", pretty (segmentIndex + Z.of_nat k))]
        ∧ (0 < length media)%nat
        ∧ Z.of_nat (length media) ≤ chunkSize.
Proof.
  revert offset segmentIndex w.
  induction fuel as [|fuel IH]; intros offset segmentIndex w Hoff Hfuel;
    [lia|].
  simpl. destruct (offset <? _) eqn:Hlt.
  2: { apply Z.ltb_ge in Hlt. intros [= <-]. exists []. rewrite app_nil_r.
       split_and!; [done| |by intros k fields media].
       simpl. rewrite drop_ge; [done|lia]. }
  apply Z.ltb_lt in Hlt.
  cbv [bind getUploadHeaders getBaseHeaders get ret fetchWithTimeout emit
       await].
  destruct (net _ _) as [appendResp|e]; [|done].
  destruct (negb (ok appendResp)); [by destruct (text appendResp)|].
  intros Hrest.
  apply IH in Hrest as (evs & Htrace & Hbytes & Hfields);
    [|unfold chunkSize; lia|unfold chunkSize in *; lia].
  eexists (_ :: evs). split; [rewrite Htrace; simpl; by rewrite <- app_assoc|].
  change (multiparts (?e :: evs)) with (multiparts [e] ++ multiparts evs).
  cbn [multiparts omap list_omap body requestOf app].
  set (chunk := slice _ _ _).
  assert (chunk = take (Z.to_nat (Z.min (Z.of_nat (length (data input)))
                                    (offset + chunkSize) - offset))
                    (drop (Z.to_nat offset) (data input))) as Hchunk.
  { unfold chunk. by apply slice_take_drop. }
  split.
  - change (chunk ++ mjoin ((multiparts evs).*2)
            = drop (Z.to_nat offset) (data input)).
    rewrite Hbytes, Hchunk.
    destruct (decide (offset + chunkSize ≤ Z.of_nat (length (data input)))).
    + rewrite Z.min_r by lia.
      replace (Z.to_nat (offset + chunkSize))
        with (Z.to_nat offset + Z.to_nat chunkSize)%nat
        by (unfold chunkSize; lia).
      replace (Z.to_nat (offset + chunkSize - offset))
        with (Z.to_nat chunkSize) by lia.
      rewrite <- drop_drop. apply take_drop.
    + rewrite Z.min_l by lia.
      rewrite (drop_ge _ (Z.to_nat (offset + chunkSize))) by lia.
      rewrite app_nil_r. apply take_ge. rewrite length_drop. lia.
  - intros [|k] fields media Hk; simpl in Hk.
    + injection Hk as <- <-. rewrite Z.add_0_r. split; [done|].
      rewrite Hchunk, length_take, length_drop. unfold chunkSize in *. lia.
    + destruct (Hfields k fields media Hk) as (-> & Hpos & Hle).
      split_and!; [|done..].
      by replace (segmentIndex + Z.of_nat (S k))
        with (segmentIndex + 1 + Z.of_nat k) by lia.
Qed.

(** The rounds of the loop of STATUS polls: a sleep, then the poll. *)
Lemma pollProcessing_rounds remaining mediaId info (w : World) :
  ∃ rounds : list (Z * Request),
    (length rounds ≤ remaining)%nat
    ∧ trace (pollProcessing remaining mediaId info w).2
      = trace w ++ (rounds ≫= λ round, [EvSleep round.1; EvFetch round.2])
    ∧ Forall (λ round,
                1000 ≤ round.1
                ∧ url round.2
                  = UploadUrl [("command", "STATUS"); ("media_id", mediaId)]
                ∧ method round.2 = GET
                ∧ body round.2 = NoBody) rounds.
Proof.
  revert info w. induction remaining as [|remaining IH]; intros info w; simpl.
  { exists []. simpl. by rewrite app_nil_r. }
  destruct (bool_decide _).
  { exists []. simpl. rewrite app_nil_r. split_and!; [lia|done|done]. }
  cbv [bind sleep getUploadHeaders getBaseHeaders get ret fetchWithTimeout
       emit await].
  set (ms := _ * 1000). set (r := requestOf _ _ _ _ _).
  assert (1000 ≤ ms) as Hms.
  { unfold ms. destruct (pi_check_after_secs info); lia. }
  assert (∀ w',
            trace w' = trace w ++ [EvSleep ms; EvFetch r] →
            ∃ rounds : list (Z * Request),
              (length rounds ≤ S remaining)%nat
              ∧ trace w'
                = trace w
                  ++ (rounds ≫= λ round, [EvSleep round.1; EvFetch round.2])
              ∧ Forall (λ round,
                1000 ≤ round.1
                ∧ url round.2
                  = UploadUrl [("command", "STATUS"); ("media_id", mediaId)]
                ∧ method round.2 = GET
                ∧ body round.2 = NoBody) rounds) as Hone.
  { intros w' Hw'. exists [(ms, r)]. simpl.
    split_and!; [lia|done|]. by apply Forall_singleton. }
  assert (trace (after (EvFetch r) (after (EvSleep ms) w))
          = trace w ++ [EvSleep ms; EvFetch r]) as Htwo.
  { simpl. by rewrite <- app_assoc. }
  destruct (net _ r) as [statusResp|e]; [|by apply Hone].
  destruct (negb (ok statusResp)).
  { destruct (text statusResp); by apply Hone. }
  destruct (json statusResp) as [statusBody|e]; [|by apply Hone].
  destruct (processing_info statusBody) as [update|]; [|by apply Hone].
  destruct (bool_decide _); [by apply Hone|].
  destruct (IH update (after (EvFetch r) (after (EvSleep ms) w)))
    as (rounds & Hlen & Htrace & Hall).
  exists ((ms, r) :: rounds). split_and!; [simpl; lia| |].
  - rewrite Htrace, Htwo. simpl. by rewrite <- app_assoc.
  - by apply Forall_cons.
Qed.

Lemma polled_rounds mediaId info (w : World) :
  ∃ rounds : list (Z * Request),
    (length rounds ≤ 20)%nat
    ∧ trace (polled mediaId info w).2
      = trace w ++ (rounds ≫= λ round, [EvSleep round.1; EvFetch round.2])
    ∧ Forall (λ round,
                1000 ≤ round.1
                ∧ url round.2
                  = UploadUrl [("command", "STATUS"); ("media_id", mediaId)]
                ∧ method round.2 = GET
                ∧ body round.2 = NoBody) rounds.
Proof.
  unfold polled. destruct info as [info|].
  - destruct (_ && _); [apply pollProcessing_rounds|].
    exists []. simpl. rewrite app_nil_r. split_and!; [lia|done|done].
  - exists []. simpl. rewrite app_nil_r. split_and!; [lia|done|done].
Qed.

Lemma polled_early mediaId info (w w' : World) result :
  polled mediaId info w = (Normal (Some result), w') →
  ∃ error, result = UploadFail error.
Proof.
  unfold polled. destruct info as [info|]; [|done].
  destruct (_ && _); [apply pollProcessing_early|done].
Qed.

Lemma multiparts_rounds (rounds : list (Z * Request)) :
  Forall (λ round, body round.2 = NoBody) rounds →
  multiparts (rounds ≫= λ round, [EvSleep round.1; EvFetch round.2]) = [].
Proof.
  induction 1 as [|[ms r] rounds Hr _ IH]; [done|].
  simpl in *. unfold multiparts in *. simpl. by rewrite Hr.
Qed.

(** Case analysis on what decides the next step of a run, dropping the
    runs that do not end as assumed. *)
Ltac run_step :=
  match goal with
  | |- (if ?b then _ else _) = _ → _ => destruct b eqn:?
  | |- (if ?b then _ else _) _ = _ → _ => destruct b eqn:?
  | |- match ?x with _ => _ end = _ → _ => destruct x eqn:?
  | |- match ?x with _ => _ end _ = _ → _ => destruct x eqn:?
  end; try (intros [=]; fail); cbv beta iota.

Lemma tryCatch_ok {A} (m : M A) (handler : string → M A) (w w' : World)
    (a : A) :
  (∀ e w1, handler e w1 ≠ (Normal a, w')) →
  tryCatch m handler w = (Normal a, w') → m w = (Normal a, w').
Proof.
  intros Hh. unfold tryCatch. destruct (m w) as [[a'|e] w1]; [done|].
  intros Hrun. by destruct (Hh e w1).
Qed.

(** X13. An upload that succeeds has sent every byte once. When
    [uploadMedia] returns success, the [media] parts of the APPEND requests
    it has sent, put end to end in the order sent, are the bytes of
    [input.data]; the [k]-th of them went out under [segment_index] [k] and
    the media id that is returned, is not empty and holds at most
    [chunkSize] (5 MiB) bytes; and no other request had a multipart body. *)
Theorem upload_sends_every_byte_once input (w w' : World) mediaId :
  uploadMedia input w = (Normal (UploadOk mediaId), w') →
  ∃ evs,
    trace w' = trace w ++ evs
    ∧ mjoin ((multiparts evs).*2) = data input
    ∧ ∀ k fields media,
        multiparts evs !! k = Some (fields, media) →
        fields = [("command", "APPEND"); ("media_id", mediaId);
                  ("segment_index", pretty (Z.of_nat k))]
        ∧ (0 < length media)%nat
        ∧ Z.of_nat (length media) ≤ chunkSize.
Proof.
  unfold uploadMedia. destruct (mediaCategoryForMime _) as [category|]; [|done].
  intros Hrun. apply tryCatch_ok in Hrun; [|done]. revert Hrun.
  cbv [bind ret await get emit getUploadHeaders getJsonHeaders
       getBaseHeaders fetchWithTimeout].
  repeat run_step.
  all: set (mid := default "" _) in *.
  all: try match type of Heqp0 with
       | match processing_info ?b with _ => _ end ?w2 = ?rhs =>
           assert (polled mid (processing_info b) w2 = rhs) as Hpolled
             by exact Heqp0;
           clear Heqp0
       end.
  1: { intros [= -> <-]. by apply appendChunks_early in Heqp as [error [=]]. }
  1: { intros [= -> <-]. by apply polled_early in Hpolled as [error [=]]. }
  all: intros [= <- <-].
  all: apply appendChunks_complete in Heqp
         as (evsA & HtA & HbytesA & HfieldsA); [|lia..].
  all: match type of Hpolled with
       | polled _ _ ?w2 = _ =>
           destruct (polled_rounds mid (processing_info a3) w2)
             as (rounds & _ & HtP & Hall)
       end.
  all: rewrite Hpolled in HtP; cbn [snd] in HtP.
  all: eexists; split;
         [ cbn [trace after]; rewrite HtP; cbn [trace after]; rewrite HtA;
           cbn [trace after]; rewrite <- !app_assoc; reflexivity | ].
  all: rewrite !multiparts_app, multiparts_rounds
         by (eapply Forall_impl; [exact Hall|]; by intros r (_ & _ & _ & ?)).
  all: cbn [multiparts omap list_omap body requestOf app].
  all: rewrite ?app_nil_r, ?app_nil_l.
  all: split; [exact HbytesA|].
  all: intros k fields media Hk.
  all: destruct (HfieldsA k fields media Hk) as (-> & Hpos & Hle).
  all: by rewrite Z.add_0_l.
Qed.

End Upload.

(** ** How many requests an operation makes *)
Section Costs.
Import Client.
Context `{Env}.

Lemma count_app sel evs1 evs2 :
  count sel (evs1 ++ evs2) = (count sel evs1 + count sel evs2)%nat.
Proof. unfold count. by rewrite List.filter_app, length_app. Qed.

Lemma fetches_count evs : fetches evs = count isFetch evs.
Proof.
  unfold fetches, count.
  induction evs as [|[r| |ms] evs IH]; simpl;
    [done|f_equal; exact IH|exact IH|exact IH].
Qed.

Lemma costs_ret {A} sel n (a : A) : costs sel n (ret a).
Proof.
  intros w. exists []. simpl. rewrite app_nil_r.
  split; [done|unfold count; simpl; lia].
Qed.

Lemma costs_weaken {A} sel n n' (m : M A) :
  costs sel n m → (n ≤ n')%nat → costs sel n' m.
Proof.
  intros Hm Hle w. destruct (Hm w) as (evs & Ht & Hc).
  exists evs. split; [done|lia].
Qed.

Lemma costs_bind {A B} sel c n (m : M A) (k : A → M B) :
  costs sel c m → (∀ a, costs sel (n - c) (k a)) → (c ≤ n)%nat →
  costs sel n (bind m k).
Proof.
  intros Hm Hk Hle w. unfold bind. destruct (Hm w) as (evs1 & Ht1 & Hc1).
  destruct (m w) as [[a|e] w']; simpl in *.
  - destruct (Hk a w') as (evs2 & Ht2 & Hc2). exists (evs1 ++ evs2).
    rewrite Ht2, Ht1, app_assoc, count_app. split; [done|lia].
  - exists evs1. split; [done|lia].
Qed.

Lemma costs_ext {A} sel n (m m' : M A) :
  (∀ w, m w = m' w) → costs sel n m' → costs sel n m.
Proof. intros Heq Hm w. rewrite Heq. apply Hm. Qed.

(** A step that leaves the trace as it is costs nothing. *)
Lemma costs_then {A B} sel n (m : M A) (k : A → M B) :
  (∀ w, trace (m w).2 = trace w) → (∀ a, costs sel n (k a)) →
  costs sel n (bind m k).
Proof.
  intros Hm Hk. apply (costs_bind sel 0%nat); [|by rewrite Nat.sub_0_r|lia].
  intros w. exists []. rewrite app_nil_r.
  split; [apply Hm|unfold count; simpl; lia].
Qed.

Lemma costs_tryCatch {A} sel n (m : M A) (handler : string → M A) :
  costs sel n m → (∀ e, costs sel 0 (handler e)) →
  costs sel n (tryCatch m handler).
Proof.
  intros Hm Hh w. unfold tryCatch. destruct (Hm w) as (evs1 & Ht1 & Hc1).
  destruct (m w) as [[a|e] w']; simpl in *.
  - by exists evs1.
  - destruct (Hh e w') as (evs2 & Ht2 & Hc2). exists (evs1 ++ evs2).
    rewrite Ht2, Ht1, app_assoc, count_app. split; [done|lia].
Qed.

Lemma costs_emit sel e : costs sel (count sel [e]) (emit e).
Proof. intros w. by exists [e]. Qed.

Lemma costs_fetchWithTimeout sel c url method headers body :
  (∀ w, (count sel [EvFetch (requestOf w url method headers body)] ≤ c)%nat) →
  costs sel c (fetchWithTimeout url method headers body).
Proof. intros Hc w. eexists [_]. split; [reflexivity|apply Hc]. Qed.

Lemma count_one sel e : (count sel [e] ≤ 1)%nat.
Proof. unfold count. simpl. destruct (sel e); simpl; lia. Qed.

Create HintDb costs discriminated.

(** One step through the body of an operation; the bound is kept a numeral
    as events are taken off it. *)
Ltac costs_step :=
  first
    [ apply costs_ret
    | apply costs_then; [intros ?; reflexivity|intros ?]
    | match goal with
      | |- costs ?sel ?n (bind (emit ?e) _) =>
          let c := eval cbv in (count sel [e]) in
          let n' := eval cbv in (n - c)%nat in
          apply (costs_bind sel c n);
            [apply costs_emit|intros ?; change (n - c)%nat with n'|simpl; lia]
      end
    | match goal with
      | |- costs _ _ (bind (if ?b then _ else _) _) => destruct b
      | |- costs _ _ (bind (match ?x with _ => _ end) _) => destruct x
      end
    | match goal with
      | |- costs ?sel ?n (bind (fetchWithTimeout _ _ _ _) _) =>
          first
            [ apply (costs_bind sel 0%nat n);
                [ apply costs_fetchWithTimeout; intros ?; vm_compute; lia
                | intros ?; simpl Nat.sub
                | lia ]
            | apply (costs_bind sel 1%nat n);
                [ apply costs_fetchWithTimeout; intros ?; apply count_one
                | intros ?; simpl Nat.sub
                | lia ] ]
      end
    | match goal with
      | |- costs ?sel ?n (bind _ _) =>
          eapply (costs_bind sel _ n);
            [solve [auto with costs nocore]|intros ?; simpl Nat.sub|simpl; lia]
      end
    | apply costs_tryCatch; [|intros ?]
    | match goal with
      | |- costs _ _ (if ?b then _ else _) => destruct b
      | |- costs _ _ (match ?x with _ => _ end) => destruct x
      end
    | eapply costs_weaken; [solve [auto with costs nocore]|simpl; lia]
    | progress cbv beta zeta ].

Ltac costs_go := repeat costs_step.

Lemma costs_postStatusUpdate input : costs isFetch 1 (postStatusUpdate input).
Proof. unfold postStatusUpdate. costs_go. Qed.

#[local] Hint Resolve costs_postStatusUpdate : costs.

Lemma costs_tryStatusUpdateFallback errors variables :
  costs isFetch 1 (tryStatusUpdateFallback errors variables).
Proof. unfold tryStatusUpdateFallback. costs_go. Qed.

Lemma costs_verifyTweetByFetching text :
  costs isFetch 2 (verifyTweetByFetching text).
Proof. unfold verifyTweetByFetching, sleep. costs_go. Qed.

#[local] Hint Resolve costs_tryStatusUpdateFallback
  costs_verifyTweetByFetching : costs.

Lemma costs_settle logged variables response :
  costs isFetch 2 (settle logged variables response).
Proof. unfold settle. costs_go. Qed.

Lemma refreshes_postStatusUpdate input :
  costs isRefresh 0 (postStatusUpdate input).
Proof. unfold postStatusUpdate. costs_go. Qed.

Lemma sleeps_postStatusUpdate input : costs isSleep 0 (postStatusUpdate input).
Proof. unfold postStatusUpdate. costs_go. Qed.

#[local] Hint Resolve refreshes_postStatusUpdate sleeps_postStatusUpdate : costs.

Lemma refreshes_tryStatusUpdateFallback errors variables :
  costs isRefresh 0 (tryStatusUpdateFallback errors variables).
Proof. unfold tryStatusUpdateFallback. costs_go. Qed.

Lemma sleeps_tryStatusUpdateFallback errors variables :
  costs isSleep 0 (tryStatusUpdateFallback errors variables).
Proof. unfold tryStatusUpdateFallback. costs_go. Qed.

Lemma refreshes_verifyTweetByFetching text :
  costs isRefresh 0 (verifyTweetByFetching text).
Proof. unfold verifyTweetByFetching, sleep. costs_go. Qed.

Lemma sleeps_verifyTweetByFetching text :
  costs isSleep 2 (verifyTweetByFetching text).
Proof. unfold verifyTweetByFetching, sleep. costs_go. Qed.

#[local] Hint Resolve refreshes_tryStatusUpdateFallback
  sleeps_tryStatusUpdateFallback refreshes_verifyTweetByFetching
  sleeps_verifyTweetByFetching : costs.

Lemma refreshes_settle logged variables response :
  costs isRefresh 0 (settle logged variables response).
Proof. unfold settle. costs_go. Qed.

Lemma sleeps_settle logged variables response :
  costs isSleep 2 (settle logged variables response).
Proof. unfold settle. costs_go. Qed.

Lemma recoveryPolicy_counts mk op (w : World) :
  (count isFetch (recoveryPolicy mk op w).1.1 ≤ 3)%nat
  ∧ (count isRefresh (recoveryPolicy mk op w).1.1 ≤ 1)%nat
  ∧ count isSleep (recoveryPolicy mk op w).1.1 = 0%nat.
Proof.
  unfold recoveryPolicy.
  destruct (is404 _); [destruct (is404 _)|]; cbv [fst snd count]; simpl; lia.
Qed.

(** What follows the recovery in [createTweet]. *)
Lemma costs_classify sel n variables (c : Completion Response) :
  costs sel n (settle false variables (default
    {| status := 0; text := Abrupt ""; json := Abrupt "" |}
    (match c with Normal r => Some r | Abrupt _ => None end))) →
  costs sel n
    (tryCatch (let* response := await c in settle false variables response)
       (λ error, ret (TweetFail error))).
Proof.
  intros Hs. destruct c as [response|e]; simpl in Hs.
  - intros w.
    apply (costs_tryCatch sel n (settle false variables response)
             (λ error, ret (TweetFail error)) Hs (λ e, costs_ret sel _ _) w).
  - intros w. exists []. rewrite app_nil_r.
    split; [done|unfold count; simpl; lia].
Qed.

(** X7. The request budget of a post: once the client's user id is settled,
    [createTweet] (hence [tweet] and [reply]) calls [fetch] at most five
    times (up to three attempts of the recovery, then the legacy fallback or
    up to two verification re-fetches), refreshes the query IDs at most once,
    and sleeps at most twice. *)
Theorem createTweet_request_budget variables (w w0 : World) :
  ensureClientUserId w = (Normal tt, w0) →
  ∃ evs,
    trace (createTweet variables w).2 = trace w0 ++ evs
    ∧ (count isFetch evs ≤ 5)%nat
    ∧ (count isRefresh evs ≤ 1)%nat
    ∧ (count isSleep evs ≤ 2)%nat.
Proof.
  intros Hensure. rewrite (createTweet_policy false variables w w0 Hensure).
  pose proof (recoveryPolicy_trace (createRequest variables) "CreateTweet" w0)
    as Htrace.
  pose proof (recoveryPolicy_counts (createRequest variables) "CreateTweet" w0)
    as (Hf & Hr & Hs).
  destruct (recoveryPolicy _ _ w0) as [[evs last] w1]. simpl in *.
  assert (∀ sel n, costs sel n (settle false variables (default
            {| status := 0; text := Abrupt ""; json := Abrupt "" |}
            (match last with Normal r => Some r | Abrupt _ => None end))) →
          ∃ more, trace (tryCatch
                    (let* response := await last in
                     settle false variables response)
                    (λ error, ret (TweetFail error)) w1).2 = trace w1 ++ more
                  ∧ (count sel more ≤ n)%nat) as Hmore.
  { intros sel n Hc. apply (costs_classify sel n variables last Hc w1). }
  destruct (Hmore isFetch 2%nat (costs_settle _ _ _)) as (more & Hm & Hmf).
  destruct (Hmore isRefresh 0%nat (refreshes_settle _ _ _))
    as (more' & Hm' & Hmr).
  destruct (Hmore isSleep 2%nat (sleeps_settle _ _ _))
    as (more'' & Hm'' & Hms).
  assert (more' = more) as -> by (rewrite Hm in Hm'; by apply app_inv_head in Hm').
  assert (more'' = more) as -> by (rewrite Hm in Hm''; by apply app_inv_head in Hm'').
  exists (evs ++ more). rewrite Hm, Htrace, app_assoc, !count_app.
  split_and!; [done|lia..].
Qed.

Lemma costs_userByScreenNameLoop sel queryIds screenName lastError :
  costs sel (length queryIds)
    (userByScreenNameLoop queryIds screenName lastError).
Proof.
  revert lastError. induction queryIds as [|queryId rest IH]; intros lastError;
    simpl; [apply costs_ret|].
  apply (costs_bind sel 1%nat); [|simpl; rewrite Nat.sub_0_r|lia].
  - unfold userByScreenNameAttempt. costs_go.
  - intros [result|error]; [apply costs_ret|apply IH].
Qed.

Lemma rest_userByScreenNameLoop queryIds screenName lastError :
  costs (fetchesTo isUsersShow) 0
    (userByScreenNameLoop queryIds screenName lastError).
Proof.
  revert lastError. induction queryIds as [|queryId rest IH]; intros lastError;
    simpl; [apply costs_ret|].
  apply (costs_bind _ 0%nat); [| |lia].
  - unfold userByScreenNameAttempt. costs_go.
  - intros [result|error]; [apply costs_ret|apply IH].
Qed.

Lemma costs_usersShowLoop sel urls cleanUsername lastError :
  costs sel (length urls) (usersShowLoop urls cleanUsername lastError).
Proof.
  revert lastError. induction urls as [|url rest IH]; intros lastError;
    simpl; [apply costs_ret|].
  apply (costs_bind sel 1%nat); [|simpl; rewrite Nat.sub_0_r|lia].
  - unfold usersShowAttempt. costs_go.
  - intros [result|error]; [apply costs_ret|apply IH].
Qed.

#[local] Hint Resolve costs_userByScreenNameLoop rest_userByScreenNameLoop
  costs_usersShowLoop : costs.

(** X8. The request budget of a user lookup: [getUserIdByUsername] calls
    [fetch] at most five times, at most two of the calls going to the REST
    endpoint [users/show]; it never refreshes the query IDs and never
    sleeps; and a handle that [normalizeHandle] rejects is answered without
    any request. *)
Theorem lookup_request_budget username :
  costs isFetch 5 (getUserIdByUsername username)
  ∧ costs (fetchesTo isUsersShow) 2 (getUserIdByUsername username)
  ∧ costs (λ e, negb (isFetch e)) 0 (getUserIdByUsername username)
  ∧ ∀ w, truthy (normalizeHandle username) = false →
      getUserIdByUsername username w
        = (Normal (LookupFail ("Invalid username: " +:+ username)), w).
Proof.
  split_and!.
  - unfold getUserIdByUsername, getUserByScreenNameGraphQL. costs_go.
  - unfold getUserIdByUsername, getUserByScreenNameGraphQL. costs_go.
  - unfold getUserIdByUsername, getUserByScreenNameGraphQL.
    destruct (negb _); [apply costs_ret|].
    apply (costs_bind _ 0%nat); [| |lia].
    + generalize (@None string).
      induction [_; _; _] as [|queryId rest IH]; intros lastError; simpl;
        [apply costs_ret|].
      apply (costs_bind _ 0%nat); [| |lia].
      * unfold userByScreenNameAttempt. costs_go.
      * intros [result|error]; [apply costs_ret|apply IH].
    + intros [userId name' displayName|error]; [apply costs_ret|].
      destruct (includes _ _); [apply costs_ret|].
      generalize (Some error).
      induction [_; _] as [|url rest IH]; intros lastError; simpl;
        [apply costs_ret|].
      apply (costs_bind _ 0%nat); [| |lia].
      * unfold usersShowAttempt. costs_go.
      * intros [result|error']; [apply costs_ret|apply IH].
  - intros w Hbad. unfold getUserIdByUsername. by rewrite Hbad.
Qed.

Lemma costs_seq {A B} sel c n (m : M A) (k : A → M B) :
  costs sel c m → (∀ a, costs sel n (k a)) → costs sel (c + n) (bind m k).
Proof.
  intros Hm Hk. apply (costs_bind sel c); [done| |lia].
  by replace (c + n - c)%nat with n by lia.
Qed.

Lemma costs_appendChunks sel fuel input mediaId offset segmentIndex :
  (∀ r, url r = UploadUrl [] → method r = POST → sel (EvFetch r) = false) →
  costs sel 0 (appendChunks fuel input mediaId offset segmentIndex).
Proof.
  intros Hsel. revert offset segmentIndex.
  induction fuel as [|fuel IH]; intros offset segmentIndex; simpl;
    [apply costs_ret|].
  destruct (offset <? _); [|apply costs_ret].
  apply costs_then; [done|]. intros headers.
  apply (costs_seq sel 0%nat 0%nat).
  - apply costs_fetchWithTimeout. intros w. unfold count. simpl.
    by rewrite Hsel.
  - intros appendResp. destruct (negb _); [costs_go|apply IH].
Qed.

Lemma costs_pollProcessing sel remaining mediaId info :
  (∀ ms, sel (EvSleep ms) = false) ∨ (∀ r, sel (EvFetch r) = false) →
  costs sel remaining (pollProcessing remaining mediaId info).
Proof.
  intros Hsel w.
  destruct (pollProcessing_rounds remaining mediaId info w)
    as (rounds & Hlen & Htrace & _).
  eexists. split; [exact Htrace|].
  etrans; [|exact Hlen]. clear Hlen Htrace.
  induction rounds as [|[ms r] rounds IH]; [done|].
  change (count sel ([EvSleep ms; EvFetch r]
                     ++ (rounds ≫= λ round, [EvSleep round.1; EvFetch round.2]))
          ≤ S (length rounds))%nat.
  rewrite count_app.
  assert (count sel [EvSleep ms; EvFetch r] ≤ 1)%nat; [|lia].
  unfold count. simpl.
  destruct Hsel as [Hsel|Hsel]; rewrite Hsel; simpl;
    destruct (sel _); simpl; lia.
Qed.

#[local] Hint Resolve costs_appendChunks : costs.

(** X14. Waiting for media processing is bounded and paced. The loop of
    STATUS polls makes at most as many rounds as it is given attempts, each
    round a sleep of at least one second followed by one GET of the upload
    endpoint's STATUS command for the media id; and [uploadMedia], which
    gives the loop 20 attempts, makes at most 20 GET requests and sleeps at
    most 20 times on any path. *)
Theorem upload_polls_are_bounded :
  (∀ remaining mediaId info (w : World),
     ∃ rounds : list (Z * Request),
       (length rounds ≤ remaining)%nat
       ∧ trace (pollProcessing remaining mediaId info w).2
         = trace w ++ (rounds ≫= λ round, [EvSleep round.1; EvFetch round.2])
       ∧ Forall (λ round,
                   1000 ≤ round.1
                   ∧ url round.2
                     = UploadUrl [("command", "STATUS"); ("media_id", mediaId)]
                   ∧ method round.2 = GET
                   ∧ body round.2 = NoBody) rounds)
  ∧ ∀ input,
      costs isGet 20 (uploadMedia input) ∧ costs isSleep 20 (uploadMedia input).
Proof.
  split; [apply pollProcessing_rounds|].
  intros input.
  assert (∀ mediaId info, costs isGet 20 (pollProcessing 20 mediaId info))
    as Hget by (intros; apply costs_pollProcessing; by left).
  assert (∀ mediaId info, costs isSleep 20 (pollProcessing 20 mediaId info))
    as Hsleep by (intros; apply costs_pollProcessing; by right).
  assert (∀ fuel input mediaId offset segmentIndex,
            costs isGet 0
              (appendChunks fuel input mediaId offset segmentIndex)) as Hget'.
  { intros. apply costs_appendChunks. by intros r _ Hr; simpl; rewrite Hr. }
  assert (∀ fuel input mediaId offset segmentIndex,
            costs isSleep 0
              (appendChunks fuel input mediaId offset segmentIndex)) as Hsleep'.
  { intros. by apply costs_appendChunks. }
  split; unfold uploadMedia; costs_go.
Qed.

(** X15. What an upload does not send. A MIME type that is neither
    [image/*] nor [video/*] is refused before any request is made; and the
    alt-text request to the media-metadata endpoint is made at most once,
    and not at all unless the upload is an image with a non-empty [alt]. *)
Theorem upload_sends_nothing_unasked input :
  (mediaCategoryForMime (mimeType input) = None ↔
   String.prefix "image/" (mimeType input) = false
   ∧ String.prefix "video/" (mimeType input) = false)
  ∧ (mediaCategoryForMime (mimeType input) = None →
     ∀ w, uploadMedia input w
          = (Normal (UploadFail
               ("Unsupported media type: " +:+ mimeType input)), w))
  ∧ costs (fetchesTo isMediaMetadata)
      (if truthy (alt input) && String.prefix "image/" (mimeType input)
       then 1 else 0)
      (uploadMedia input).
Proof.
  split_and!.
  - unfold mediaCategoryForMime.
    destruct (String.prefix "image/" _).
    { destruct (String.eqb _ _); split; try done; by intros [? ?]. }
    destruct (String.prefix "video/" _); split; try done; by intros [? ?].
  - intros Hnone w. unfold uploadMedia. by rewrite Hnone.
  - assert (∀ fuel input mediaId offset segmentIndex,
              costs (fetchesTo isMediaMetadata) 0
                (appendChunks fuel input mediaId offset segmentIndex)) as Ha.
    { intros. apply costs_appendChunks. by intros r Hr _; simpl; rewrite Hr. }
    assert (∀ mediaId info,
              costs (fetchesTo isMediaMetadata) 0
                (pollProcessing 20 mediaId info)) as Hp.
    { intros mediaId info w.
      destruct (pollProcessing_rounds 20 mediaId info w)
        as (rounds & _ & Htrace & Hall).
      eexists. split; [exact Htrace|].
      clear Htrace. induction Hall as [|[ms r] rounds (_ & Hurl & _) _ IH];
        [done|].
      change (count (fetchesTo isMediaMetadata)
                ([EvSleep ms; EvFetch r]
                 ++ (rounds ≫= λ round, [EvSleep round.1; EvFetch round.2]))
              ≤ 0)%nat.
      rewrite count_app. unfold count at 1. simpl in *. rewrite Hurl. simpl.
      exact IH. }
    unfold uploadMedia.
    destruct (truthy (alt input) && String.prefix "image/" (mimeType input));
      costs_go.
Qed.

End Costs.

(** ** Every request is made in the name of the session *)
Section Authenticated.
Import Client.
Context `{Env}.
Variables ct ck : string.

Lemma session_ret {A} (Q : A → Prop) (a : A) : Q a → inSession ct ck Q (ret a).
Proof.
  intros Ha w Hw. split_and!; [done| |by intros a' [= <-]].
  exists []. by rewrite app_nil_r.
Qed.

Lemma session_bind {A B} (Q' : A → Prop) (Q : B → Prop) (m : M A)
    (k : A → M B) :
  inSession ct ck Q' m → (∀ a, Q' a → inSession ct ck Q (k a)) → inSession ct ck Q (bind m k).
Proof.
  intros Hm Hk w Hw. unfold bind.
  destruct (Hm w Hw) as (Hw' & (evs1 & Ht1 & Hp1) & Hq).
  destruct (m w) as [[a|e] w']; simpl in *.
  - destruct (Hk a (Hq a eq_refl) w' Hw') as (Hw'' & (evs2 & Ht2 & Hp2) & Hq').
    split_and!; [done| |done].
    exists (evs1 ++ evs2). rewrite Ht2, Ht1, app_assoc.
    split; [done|by apply Forall_app].
  - split_and!; [done|by exists evs1|done].
Qed.

Lemma session_then {A B} (Q : B → Prop) (m : M A) (k : A → M B) :
  inSession ct ck (λ _, True) m → (∀ a, inSession ct ck Q (k a)) → inSession ct ck Q (bind m k).
Proof. intros Hm Hk. apply (session_bind (λ _, True)); [done|]. by intros a _. Qed.

Lemma session_any {A} (Q : A → Prop) (m : M A) :
  inSession ct ck Q m → inSession ct ck (λ _, True) m.
Proof.
  intros Hm w Hw. destruct (Hm w Hw) as (Hw' & Hevs & _). by split_and!.
Qed.

Lemma session_tryCatch {A} (Q : A → Prop) (m : M A) (handler : string → M A) :
  inSession ct ck Q m → (∀ e, inSession ct ck Q (handler e)) →
  inSession ct ck Q (tryCatch m handler).
Proof.
  intros Hm Hh w Hw. unfold tryCatch.
  destruct (Hm w Hw) as (Hw' & (evs1 & Ht1 & Hp1) & Hq).
  destruct (m w) as [[a|e] w']; simpl in *.
  - split_and!; [done|by exists evs1|done].
  - destruct (Hh e w' Hw') as (Hw'' & (evs2 & Ht2 & Hp2) & Hq').
    split_and!; [done| |done].
    exists (evs1 ++ evs2). rewrite Ht2, Ht1, app_assoc.
    split; [done|by apply Forall_app].
Qed.

Lemma session_ext {A} (Q : A → Prop) (m m' : M A) :
  (∀ w, m w = m' w) → inSession ct ck Q m' → inSession ct ck Q m.
Proof. intros Heq Hm w Hw. rewrite Heq. by apply Hm. Qed.

Lemma session_assoc {A B C} (Q : C → Prop) (m : M A) (k1 : A → M B)
    (k2 : B → M C) :
  inSession ct ck Q (bind m (λ a, bind (k1 a) k2)) →
  inSession ct ck Q (bind (bind m k1) k2).
Proof.
  apply session_ext. intros w. unfold bind. by destruct (m w) as [[a|e] w'].
Qed.

Lemma session_ret_bind {A B} (Q : B → Prop) (a : A) (k : A → M B) :
  inSession ct ck Q (k a) → inSession ct ck Q (bind (ret a) k).
Proof. by apply session_ext. Qed.

(** A step that leaves the world as it is. *)
Lemma session_quiet {A} (m : M A) :
  (∀ w, (m w).2 = w) → inSession ct ck (λ _, True) m.
Proof.
  intros Hm w Hw. rewrite Hm. split_and!; [done| |done].
  exists []. by rewrite app_nil_r.
Qed.

Lemma session_get :
  inSession ct ck (holds ct ck) get.
Proof.
  intros w Hw. split_and!; [done| |by intros a [= <-]].
  exists []. by rewrite app_nil_r.
Qed.

Lemma session_emit e :
  authenticated ct ck e → inSession ct ck (λ _, True) (emit e).
Proof.
  intros He w Hw. split_and!; [done| |done].
  exists [e]. split; [done|by apply Forall_singleton].
Qed.

Lemma session_setClientUserId id : inSession ct ck (λ _, True) (setClientUserId id).
Proof.
  intros w Hw. split_and!; [done| |done]. exists []. by rewrite app_nil_r.
Qed.

Lemma session_refreshQueryIds : inSession ct ck (λ _, True) refreshQueryIds.
Proof.
  intros w [Hct Hck]. rewrite refreshQueryIds_run. cbn [fst snd].
  unfold holds. rewrite this_refreshed, trace_refreshed.
  split_and!; [done|done| |done].
  exists [EvRefreshQueryIds]. split; [done|by apply Forall_singleton].
Qed.

Lemma session_fetchWithTimeout url method headers body :
  signed ct ck headers →
  inSession ct ck (λ _, True) (fetchWithTimeout url method headers body).
Proof.
  intros Hh w Hw. split_and!; [done| |done].
  eexists [_]. split; [reflexivity|]. by apply Forall_singleton.
Qed.

Lemma signed_baseHeadersOf w :
  holds ct ck w → signed ct ck (baseHeadersOf w).
Proof. by intros [Hct Hck]. Qed.

Lemma signed_withContentType c h :
  signed ct ck h → signed ct ck (withContentType c h).
Proof. done. Qed.

Lemma signed_withReferer r h :
  signed ct ck h → signed ct ck (withReferer r h).
Proof. done. Qed.

Create HintDb signed discriminated.

#[local] Hint Resolve signed_baseHeadersOf signed_withContentType
  signed_withReferer : signed.

Create HintDb session discriminated.

(** One step through the body of an operation. *)
Ltac session_step :=
  first
    [ apply session_ret; first [exact I|solve [auto with signed nocore]]
    | match goal with
      | |- inSession _ _ _ (bind (bind _ _) _) => apply session_assoc
      | |- inSession _ _ _ (bind (ret _) _) => apply session_ret_bind
      | |- inSession _ _ _ (bind get _) =>
          apply (session_bind (holds ct ck)); [apply session_get|intros ? ?]
      | |- inSession _ _ _ (bind (fetchWithTimeout _ _ _ _) _) =>
          apply session_then;
            [ apply session_fetchWithTimeout; solve [auto with signed nocore]
            | intros ? ]
      | |- inSession _ _ _ (bind (emit _) _) =>
          apply session_then; [apply session_emit; exact I|intros ?]
      | |- inSession _ _ _ (bind (if ?b then _ else _) _) => destruct b
      | |- inSession _ _ _ (bind (match ?x with _ => _ end) _) => destruct x
      | |- inSession _ _ _ (bind _ _) =>
          first
            [ eapply session_bind; [solve [eauto with session nocore]|intros ? ?]
            | apply session_then;
                [apply session_quiet; intros ?; reflexivity|intros ?] ]
      end
    | apply session_tryCatch; [|intros ?]
    | match goal with
      | |- inSession _ _ _ (if ?b then _ else _) => destruct b
      | |- inSession _ _ _ (match ?x with _ => _ end) => destruct x
      end
    | solve [auto with session nocore]
    | eapply session_any; solve [auto with session nocore]
    | progress cbv beta zeta ].

Ltac session_go := repeat session_step.

Lemma session_getBaseHeaders :
  inSession ct ck (signed ct ck) getBaseHeaders.
Proof. unfold getBaseHeaders. session_go. Qed.

#[local] Hint Resolve session_getBaseHeaders session_refreshQueryIds
  session_setClientUserId : session.

Lemma session_getJsonHeaders :
  inSession ct ck (signed ct ck) getJsonHeaders.
Proof. unfold getJsonHeaders. session_go. Qed.

Lemma session_getUploadHeaders :
  inSession ct ck (signed ct ck) getUploadHeaders.
Proof. unfold getUploadHeaders. session_go. Qed.

#[local] Hint Resolve session_getJsonHeaders session_getUploadHeaders : session.

Lemma session_getHeaders :
  inSession ct ck (signed ct ck) getHeaders.
Proof. unfold getHeaders. session_go. Qed.

#[local] Hint Resolve session_getHeaders : session.

Lemma session_composeHeaders :
  inSession ct ck (signed ct ck) composeHeaders.
Proof. unfold composeHeaders. session_go. Qed.

#[local] Hint Resolve session_composeHeaders : session.

Lemma session_ensureClientUserId :
  inSession ct ck (λ _, True) getCurrentUser →
  inSession ct ck (λ _, True) ensureClientUserId.
Proof. intros Hcu. unfold ensureClientUserId. session_go. Qed.

Lemma session_parseResponse response :
  inSession ct ck (λ _, True) (parseResponse response).
Proof. unfold parseResponse. session_go. Qed.

#[local] Hint Resolve session_parseResponse : session.

Lemma session_performEngagementMutation operationName tweetId :
  inSession ct ck (λ _, True) (performEngagementMutation operationName tweetId).
Proof.
  unfold performEngagementMutation. session_go.
  apply (session_bind (λ _, True)); [session_go|].
  intros [result|response] _; session_go.
Qed.

Lemma session_postStatusUpdate input :
  inSession ct ck (λ _, True) (postStatusUpdate input).
Proof. unfold postStatusUpdate. session_go. Qed.

Lemma session_verifyTweetByFetching text :
  inSession ct ck (λ _, True) (verifyTweetByFetching text).
Proof. unfold verifyTweetByFetching, sleep. session_go. Qed.

#[local] Hint Resolve session_postStatusUpdate session_verifyTweetByFetching : session.

Lemma session_tryStatusUpdateFallback errors variables :
  inSession ct ck (λ _, True) (tryStatusUpdateFallback errors variables).
Proof. unfold tryStatusUpdateFallback. session_go. Qed.

#[local] Hint Resolve session_tryStatusUpdateFallback : session.

Lemma session_settle logged variables response :
  inSession ct ck (λ _, True) (settle logged variables response).
Proof. unfold settle. session_go. Qed.

#[local] Hint Resolve session_settle : session.

Lemma session_createTweet variables :
  inSession ct ck (λ _, True) getCurrentUser →
  inSession ct ck (λ _, True) (createTweet variables).
Proof.
  intros Hcu. pose proof (session_ensureClientUserId Hcu).
  unfold createTweet. session_go.
Qed.

Lemma session_appendChunks fuel input mediaId offset segmentIndex :
  inSession ct ck (λ _, True) (appendChunks fuel input mediaId offset segmentIndex).
Proof.
  revert offset segmentIndex.
  induction fuel as [|fuel IH]; intros offset segmentIndex; simpl; session_go.
Qed.

Lemma session_pollProcessing remaining mediaId info :
  inSession ct ck (λ _, True) (pollProcessing remaining mediaId info).
Proof.
  revert info. induction remaining as [|remaining IH]; intros info; simpl;
    unfold sleep; session_go.
Qed.

#[local] Hint Resolve session_appendChunks session_pollProcessing : session.

Lemma session_uploadMedia input : inSession ct ck (λ _, True) (uploadMedia input).
Proof. unfold uploadMedia. session_go. Qed.

Lemma session_userByScreenNameLoop queryIds screenName lastError :
  inSession ct ck (λ _, True) (userByScreenNameLoop queryIds screenName lastError).
Proof.
  revert lastError. induction queryIds as [|queryId rest IH]; intros lastError;
    simpl; [session_go|].
  apply session_then; [unfold userByScreenNameAttempt; session_go|].
  intros [result|error]; session_go.
Qed.

Lemma session_usersShowLoop urls cleanUsername lastError :
  inSession ct ck (λ _, True) (usersShowLoop urls cleanUsername lastError).
Proof.
  revert lastError. induction urls as [|url rest IH]; intros lastError;
    simpl; [session_go|].
  apply session_then; [unfold usersShowAttempt; session_go|].
  intros [result|error]; session_go.
Qed.

#[local] Hint Resolve session_userByScreenNameLoop session_usersShowLoop : session.

Lemma session_getUserIdByUsername username :
  inSession ct ck (λ _, True) (getUserIdByUsername username).
Proof. unfold getUserIdByUsername, getUserByScreenNameGraphQL. session_go. Qed.

(** X9. Every request is made in the name of the session. From a client
    that holds a CSRF token and a cookie header, [createTweet] (hence [tweet]
    and [reply]), [performEngagementMutation] (hence [like], [unlike],
    [retweet], [unretweet] and [bookmark]), [uploadMedia] and
    [getUserIdByUsername] send only requests whose [x-csrf-token] header is
    that token and whose [cookie] header is that cookie header, on every
    path, retries and fallbacks included, and leave the client holding the
    same session; for [createTweet], provided [getCurrentUser] does so. *)
Theorem requests_carry_session :
  (inSession ct ck (λ _, True) getCurrentUser →
   ∀ variables, inSession ct ck (λ _, True) (createTweet variables))
  ∧ (∀ operationName tweetId,
       inSession ct ck (λ _, True)
         (performEngagementMutation operationName tweetId))
  ∧ (∀ input, inSession ct ck (λ _, True) (uploadMedia input))
  ∧ (∀ username, inSession ct ck (λ _, True) (getUserIdByUsername username)).
Proof.
  split_and!.
  - intros Hcu variables. by apply session_createTweet.
  - apply session_performEngagementMutation.
  - apply session_uploadMedia.
  - apply session_getUserIdByUsername.
Qed.

End Authenticated.

(** ** Query IDs: fallback lists and failed refreshes *)
Section QueryIds.
Import Client.
Context `{Env}.

Lemma arrayFromSet_fold (ids set : list string) :
  NoDup set →
  let result :=
    foldl (λ set i, if bool_decide (i ∈ set) then set else set ++ [i]) set ids
  in
  NoDup result
  ∧ set `prefix_of` result
  ∧ ∀ i, i ∈ result ↔ i ∈ set ∨ i ∈ ids.
Proof.
  revert set. induction ids as [|i ids IH]; intros set Hset; simpl.
  { split_and!; [done|done|]. intros i. rewrite elem_of_nil. tauto. }
  case_bool_decide as Hi.
  - destruct (IH set Hset) as (Hnd & Hpre & Hin). split_and!; [done..|].
    intros j. rewrite Hin, elem_of_cons.
    split; [tauto|]. intros [?|[->|?]]; auto.
  - assert (NoDup (set ++ [i])) as Hset'.
    { apply NoDup_app. split_and!; [done| |apply NoDup_singleton].
      intros j Hj ->%list_elem_of_singleton. done. }
    destruct (IH _ Hset') as (Hnd & Hpre & Hin). split_and!; [done| |].
    + etrans; [|exact Hpre]. by apply prefix_app_r.
    + intros j. rewrite Hin, elem_of_app, list_elem_of_singleton, elem_of_cons.
      tauto.
Qed.

Lemma arrayFromSet_spec (primary : string) (fallbacks : list string) :
  NoDup (arrayFromSet (primary :: fallbacks))
  ∧ head (arrayFromSet (primary :: fallbacks)) = Some primary
  ∧ ∀ i, i ∈ arrayFromSet (primary :: fallbacks) ↔ i ∈ primary :: fallbacks.
Proof.
  unfold arrayFromSet. simpl.
  destruct (arrayFromSet_fold fallbacks [primary] (NoDup_singleton primary))
    as (Hnd & [rest Hpre] & Hin).
  split_and!; [done| |].
  - by rewrite Hpre.
  - intros i. rewrite Hin, list_elem_of_singleton, elem_of_cons. done.
Qed.

(** X11. The query-ID lists of [getTweetDetailQueryIds] and
    [getSearchTimelineQueryIds]: the ID that [getQueryId] resolves comes
    first, every baked-in fallback is in the list, no ID is listed twice
    (so none is tried twice, also when the resolved ID is one of the
    fallbacks), and making the list changes nothing. *)
Theorem query_id_lists (w : World) :
  (∃ ids,
     getTweetDetailQueryIds w = (Normal ids, w)
     ∧ head ids = Some (resolved w "TweetDetail")
     ∧ NoDup ids
     ∧ ∀ i, i ∈ ids ↔
         i ∈ [resolved w "TweetDetail"; "97JF30KziU00483E_8elBA";
              "aFvUsJm2c-oDkJV75blV6g"])
  ∧ (∃ ids,
       getSearchTimelineQueryIds w = (Normal ids, w)
       ∧ head ids = Some (resolved w "SearchTimeline")
       ∧ NoDup ids
       ∧ ∀ i, i ∈ ids ↔
           i ∈ [resolved w "SearchTimeline"; "M1jEez78PEfVfbQLvlWMvQ";
                "5h0kNbk3ii97rmfY6CdgAA"; "Tp1sewRU1AsZpBWhqCZicQ"]).
Proof.
  split; eexists; (split; [reflexivity|]);
    match goal with
    | |- context [arrayFromSet (?p :: ?f)] =>
        destruct (arrayFromSet_spec p f) as (Hnd & Hhd & Hin)
    end; by split_and!.
Qed.

(** X12. A refresh of the query IDs that fails is swallowed: under
    [NODE_ENV=test], and when [runtimeQueryIds.refresh] throws,
    [refreshQueryIds] completes normally and leaves the live cache as it
    was, so that every operation resolves to the same ID as before, and the
    retry that follows an HTTP 404 goes to the same URL again. *)
Theorem failed_refresh_keeps_ids (w : World) :
  nodeEnvTest w = true ∨ isNormal (refresh (runtimeQueryIds w)) = false →
  refreshQueryIds w = (Normal tt, after EvRefreshQueryIds w)
  ∧ (∀ operationName,
       getQueryId operationName (after EvRefreshQueryIds w)
       = (Normal (resolved w operationName), after EvRefreshQueryIds w))
  ∧ ∀ mk operationName response,
      let q := resolved w operationName in
      let r1 := mk w (OperationUrl q operationName []) q in
      (∀ w' target q', url (mk w' target q') = target) →
      net (trace w) r1 = Normal response → status response = 404 →
      ∃ r2 rest,
        (recoveryPolicy mk operationName w).1.1
          = EvFetch r1 :: EvRefreshQueryIds :: EvFetch r2 :: rest
        ∧ url r2 = url r1.
Proof.
  intros Hfail.
  assert (refreshQueryIds w = (Normal tt, after EvRefreshQueryIds w)) as Hrun.
  { unfold refreshQueryIds, bind, emit, get, tryCatch, await. simpl.
    destruct Hfail as [->|Hthrows]; [done|].
    destruct (nodeEnvTest w); [done|].
    by destruct (refresh (runtimeQueryIds w)). }
  split_and!; [done|done|].
  intros mk op response q r1 Hmk Hnet H404.
  assert (refreshed (sent r1 w) = after EvRefreshQueryIds (sent r1 w)) as Href.
  { unfold refreshed, refreshQueryIds, bind, emit, get, tryCatch, await. simpl.
    destruct Hfail as [->|Hthrows]; [done|].
    destruct (nodeEnvTest w); [done|].
    by destruct (refresh (runtimeQueryIds w)). }
  unfold recoveryPolicy. fold q r1. rewrite Hnet, is404_Normal, H404. simpl.
  rewrite Href.
  destruct (is404 _); simpl; eexists _, _; (split; [reflexivity|]);
    subst q r1; by rewrite !Hmk.
Qed.

End QueryIds.

(** ** Definitive answers end a user lookup *)
Section Lookup.
Import Client.
Context `{Env}.

Lemma substring_all (s : string) : String.substring 0 (String.length s) s = s.
Proof. induction s as [|c s IH]; simpl; [done|by rewrite IH]. Qed.

Lemma substring_after (a b : string) :
  String.substring (String.length a) (String.length b) (a +:+ b) = b.
Proof. induction a as [|c a IH]; simpl; [apply substring_all|exact IH]. Qed.

Lemma append_assoc (a b c : string) : (a +:+ b) +:+ c = a +:+ (b +:+ c).
Proof.
  induction a as [|x a IH]; [done|]. exact (f_equal (String x) IH).
Qed.

Lemma includes_suffix (a b : string) : b ≠ "" → includes b (a +:+ b) = true.
Proof.
  intros Hb. unfold includes.
  destruct (String.index 0 b (a +:+ b)) as [n|] eqn:Hindex; [done|].
  destruct (String.index_correct3 0 (String.length a) b (a +:+ b) Hindex Hb);
    [lia|apply substring_after].
Qed.

(** X10. A definitive answer ends the lookup. When the first GraphQL
    response says the user is unavailable, [getUserIdByUsername] returns that
    failure after this one request: no other query ID is tried, and the REST
    fallback is not consulted. *)
Theorem unavailable_user_ends_lookup username cleanUsername (w : World)
    response data :
  let r :=
    requestOf w
      (OperationUrl "xc8f1g7BYqr6VTzTbvNlGw" "UserByScreenName"
         [("screen_name", cleanUsername)])
      GET (jsonHeadersOf w) NoBody in
  normalizeHandle username = Some cleanUsername →
  cleanUsername ≠ "" →
  net (trace w) r = Normal response →
  ok response = true →
  json response = Normal data →
  user_result data ≫= ur_typename = Some "UserUnavailable" →
  getUserIdByUsername username w
  = (Normal (LookupFail
       ("User @" +:+ cleanUsername +:+ " not found or unavailable")),
     sent r w).
Proof.
  intros r Hhandle Hclean Hnet Hok Hjson Hgone.
  unfold getUserIdByUsername. rewrite Hhandle. simpl.
  apply String.eqb_neq in Hclean. rewrite Hclean. simpl.
  cbv [getUserByScreenNameGraphQL userByScreenNameLoop userByScreenNameAttempt
       bind tryCatch ret get emit await getHeaders getJsonHeaders
       getBaseHeaders fetchWithTimeout].
  fold (jsonHeadersOf w). fold r. rewrite Hnet, Hok, Hjson. simpl.
  rewrite Hgone, bool_decide_eq_true_2 by done.
  assert (includes "not found or unavailable"
            ("User @" +:+ cleanUsername +:+ " not found or unavailable") = true)
    as ->; [|reflexivity].
  assert ("User @" +:+ cleanUsername +:+ " not found or unavailable"
          = ("User @" +:+ cleanUsername +:+ " ") +:+ "not found or unavailable")
    as -> by (by rewrite !append_assoc).
  by apply includes_suffix.
Qed.

End Lookup.

(** ** The legacy write carries the tweet *)
Section LegacyForm.
Import Client.

(** X16. The legacy form keeps what the GraphQL variables say. Variables
    with a non-empty text translate, and the form encoded for
    [statuses/update] then has each key once, [status] holding the text,
    [in_reply_to_status_id] the tweet replied to together with
    [auto_populate_reply_metadata=true] exactly when there is a non-empty
    one, [media_ids] the media ids joined by commas exactly when there are
    any, and no other key; variables with an empty text do not
    translate. *)
Theorem legacy_form_keeps_the_tweet variables :
  (statusUpdateInputFromCreateTweetVariables variables = None ↔
   tweet_text variables = "")
  ∧ ∀ input,
      statusUpdateInputFromCreateTweetVariables variables = Some input →
      let form : gmap string string :=
        list_to_map (statusUpdateParams input) in
      NoDup (statusUpdateParams input).*1
      ∧ form !! "status" = Some (tweet_text variables)
      ∧ form !! "in_reply_to_status_id"
        = (if truthy (in_reply_to_tweet_id variables)
           then in_reply_to_tweet_id variables else None)
      ∧ form !! "auto_populate_reply_metadata"
        = (if truthy (in_reply_to_tweet_id variables)
           then Some "true" else None)
      ∧ form !! "media_ids"
        = match media_ids variables with
          | [] => None
          | ids => Some (String.concat "," ids)
          end
      ∧ ∀ key, is_Some (form !! key) →
          key ∈ ["status"; "in_reply_to_status_id";
                 "auto_populate_reply_metadata"; "media_ids"].
Proof.
  unfold statusUpdateInputFromCreateTweetVariables. split.
  { destruct (String.eqb_spec (tweet_text variables) ""); by split. }
  intros input. destruct (String.eqb _ _); [done|]. intros [= <-].
  unfold statusUpdateParams. simpl.
  destruct (in_reply_to_tweet_id variables) as [replyTo|]; simpl;
    [destruct (String.eqb replyTo ""); simpl|];
    destruct (media_ids variables) as [|i ids]; simpl.
  all: split;
         [ repeat (apply NoDup_cons_2;
                   [rewrite ?elem_of_cons, elem_of_nil;
                    intros ?; destruct_or!; done|]);
           apply NoDup_nil_2 | ].
  all: split_and!; try (by simplify_map_eq).
  all: intros key [v Hv];
       repeat (apply lookup_insert_Some in Hv as [[<- _]|[_ Hv]];
               [repeat first [apply list_elem_of_here
                             |apply list_elem_of_further]|]);
       by rewrite lookup_empty in Hv.
Qed.

End LegacyForm.

(** ** The command line *)
Section CliProperties.
Import Cli.
Variable parseInt : string → option Z.
Variable toLowerCase : string → string.
Variable readFileSync : string → Completion (list Byte.byte).

Lemma parsePositiveIntFlag_range raw flagName value :
  parsePositiveIntFlag parseInt raw flagName = ParsedOk value →
  (value = None ↔ raw = None) ∧ ∀ n, value = Some n → 1 ≤ n.
Proof.
  unfold parsePositiveIntFlag. destruct raw as [raw|].
  - destruct (parseInt raw) as [n|]; [|done].
    destruct (n <=? 0) eqn:Hn; [done|]. apply Z.leb_gt in Hn.
    intros [= <-]. split; [done|]. intros ? [= <-]. lia.
  - intros [= <-]. done.
Qed.

Lemma parseNonNegativeIntFlag_range raw flagName defaultValue value :
  parseNonNegativeIntFlag parseInt raw flagName defaultValue = ParsedOk value →
  0 ≤ value.
Proof.
  unfold parseNonNegativeIntFlag. destruct (parseInt _) as [n|]; [|done].
  destruct (n <? 0) eqn:Hn; [done|]. apply Z.ltb_ge in Hn. by intros [= <-].
Qed.

(** X17. Flags that [parsePaginationFlags] accepts are in range: a page
    limit is there exactly when [--max-pages] was given, and is at least 1;
    a page delay is there exactly when the command asks for one
    ([includeDelay]), and is not negative; the cursor is passed on as
    given. *)
Theorem accepted_flags_are_in_range cmdOpts opts flags :
  parsePaginationFlags parseInt cmdOpts opts = ParsedOk flags →
  (flag_maxPages flags = None ↔ cmd_maxPages cmdOpts = None)
  ∧ (∀ n, flag_maxPages flags = Some n → 1 ≤ n)
  ∧ (flag_pageDelayMs flags = None ↔ default false (opts ≫= includeDelay) = false)
  ∧ (∀ d, flag_pageDelayMs flags = Some d → 0 ≤ d)
  ∧ flag_cursor flags = cmd_cursor cmdOpts.
Proof.
  unfold parsePaginationFlags.
  destruct (parsePositiveIntFlag _ _ _) as [maxPages|error] eqn:Hmax; [|done].
  apply parsePositiveIntFlag_range in Hmax as [Hnone Hpos].
  destruct (default false (opts ≫= includeDelay)).
  - destruct (parseNonNegativeIntFlag _ _ _ _) as [delay|error] eqn:Hdelay;
      [|done].
    apply parseNonNegativeIntFlag_range in Hdelay.
    intros [= <-]. simpl. split_and!; [done|done|done|by intros d [= <-]|done].
  - intros [= <-]. simpl. by split_and!.
Qed.

(** X18. A page limit that the command line accepts bounds the fetches.
    With the options that [parsePaginationFlags] hands on, a limit of [n]
    pages makes [paginateCursor] return after at least one and at most [n]
    calls of [fetchPage], whatever the pages are: the limit of zero, under
    which a page is still fetched, cannot come from the command line. *)
Theorem accepted_page_limit_bounds_fetches {T W} cmdOpts opts flags n
    (sleep : Z → W → W) (getKey : T → string)
    (fetchPage : option string → W → Completion (Paginator.CursorPage T) * W)
    (w : W) :
  parsePaginationFlags parseInt cmdOpts opts = ParsedOk flags →
  flag_maxPages flags = Some n →
  ∃ c w' calls,
    Paginator.paginateCursor (Z.to_nat n)
      (Paginator.recording
         {| Paginator.cursor := flag_cursor flags;
            Paginator.maxPages := flag_maxPages flags;
            Paginator.pageDelayMs := flag_pageDelayMs flags;
            Paginator.sleep := sleep;
            Paginator.getKey := getKey;
            Paginator.fetchPage := fetchPage |})
      (w, [])
    = Some (c, (w', calls))
    ∧ 1 ≤ Z.of_nat (length calls) ≤ n.
Proof.
  intros Hflags Hmax.
  assert (1 ≤ n) as Hpos.
  { revert Hflags. unfold parsePaginationFlags.
    destruct (parsePositiveIntFlag _ _ _) as [maxPages|error] eqn:Hparsed;
      [|done].
    apply parsePositiveIntFlag_range in Hparsed as [_ Hpos].
    destruct (default false _); [destruct (parseNonNegativeIntFlag _ _ _ _)|];
      try done; intros [= <-]; by apply Hpos. }
  set (popts := {| Paginator.cursor := flag_cursor flags |}).
  destruct (loop_bounded (Z.to_nat n) popts (Paginator.initial popts) w [] n)
    as (c & w' & calls & Hrun & Hle);
    [exact Hmax|apply tracks_initial|simpl; lia|simpl; lia|].
  exists c, w', calls. split; [exact Hrun|]. split; [|done].
  apply (loop_recorded _ _ _ _ _ _ _ _ (tracks_initial popts)) in Hrun
    as [(before & used & p & -> & _) _].
  rewrite length_app. simpl. lia.
Qed.

(** X19. Whatever [detectMime] makes of a path, [uploadMedia] accepts: every
    MIME type it returns has a media category, [tweet_video] for the video
    types, [tweet_gif] for [image/gif] and [tweet_image] for the other
    images, so that a file the command line lets through is never refused
    as an unsupported media type. *)
Theorem detected_mime_is_uploadable path mime :
  detectMime toLowerCase path = Some mime →
  ∃ category,
    Client.mediaCategoryForMime mime = Some category
    ∧ (category = "tweet_video" ↔ String.prefix "video/" mime = true)
    ∧ (category = "tweet_gif" ↔ mime = "image/gif")
    ∧ (category = "tweet_image" ↔
       String.prefix "image/" mime = true ∧ mime ≠ "image/gif").
Proof.
  unfold detectMime.
  repeat match goal with
         | |- (if ?b then _ else _) = _ → _ => destruct b
         end;
    intros [= <-]; eexists; (split; [reflexivity|]);
    split_and!; split; try done; by intros [? ?].
Qed.

Lemma readSpecs_spec index media alts specs :
  readSpecs toLowerCase readFileSync index media alts = Normal specs →
  spec_path <$> specs = media
  ∧ ∀ i m, specs !! i = Some m →
      detectMime toLowerCase (spec_path m) = Some (spec_mime m)
      ∧ readFileSync (spec_path m) = Normal (spec_buffer m)
      ∧ spec_alt m = alts !! (index + i)%nat.
Proof.
  revert index specs.
  induction media as [|path rest IH]; intros index specs; simpl.
  { intros [= <-]. split; [done|]. by intros i m. }
  destruct (detectMime toLowerCase path) as [mime|] eqn:Hmime; [|done].
  destruct (readFileSync path) as [buffer|e] eqn:Hread; [|done].
  destruct (readSpecs _ _ _ rest alts) as [specs'|e] eqn:Hrest; [|done].
  intros [= <-]. apply IH in Hrest as [Hpaths Hspecs]. split.
  - simpl. f_equal. exact Hpaths.
  - intros [|i] m; simpl.
    + intros [= <-]. simpl. by rewrite Nat.add_0_r.
    + intros Hm. destruct (Hspecs i m Hm) as (? & ? & ->).
      split_and!; [done..|]. f_equal. lia.
Qed.

(** X20. What [loadMedia] returns fits one tweet: one spec per path, in the
    order given, each with the MIME type detected from its path, the bytes
    read from it and the alt text at its index; at most four of them; and a
    video only by itself. *)
Theorem loaded_media_fit_a_tweet media alts specs :
  loadMedia toLowerCase readFileSync media alts = Normal specs →
  spec_path <$> specs = media
  ∧ (length specs ≤ 4)%nat
  ∧ (∀ i m, specs !! i = Some m →
       detectMime toLowerCase (spec_path m) = Some (spec_mime m)
       ∧ readFileSync (spec_path m) = Normal (spec_buffer m)
       ∧ spec_alt m = alts !! i)
  ∧ ∀ m, m ∈ specs → String.prefix "video/" (spec_mime m) = true →
      specs = [m].
Proof.
  unfold loadMedia. destruct media as [|path rest].
  { intros [= <-]. split_and!; [done|simpl; lia|by intros i m|].
    by intros m ?%elem_of_nil. }
  destruct (readSpecs _ _ _ _ _) as [specs'|e] eqn:Hread; [|done].
  apply readSpecs_spec in Hread as [Hpaths Hspecs].
  destruct (1 <? _)%nat eqn:Hvideos; [done|]. apply Nat.ltb_ge in Hvideos.
  destruct ((_ =? 1)%nat && _) eqn:Hmixed; [done|].
  destruct (4 <? _)%nat eqn:Hmany; [done|]. apply Nat.ltb_ge in Hmany.
  intros [= <-]. split_and!; [done..|].
  intros m Hm Hvideo.
  assert (m ∈ List.filter isVideo specs') as Hin.
  { apply list_elem_of_In, List.filter_In. by split; [apply list_elem_of_In|]. }
  assert (length (List.filter isVideo specs') = 1)%nat as Hone.
  { destruct (List.filter isVideo specs'); [by apply elem_of_nil in Hin|].
    simpl in *. lia. }
  rewrite Hone in Hmixed. simpl in Hmixed. apply Nat.ltb_ge in Hmixed.
  destruct specs' as [|m' [|m'' specs']]; simpl in Hmixed;
    [by apply elem_of_nil in Hm| |lia].
  by apply list_elem_of_singleton in Hm as ->.
Qed.

End CliProperties.

(** ** A post that cannot be verified *)
Section Unverified.
Import Client.
Context `{Env}.

Lemma this_recoveryPolicy mk op (w : World) :
  this (recoveryPolicy mk op w).2 = this w.
Proof.
  unfold recoveryPolicy.
  destruct (is404 _); [|done].
  destruct (is404 _); simpl; by rewrite this_refreshed.
Qed.

(** X21. A post that cannot be verified is reported as lost. When the last
    attempt of [createTweet] is answered 2xx without errors and without a
    tweet id, and the client does not know its own user id (as under
    [NODE_ENV=test], or when [getCurrentUser] failed), the verification
    re-fetch is skipped: nothing more is sent, there is no sleep, and the
    result is the failure "Tweet not found after posting". *)
Theorem unverifiable_post_is_reported_lost variables (w w0 : World)
    response data :
  ensureClientUserId w = (Normal tt, w0) →
  truthy (this_clientUserId (this w0)) = false →
  (recoveryPolicy (createRequest variables) "CreateTweet" w0).1.2
    = Normal response →
  ok response = true →
  json response = Normal data →
  default [] (errors data) = [] →
  truthy (extractTweetIdFromResponse data) = false →
  createTweet variables w
  = (Normal (TweetFail NOT_FOUND_AFTER_POSTING),
     (recoveryPolicy (createRequest variables) "CreateTweet" w0).2).
Proof.
  intros Hensure Hanon Hlast Hok Hjson Herrors Hid.
  rewrite (createTweet_policy false variables w w0 Hensure).
  pose proof (this_recoveryPolicy (createRequest variables) "CreateTweet" w0)
    as Hthis.
  destruct (recoveryPolicy _ _ w0) as [[evs last] w1]. simpl in *. subst last.
  cbv [tryCatch bind await settle ret]. rewrite Hok, Hjson. simpl.
  assert (verifyTweetByFetching (tweet_text variables) w1 = (Normal None, w1))
    as Hskip.
  { cbv [verifyTweetByFetching bind get ret]. by rewrite Hthis, Hanon. }
  destruct (errors data) as [[|e es]|]; try done; rewrite Hid;
    (destruct (String.eqb _ _); [done|by rewrite Hskip]).
Qed.

End Unverified.

(** ** The further properties, on concrete runs *)
Section ExtraRuns.
Import Paginator Client Cli Scenario Trials.

Lemma fetches_follow_cursors_witness :
  (∃ p rest, callsB = (None, p) :: rest)
  ∧ ∀ i call next,
      callsB !! i = Some call → callsB !! S i = Some next →
      ∃ pitems, call.2 = Normal (PageOk pitems next.1).
Proof.
  apply (fetches_follow_cursors 3 (scriptedOpts tweetId None None pagesB)
           0%nat (Normal (ResOk [dup; fresh] None)) 3%nat callsB).
  vm_compute; reflexivity.
Defined.

Lemma sleeps_between_fetches_witness :
  ∃ first later,
    paginateCursor 3 (recording (delayed 250 pagesB)) (0%nat, [])
      = Some (Normal (ResOk [dup; fresh] None), (3%nat, first :: later))
    ∧ [Fetched (None, Normal (PageOk [dup] (Some "p2")));
       Slept 250;
       Fetched (Some "p2", Normal (PageOk [dupAgain] (Some "p3")));
       Slept 250;
       Fetched (Some "p3", Normal (PageOk [fresh] None))]
      = Fetched first
          :: (later ≫= λ call, [Slept 250; Fetched call]).
Proof.
  apply (sleeps_between_fetches 3 (delayed 250 pagesB) 0%nat
           (Normal (ResOk [dup; fresh] None)) 3%nat).
  vm_compute; reflexivity.
Defined.

Lemma success_cursor_means_limit_witness :
  run (Some 2) pagesB 2
    = Some (Normal (ResOk [dup] (Some "p3")), (2%nat, take 2 callsB))
  ∧ "p3" ≠ ""
  ∧ ∃ limit used pitems,
      maxPages (scriptedOpts tweetId None (Some 2) pagesB) = Some limit
      ∧ limit ≤ Z.of_nat (length (take 2 callsB))
      ∧ last (take 2 callsB)
        = Some (used, Normal (PageOk pitems (Some "p3")))
      ∧ used ≠ Some "p3".
Proof.
  split; [vm_compute; reflexivity|].
  refine (proj2 (success_cursor_means_limit 2
                   (scriptedOpts tweetId None (Some 2) pagesB) 0%nat 2%nat
                   (take 2 callsB) [dup] (Some "p3") _) "p3" eq_refl).
  vm_compute; reflexivity.
Defined.

Lemma posted_tweet_has_id_witness :
  (@createTweet netPosted hello world0).1 = Normal (TweetOk "1001")
  ∧ "1001" ≠ "".
Proof.
  split; [vm_compute; reflexivity|].
  apply (@posted_tweet_has_id netPosted hello world0 "1001").
  vm_compute; reflexivity.
Defined.

Lemma uploaded_media_has_id_witness :
  (@uploadMedia netUpload picture world0).1 = Normal (UploadOk "55")
  ∧ "55" ≠ "".
Proof.
  split; [vm_compute; reflexivity|].
  apply (proj1 (@uploaded_media_has_id netUpload picture world0 "55")).
  vm_compute; reflexivity.
Defined.

Lemma found_user_has_id_witness :
  (@getUserIdByUsername netUser "jack" world0).1
    = Normal (LookupOk "7" "jack" None)
  ∧ "7" ≠ "".
Proof.
  split; [vm_compute; reflexivity|].
  apply (@found_user_has_id netUser "jack" world0 "7" "jack" None).
  vm_compute; reflexivity.
Defined.

Lemma createTweet_request_budget_witness :
  ∃ evs,
    trace (@createTweet netAutomated hello world0).2 = trace world0 ++ evs
    ∧ (count isFetch evs ≤ 5)%nat
    ∧ (count isRefresh evs ≤ 1)%nat
    ∧ (count isSleep evs ≤ 2)%nat.
Proof.
  apply (@createTweet_request_budget netAutomated hello world0 world0).
  reflexivity.
Defined.

Lemma lookup_request_budget_witness :
  @getUserIdByUsername netDown "" world0
  = (Normal (LookupFail "Invalid username: "), world0).
Proof.
  apply (proj2 (proj2 (proj2 (@lookup_request_budget netDown "")))).
  reflexivity.
Defined.

Lemma requests_carry_session_witness :
  ∃ evs,
    trace (@createTweet netAutomated hello world0).2 = trace world0 ++ evs
    ∧ Forall (authenticated "csrf" "auth_token=auth; ct0=csrf") evs.
Proof.
  apply (proj1 (@requests_carry_session netAutomated "csrf"
                  "auth_token=auth; ct0=csrf")
           (λ w Hw, conj Hw (conj (ex_intro _ []
                                     (conj (eq_sym (app_nil_r _))
                                        (Forall_nil_2 _)))
                               (λ _ _, I)))
           hello world0 (conj eq_refl eq_refl)).
Defined.

Lemma unavailable_user_ends_lookup_witness :
  (@getUserIdByUsername netGone "ghost" world0).1
  = Normal (LookupFail "User @ghost not found or unavailable").
Proof.
  apply (f_equal fst
           (@unavailable_user_ends_lookup netGone "ghost" "ghost" world0
              responseGone (bodyUser (Some "UserUnavailable") None None)
              eq_refl ltac:(done) eq_refl eq_refl eq_refl eq_refl)).
Defined.

Lemma failed_refresh_keeps_ids_witness :
  @refreshQueryIds netRetry worldTest
  = (Normal tt, after EvRefreshQueryIds worldTest).
Proof.
  apply (proj1 (@failed_refresh_keeps_ids netRetry worldTest
                  (or_introl eq_refl))).
Defined.

Lemma upload_sends_every_byte_once_witness :
  ∃ evs,
    trace (@uploadMedia netUpload picture world0).2 = trace world0 ++ evs
    ∧ mjoin ((multiparts evs).*2) = data picture
    ∧ ∀ k fields media,
        multiparts evs !! k = Some (fields, media) →
        fields = [("command", "APPEND"); ("media_id", "55");
                  ("segment_index", pretty (Z.of_nat k))]
        ∧ (0 < length media)%nat
        ∧ Z.of_nat (length media) ≤ chunkSize.
Proof.
  apply (@upload_sends_every_byte_once netUpload picture world0).
  vm_compute; reflexivity.
Defined.

Lemma upload_sends_nothing_unasked_witness :
  @uploadMedia netDown note world0
  = (Normal (UploadFail "Unsupported media type: text/plain"), world0).
Proof.
  apply (proj1 (proj2 (@upload_sends_nothing_unasked netDown note))).
  reflexivity.
Defined.

Lemma legacy_form_keeps_the_tweet_witness :
  let form : gmap string string :=
    list_to_map (statusUpdateParams replyInput) in
  form !! "status" = Some "hello"
  ∧ form !! "in_reply_to_status_id" = Some "99"
  ∧ form !! "auto_populate_reply_metadata" = Some "true"
  ∧ form !! "media_ids" = Some "1,2".
Proof.
  destruct (proj2 (legacy_form_keeps_the_tweet replyWithMedia) replyInput
              eq_refl) as (_ & Hstatus & Hreply & Hmeta & Hmedia & _).
  exact (conj Hstatus (conj Hreply (conj Hmeta Hmedia))).
Defined.

Lemma accepted_flags_are_in_range_witness :
  parsePaginationFlags parseIntOf threePages withDelay
    = ParsedOk threePagesFlags
  ∧ (∀ n, flag_maxPages threePagesFlags = Some n → 1 ≤ n)
  ∧ ∀ d, flag_pageDelayMs threePagesFlags = Some d → 0 ≤ d.
Proof.
  split; [reflexivity|].
  destruct (accepted_flags_are_in_range parseIntOf threePages withDelay
              threePagesFlags eq_refl) as (_ & Hpages & _ & Hdelay & _).
  exact (conj Hpages Hdelay).
Defined.

Lemma accepted_page_limit_bounds_fetches_witness :
  ∃ c w' calls,
    paginateCursor (Z.to_nat 3)
      (recording
         {| cursor := flag_cursor threePagesFlags;
            maxPages := flag_maxPages threePagesFlags;
            pageDelayMs := flag_pageDelayMs threePagesFlags;
            Paginator.sleep := λ _ n, n;
            getKey := tweetId;
            fetchPage := scripted pagesB |})
      (0%nat, [])
    = Some (c, (w', calls))
    ∧ 1 ≤ Z.of_nat (length calls) ≤ 3.
Proof.
  apply (accepted_page_limit_bounds_fetches parseIntOf threePages withDelay
           threePagesFlags 3 (λ _ n, n) tweetId (scripted pagesB) 0%nat);
    reflexivity.
Defined.

Lemma detected_mime_is_uploadable_witness :
  detectMime (λ path, path) "cat.png" = Some "image/png"
  ∧ ∃ category,
      mediaCategoryForMime "image/png" = Some category
      ∧ (category = "tweet_video" ↔ String.prefix "video/" "image/png" = true)
      ∧ (category = "tweet_gif" ↔ "image/png" = "image/gif")
      ∧ (category = "tweet_image" ↔
         String.prefix "image/" "image/png" = true
         ∧ "image/png" ≠ "image/gif").
Proof.
  split; [reflexivity|].
  apply (detected_mime_is_uploadable (λ path, path) "cat.png" "image/png").
  reflexivity.
Defined.

Lemma loaded_media_fit_a_tweet_witness :
  ∃ specs,
    loadMedia (λ path, path) readPicture ["cat.png"] ["A cat"] = Normal specs
    ∧ spec_path <$> specs = ["cat.png"]
    ∧ (length specs ≤ 4)%nat.
Proof.
  eexists. split; [reflexivity|].
  destruct (loaded_media_fit_a_tweet (λ path, path) readPicture ["cat.png"]
              ["A cat"] _ eq_refl) as (Hpaths & Hlen & _).
  exact (conj Hpaths Hlen).
Defined.

Lemma unverifiable_post_is_reported_lost_witness :
  (@createTweet netSilent hello worldAnonymous).1
  = Normal (TweetFail NOT_FOUND_AFTER_POSTING).
Proof.
  apply (f_equal fst
           (@unverifiable_post_is_reported_lost netSilent hello worldAnonymous
              worldAnonymous _ emptyBody eq_refl eq_refl eq_refl eq_refl
              eq_refl eq_refl eq_refl)).
Defined.

End ExtraRuns.
